(** * A shallow embedding of the softmax classifiers of [deep_learning]

    The development follows [assignment1/linear_classifer.py],
    [assignment2/layers.py] and [assignment2/model.py].

    - A numpy [float64] is an extended real: a real number, one of the two
      infinities, or NaN.  Finite arithmetic is exact; rounding, overflow,
      underflow and the sign of zero are outside the model.  What depends
      on rounding is computed in [Binary64], on binary64 numbers.
    - A float [ndarray] has one or two dimensions and lives in a heap:
      every numpy call that returns a float array allocates a fresh cell,
      in-place operators overwrite a cell.  Views ([.T], [[:, np.newaxis]])
      are never written through in this code and are allocated like copies.
    - Integer index arrays and boolean masks are only read; they are
      passed by value.
    - A Python exception is the result [None]. *)

From Stdlib Require Import Reals Lra Lia ZArith List String DecimalString
  DecimalNat Permutation.
From Stdlib Require PrimFloat.
From stdpp Require Import base option list.
Import ListNotations.

(* ================================================================== *)
(** * Floats with the IEEE special values *)

Inductive float := Fin (r : R) | PInf | NInf | NaN.

Definition fneg (x : float) : float :=
  match x with
  | Fin r => Fin (- r)
  | PInf => NInf
  | NInf => PInf
  | NaN => NaN
  end.

Definition fadd (x y : float) : float :=
  match x, y with
  | NaN, _ | _, NaN => NaN
  | Fin a, Fin b => Fin (a + b)
  | PInf, NInf | NInf, PInf => NaN
  | PInf, _ | _, PInf => PInf
  | NInf, _ | _, NInf => NInf
  end.

Definition fsub (x y : float) : float := fadd x (fneg y).

Definition fmul (x y : float) : float :=
  match x, y with
  | NaN, _ | _, NaN => NaN
  | Fin a, Fin b => Fin (a * b)
  | Fin a, PInf | PInf, Fin a =>
      if Rlt_dec 0 a then PInf else if Rlt_dec a 0 then NInf else NaN
  | Fin a, NInf | NInf, Fin a =>
      if Rlt_dec 0 a then NInf else if Rlt_dec a 0 then PInf else NaN
  | PInf, PInf | NInf, NInf => PInf
  | PInf, NInf | NInf, PInf => NInf
  end.

(** Division; a zero divisor is the positive zero. *)
Definition fdiv (x y : float) : float :=
  match x, y with
  | NaN, _ | _, NaN => NaN
  | Fin a, Fin b =>
      if Req_dec_T b 0
      then (if Rlt_dec 0 a then PInf else if Rlt_dec a 0 then NInf else NaN)
      else Fin (a / b)
  | Fin _, PInf | Fin _, NInf => Fin 0
  | PInf, Fin b => if Rlt_dec b 0 then NInf else PInf
  | NInf, Fin b => if Rlt_dec b 0 then PInf else NInf
  | _, _ => NaN
  end.

Definition fexp (x : float) : float :=
  match x with
  | Fin a => Fin (exp a)
  | PInf => PInf
  | NInf => Fin 0
  | NaN => NaN
  end.

(** [np.log]: the logarithm of zero is minus infinity, of a negative
    number NaN (numpy warns and goes on). *)
Definition flog (x : float) : float :=
  match x with
  | Fin a => if Rlt_dec 0 a then Fin (ln a)
             else if Rlt_dec a 0 then NaN else NInf
  | PInf => PInf
  | NInf | NaN => NaN
  end.

(** [x < y]; every comparison with NaN is false. *)
Definition fltb (x y : float) : bool :=
  match x, y with
  | NaN, _ | _, NaN => false
  | Fin a, Fin b => if Rlt_dec a b then true else false
  | _, NInf => false
  | PInf, _ => false
  | NInf, _ => true
  | Fin _, PInf => true
  end.

(** [np.maximum] on two scalars; NaN propagates. *)
Definition fmaximum (x y : float) : float :=
  match x, y with
  | NaN, _ | _, NaN => NaN
  | _, _ => if fltb x y then y else x
  end.

Definition is_finite (x : float) : bool :=
  match x with Fin _ => true | _ => false end.

Definition is_nan (x : float) : bool :=
  match x with NaN => true | _ => false end.

(** [x <= y]; every comparison with NaN is false. *)
Definition fleb (x y : float) : bool :=
  match x, y with
  | NaN, _ | _, NaN => false
  | _, _ => negb (fltb y x)
  end.

(** A Python [int] used where a float is expected. *)
Definition of_nat (n : nat) : float := Fin (INR n).

(* ================================================================== *)
(** * Arrays of one or two dimensions *)

Inductive ndarray (A : Type) :=
| Arr1 (v : list A)
| Arr2 (ncols : nat) (rows : list (list A)).
Arguments Arr1 {A} v.
Arguments Arr2 {A} ncols rows.

Definition farray := ndarray float.

Definition ndim {A} (a : ndarray A) : nat :=
  match a with Arr1 _ => 1 | Arr2 _ _ => 2 end.

(** [a.shape], with a vector of length n read as (1, n) (the way
    broadcasting reads it). *)
Definition shape2 {A} (a : ndarray A) : nat * nat :=
  match a with
  | Arr1 v => (1, length v)
  | Arr2 nc rows => (length rows, nc)
  end.

Definition nd_size {A} (a : ndarray A) : nat :=
  match a with
  | Arr1 v => length v
  | Arr2 nc rows => length rows * nc
  end.

(** Every row of a matrix has [ncols] entries. *)
Definition wf_array {A} (a : ndarray A) : bool :=
  match a with
  | Arr1 _ => true
  | Arr2 nc rows => forallb (fun r => length r =? nc) rows
  end.

Definition ravel {A} (a : ndarray A) : list A :=
  match a with
  | Arr1 v => v
  | Arr2 _ rows => concat rows
  end.

(** Entry (i, j); a vector has the single row 0. *)
Definition at2 (a : farray) (i j : nat) : float :=
  match a with
  | Arr1 v => nth j v NaN
  | Arr2 _ rows => nth j (nth i rows []) NaN
  end.

Definition tabulate {A} (n : nat) (f : nat -> A) : list A := map f (seq 0 n).

Definition tabulate2 {A} (r c : nat) (f : nat -> nat -> A) : list (list A) :=
  tabulate r (fun i => tabulate c (f i)).

(** Elementwise application: [np.exp], [np.log], [W ** 2], [c * W], ... *)
Definition nd_map {A B} (f : A -> B) (a : ndarray A) : ndarray B :=
  match a with
  | Arr1 v => Arr1 (map f v)
  | Arr2 nc rows => Arr2 nc (map (map f) rows)
  end.

(** ** Broadcasting *)

(** The broadcast of two extents: equal, or one of them is 1. *)
Definition bdim (a b : nat) : option nat :=
  if a =? b then Some a
  else if a =? 1 then Some b
  else if b =? 1 then Some a
  else None.

(** An extent of 1 is read at index 0 whatever the index. *)
Definition bidx (dim i : nat) : nat := if dim =? 1 then 0 else i.

(** [a op b] for two arrays; the result has two dimensions unless both
    operands are vectors; [None] is numpy's ValueError. *)
Definition nd_binop (f : float -> float -> float) (a b : farray)
  : option farray :=
  let '(ra, ca) := shape2 a in
  let '(rb, cb) := shape2 b in
  match bdim ra rb, bdim ca cb with
  | Some r, Some c =>
      let g i j := f (at2 a (bidx ra i) (bidx ca j))
                     (at2 b (bidx rb i) (bidx cb j)) in
      Some (match a, b with
            | Arr1 _, Arr1 _ => Arr1 (tabulate c (g 0))
            | _, _ => Arr2 c (tabulate2 r c g)
            end)
  | _, _ => None
  end.

(** The value an in-place [a op= b] leaves in [a]: the broadcast result
    must have the shape of [a]. *)
Definition nd_ibinop (f : float -> float -> float) (a b : farray)
  : option farray :=
  match nd_binop f a b with
  | Some r =>
      if (ndim r =? ndim a) && (fst (shape2 r) =? fst (shape2 a))
                            && (snd (shape2 r) =? snd (shape2 a))
      then Some r else None
  | None => None
  end.

(** ** Reductions *)

Definition fsum (l : list float) : float := fold_left fadd l (Fin 0).

(** [None] on the empty list: the maximum has no identity. *)
Definition fmax_list (l : list float) : option float :=
  match l with
  | [] => None
  | x :: l' => Some (fold_left fmaximum l' x)
  end.

Definition nd_sum (a : farray) : float := fsum (ravel a).

Definition nd_max (a : farray) : option float := fmax_list (ravel a).

Definition nd_mean (a : farray) : float :=
  fdiv (nd_sum a) (of_nat (nd_size a)).

(** [np.sum(a, axis=1)]; a vector has no axis 1. *)
Definition nd_sum_axis1 (a : farray) : option farray :=
  match a with
  | Arr1 _ => None
  | Arr2 _ rows => Some (Arr1 (map fsum rows))
  end.

(** [np.max(a, axis=1)]; fails when the reduced axis is empty. *)
Definition nd_max_axis1 (a : farray) : option farray :=
  match a with
  | Arr1 _ => None
  | Arr2 nc rows =>
      if nc =? 0 then None
      else v ← mapM fmax_list rows; Some (Arr1 v)
  end.

(** [np.argmax] along one row, as numpy scans it: [mp] is the largest
    entry so far and [mi] its position, [i] the position of the head of
    [l].  An entry replaces [mp] unless it is [<= mp], and the scan stops
    at the first NaN. *)
Fixpoint argmax_from (mp : float) (mi i : nat) (l : list float) : nat :=
  match l with
  | [] => mi
  | x :: l' =>
      if is_nan mp then mi
      else if fleb x mp then argmax_from mp mi (S i) l'
      else argmax_from x i (S i) l'
  end.

(** [None] on the empty row: a ValueError. *)
Definition argmax_list (l : list float) : option nat :=
  match l with
  | [] => None
  | x :: l' => Some (argmax_from x 0 1 l')
  end.

(** [np.argmax(a, axis=1)]: an integer vector with one position per row;
    a vector has no axis 1, and an axis of extent 0 is a ValueError. *)
Definition nd_argmax_axis1 (a : farray) : option (list Z) :=
  match a with
  | Arr1 _ => None
  | Arr2 nc rows =>
      if nc =? 0 then None
      else v ← mapM argmax_list rows; Some (map Z.of_nat v)
  end.

(** [np.sum(a, axis=0)]: the column sums (of a vector: its sum is a
    scalar, which this code never asks for). *)
Definition nd_sum_axis0 (a : farray) : option farray :=
  match a with
  | Arr1 _ => None
  | Arr2 nc rows =>
      Some (Arr1 (tabulate nc (fun j => fsum (map (fun r => nth j r NaN) rows))))
  end.

(** [v[:, np.newaxis]] of a vector: a column. *)
Definition nd_newaxis (a : farray) : option farray :=
  match a with
  | Arr1 v => Some (Arr2 1 (map (fun x => [x]) v))
  | Arr2 _ _ => None
  end.

(** [a.T] *)
Definition nd_transpose (a : farray) : farray :=
  match a with
  | Arr1 v => Arr1 v
  | Arr2 nc rows =>
      Arr2 (length rows) (tabulate2 nc (length rows) (fun j i => at2 a i j))
  end.

(** [np.dot] of two matrices (the other ranks do not occur). *)
Definition nd_dot (a b : farray) : option farray :=
  match a, b with
  | Arr2 ca ra, Arr2 cb rb =>
      if ca =? length rb
      then Some (Arr2 cb (tabulate2 (length ra) cb (fun i j =>
             fsum (tabulate ca (fun k => fmul (at2 a i k) (at2 b k j))))))
      else None
  | _, _ => None
  end.

Definition nd_zeros_like (a : farray) : farray := nd_map (fun _ => Fin 0) a.

(** ** Indexing *)

(** An index into an axis of extent [n]: negative indices count from the
    end, anything else out of range is an IndexError. *)
Definition norm_index (n : nat) (i : Z) : option nat :=
  if ((0 <=? i) && (i <? Z.of_nat n))%Z then Some (Z.to_nat i)
  else if ((- Z.of_nat n <=? i) && (i <? 0))%Z then Some (Z.to_nat (i + Z.of_nat n))
  else None.

(** [np.arange(n)] *)
Definition nd_arange (n : nat) : list Z := map Z.of_nat (seq 0 n).

(** [np.arange(start, stop, step)] on integers. *)
Definition nd_arange3 (start stop step : Z) : option (list Z) :=
  if (step =? 0)%Z then None
  else
    let len := if (0 <? step)%Z
               then Z.to_nat ((stop - start + step - 1) / step)
               else Z.to_nat ((start - stop - step - 1) / (- step)) in
    Some (map (fun k => (start + Z.of_nat k * step)%Z) (seq 0 len)).

(** [v[idx]] with an integer array [idx] on a vector. *)
Definition getitem1 {A} (v : list A) (idx : list Z) : option (list A) :=
  mapM (fun i => k ← norm_index (length v) i; v !! k) idx.

(** [a[ri, ci]] with two integer arrays of one length on a matrix. *)
Definition getitem2 (a : farray) (ri ci : list Z) : option farray :=
  match a with
  | Arr1 _ => None
  | Arr2 nc rows =>
      if length ri =? length ci then
        v ← mapM (fun '(i, j) =>
                     r ← norm_index (length rows) i;
                     c ← norm_index nc j;
                     row ← rows !! r;
                     row !! c) (zip ri ci);
        Some (Arr1 v)
      else None
  end.

(** [a[idx]] with an integer array: the selected rows of a matrix, the
    selected entries of a vector. *)
Definition getitem_rows (a : farray) (idx : list Z) : option farray :=
  match a with
  | Arr1 v => v' ← getitem1 v idx; Some (Arr1 v')
  | Arr2 nc rows => rows' ← getitem1 rows idx; Some (Arr2 nc rows')
  end.

(** [v[idx] = vals] on a vector: the writes happen in order. *)
Fixpoint setitem1_list (v : list float) (idx : list Z) (vals : list float)
  : option (list float) :=
  match idx, vals with
  | [], [] => Some v
  | i :: idx', x :: vals' =>
      k ← norm_index (length v) i;
      setitem1_list (<[k := x]> v) idx' vals'
  | _, _ => None
  end.

Fixpoint setitem2_list (nc : nat) (rows : list (list float))
    (idx : list (Z * Z)) (vals : list float) : option (list (list float)) :=
  match idx, vals with
  | [], [] => Some rows
  | (i, j) :: idx', x :: vals' =>
      r ← norm_index (length rows) i;
      c ← norm_index nc j;
      row ← rows !! r;
      setitem2_list nc (<[r := <[c := x]> row]> rows) idx' vals'
  | _, _ => None
  end.

(** [a[idx] = vals] (vector) *)
Definition setitem1 (a : farray) (idx : list Z) (vals : farray)
  : option farray :=
  match a, vals with
  | Arr1 v, Arr1 xs => v' ← setitem1_list v idx xs; Some (Arr1 v')
  | _, _ => None
  end.

(** [a[ri, ci] = vals] (matrix) *)
Definition setitem2 (a : farray) (ri ci : list Z) (vals : farray)
  : option farray :=
  match a, vals with
  | Arr2 nc rows, Arr1 xs =>
      if length ri =? length ci then
        rows' ← setitem2_list nc rows (zip ri ci) xs; Some (Arr2 nc rows')
      else None
  | _, _ => None
  end.

(** [a < c] against a scalar: a boolean mask of the shape of [a]. *)
Definition nd_lt_scalar (a : farray) (c : float) : ndarray bool :=
  nd_map (fun x => fltb x c) a.

(** [a[mask] = c]: the mask must have the shape of [a]. *)
Definition setmask (a : farray) (mask : ndarray bool) (c : float)
  : option farray :=
  match a, mask with
  | Arr1 v, Arr1 m =>
      if length v =? length m
      then Some (Arr1 (zip_with (fun x (b : bool) => if b then c else x) v m))
      else None
  | Arr2 nc rows, Arr2 mc mrows =>
      if (nc =? mc) && (length rows =? length mrows)
      then Some (Arr2 nc (zip_with
                  (zip_with (fun x (b : bool) => if b then c else x)) rows mrows))
      else None
  | Arr2 nc rows, Arr1 m =>
      (* a vector mask selects whole rows *)
      if length rows =? length m
      then Some (Arr2 nc (zip_with
                  (fun row (b : bool) => if b then map (fun _ => c) row else row)
                  rows m))
      else None
  | Arr1 _, Arr2 _ _ => None
  end.

(* ================================================================== *)
(** * The heap and its monad *)

Abbreviation loc := nat (only parsing).

(** The Python objects of the program. *)
Inductive obj :=
| ONd (a : farray)                        (* a float ndarray *)
| OParam (value grad : loc)               (* layers.Param *)
| OReLU (X : option loc)                  (* layers.ReLULayer *)
| OFC (W B : loc) (X : option loc)        (* layers.FullyConnectedLayer *)
| OLinear (W : option loc).               (* LinearSoftmaxClassifier *)

Abbreviation heap := (list obj).

Definition M (A : Type) : Type := heap -> option (A * heap).

Definition ret {A} (a : A) : M A := fun h => Some (a, h).

Definition bind {A B} (m : M A) (k : A -> M B) : M B :=
  fun h => match m h with
           | Some (a, h') => k a h'
           | None => None
           end.

Definition raise {A} : M A := fun _ => None.

Definition lift {A} (o : option A) : M A :=
  fun h => match o with Some a => Some (a, h) | None => None end.

Declare Scope heap_scope.
Delimit Scope heap_scope with heap.
Notation "x <- m ;; k" := (bind m (fun x => k))
  (at level 100, m at next level, right associativity) : heap_scope.
Notation "m ;; k" := (bind m (fun _ => k))
  (at level 100, right associativity) : heap_scope.
Open Scope heap_scope.

Definition alloc (o : obj) : M loc := fun h => Some (length h, h ++ [o]).

Definition load (l : loc) : M obj :=
  fun h => match h !! l with Some o => Some (o, h) | None => None end.

Definition store (l : loc) (o : obj) : M unit :=
  fun h => match h !! l with
           | Some _ => Some (tt, <[l := o]> h)
           | None => None
           end.

Definition load_nd (l : loc) : M farray :=
  o <- load l ;; match o with ONd a => ret a | _ => raise end.

Definition store_nd (l : loc) (a : farray) : M unit :=
  _ <- load_nd l ;; store l (ONd a).

Definition new_nd (a : farray) : M loc := alloc (ONd a).

(** A variable that holds an array or a scalar. *)
Inductive operand := Scalar (x : float) | Array (l : loc).

(** Monadic loops over a Python list. *)
Fixpoint for_each {A} (l : list A) (body : A -> M unit) : M unit :=
  match l with
  | [] => ret tt
  | x :: l' => body x ;; for_each l' body
  end.

Fixpoint fold_each {A S} (l : list A) (s : S) (body : S -> A -> M S) : M S :=
  match l with
  | [] => ret s
  | x :: l' => s' <- body s x ;; fold_each l' s' body
  end.

(** ** numpy on heap arrays *)

Module np.

Definition ndim (a : loc) : M nat := x <- load_nd a ;; ret (ndim x).

Definition size (a : loc) : M nat := x <- load_nd a ;; ret (nd_size x).

(** a function of one array that returns a new array *)
Definition unary (f : farray -> option farray) (a : loc) : M loc :=
  x <- load_nd a ;; r <- lift (f x) ;; new_nd r.

Definition binary (f : farray -> farray -> option farray) (a b : loc) : M loc :=
  x <- load_nd a ;; y <- load_nd b ;; r <- lift (f x y) ;; new_nd r.

(** an in-place operator: the result overwrites the left operand *)
Definition inplace (f : farray -> option farray) (a : loc) : M unit :=
  x <- load_nd a ;; r <- lift (f x) ;; store_nd a r.

Definition inplace2 (f : farray -> farray -> option farray) (a b : loc)
  : M unit :=
  x <- load_nd a ;; y <- load_nd b ;; r <- lift (f x y) ;; store_nd a r.

Definition exp := unary (fun x => Some (nd_map fexp x)).
Definition log := unary (fun x => Some (nd_map flog x)).
Definition square := unary (fun x => Some (nd_map (fun w => fmul w w) x)).
Definition copy := unary Some.
Definition zeros_like := unary (fun x => Some (nd_zeros_like x)).
Definition transpose := unary (fun x => Some (nd_transpose x)).
Definition newaxis := unary nd_newaxis.

(** [c * a] *)
Definition rmul (c : float) := unary (fun x => Some (nd_map (fmul c) x)).
(** [np.maximum(c, a)] *)
Definition maximum (c : float) := unary (fun x => Some (nd_map (fmaximum c) x)).

Definition sum (a : loc) : M float := x <- load_nd a ;; ret (nd_sum x).
Definition mean (a : loc) : M float := x <- load_nd a ;; ret (nd_mean x).
Definition max (a : loc) : M float := x <- load_nd a ;; lift (nd_max x).
Definition sum_axis0 := unary nd_sum_axis0.
Definition sum_axis1 := unary nd_sum_axis1.
Definition max_axis1 := unary nd_max_axis1.
(** [np.argmax(a, axis=1)]; the result is an integer array, passed by
    value *)
Definition argmax_axis1 (a : loc) : M (list Z) :=
  x <- load_nd a ;; lift (nd_argmax_axis1 x).

Definition dot := binary nd_dot.
Definition add := binary (nd_binop fadd).

(** [a - b] and [a / b] with an array or a scalar on the right *)
Definition sub (a : loc) (b : operand) : M loc :=
  match b with
  | Scalar c => unary (fun x => Some (nd_map (fun v => fsub v c) x)) a
  | Array b' => binary (nd_binop fsub) a b'
  end.

Definition div (a : loc) (b : operand) : M loc :=
  match b with
  | Scalar c => unary (fun x => Some (nd_map (fun v => fdiv v c) x)) a
  | Array b' => binary (nd_binop fdiv) a b'
  end.

(** [a += b], [a -= b] *)
Definition iadd := inplace2 (nd_ibinop fadd).
Definition isub := inplace2 (nd_ibinop fsub).
(** [a -= c], [a /= c] with a scalar *)
Definition isub_scalar (a : loc) (c : float) :=
  inplace (fun x => Some (nd_map (fun v => fsub v c) x)) a.
Definition idiv_scalar (a : loc) (c : float) :=
  inplace (fun x => Some (nd_map (fun v => fdiv v c) x)) a.

(** [a[idx]], [a[ri, ci]] *)
Definition getitem (a : loc) (idx : list Z) : M loc :=
  unary (fun x => getitem_rows x idx) a.
Definition getitem_pair (a : loc) (ri ci : list Z) : M loc :=
  unary (fun x => getitem2 x ri ci) a.

(** [a[idx] = vals], [a[ri, ci] = vals] *)
Definition setitem (a : loc) (idx : list Z) (vals : loc) : M unit :=
  inplace2 (fun x v => setitem1 x idx v) a vals.
Definition setitem_pair (a : loc) (ri ci : list Z) (vals : loc) : M unit :=
  inplace2 (fun x v => setitem2 x ri ci v) a vals.

(** [a[idx] -= c]: read the selected entries into a temporary, subtract
    in place there, write the temporary back. *)
Definition isub_item (a : loc) (idx : list Z) (c : float) : M unit :=
  tmp <- getitem a idx ;;
  isub_scalar tmp c ;;
  setitem a idx tmp.

Definition isub_item_pair (a : loc) (ri ci : list Z) (c : float) : M unit :=
  tmp <- getitem_pair a ri ci ;;
  isub_scalar tmp c ;;
  setitem_pair a ri ci tmp.

(** [a[b < c] = v] *)
Definition setitem_lt (a b : loc) (c v : float) : M unit :=
  inplace2 (fun x y => setmask x (nd_lt_scalar y c) v) a b.

End np.

(* ================================================================== *)
(** * Python dictionaries with string keys, in insertion order *)

Definition dict (V : Type) := list (string * V).

Fixpoint dict_set {V} (k : string) (v : V) (d : dict V) : dict V :=
  match d with
  | [] => [(k, v)]
  | (k', v') :: d' =>
      if String.eqb k k' then (k', v) :: d' else (k', v') :: dict_set k v d'
  end.

Fixpoint dict_get {V} (k : string) (d : dict V) : option V :=
  match d with
  | [] => None
  | (k', v') :: d' => if String.eqb k k' then Some v' else dict_get k d'
  end.

Definition dict_values {V} (d : dict V) : list V := map snd d.

(** [str(n)] *)
Definition str (n : nat) : string := NilZero.string_of_uint (Nat.to_uint n).

(* ================================================================== *)
(** * assignment2/layers.py

    [softmax], [cross_entropy_loss], [softmax_with_cross_entropy] and
    [l2_regularization] have the same text in
    assignment1/linear_classifer.py. *)

Definition l2_regularization (W : loc) (reg_strength : float)
  : M (float * loc) :=
  sq <- np.square W ;;
  s <- np.sum sq ;;
  let loss := fmul reg_strength s in
  grad <- np.rmul (fmul (Fin 2) reg_strength) W ;;
  ret (loss, grad).

Definition softmax (predictions : loc) : M loc :=
  d <- np.ndim predictions ;;
  let is_batch := d =? 2 in
  max_pred_in_row <-
    (if is_batch
     then m <- np.max_axis1 predictions ;; c <- np.newaxis m ;; ret (Array c)
     else m <- np.max predictions ;; ret (Scalar m)) ;;
  pred_norm <- np.sub predictions max_pred_in_row ;;
  pred_exp <- np.exp pred_norm ;;
  sum_pred_exp <-
    (if is_batch
     then s <- np.sum_axis1 pred_exp ;; c <- np.newaxis s ;; ret (Array c)
     else s <- np.sum pred_exp ;; ret (Scalar s)) ;;
  probs <- np.div pred_exp sum_pred_exp ;;
  ret probs.

Definition cross_entropy_loss (probs : loc) (target_index : list Z)
  : M float :=
  d <- np.ndim probs ;;
  let is_batch := d =? 2 in
  target_probs <-
    (if is_batch
     then np.getitem_pair probs (nd_arange (length target_index)) target_index
     else np.getitem probs target_index) ;;
  lg <- np.log target_probs ;;
  m <- np.mean lg ;;
  let loss := fneg m in
  ret loss.

Definition softmax_with_cross_entropy (predictions : loc)
    (target_index : list Z) : M (float * loc) :=
  probs <- softmax predictions ;;
  loss <- cross_entropy_loss probs target_index ;;
  d <- np.ndim probs ;;
  let is_batch := d =? 2 in
  let dprediction := probs in
  (if is_batch
   then np.isub_item_pair dprediction
          (nd_arange (length target_index)) target_index (Fin 1) ;;
        np.idiv_scalar dprediction (of_nat (length target_index))
   else np.isub_item dprediction target_index (Fin 1)) ;;
  ret (loss, dprediction).

(** ** class Param *)

Definition Param_init (value : loc) : M loc :=
  g <- np.zeros_like value ;;
  alloc (OParam value g).

Definition Param_value (p : loc) : M loc :=
  o <- load p ;; match o with OParam v _ => ret v | _ => raise end.

Definition Param_grad (p : loc) : M loc :=
  o <- load p ;; match o with OParam _ g => ret g | _ => raise end.

Definition Param_set_grad (p g : loc) : M unit :=
  o <- load p ;;
  match o with OParam v _ => store p (OParam v g) | _ => raise end.

(** ** class ReLULayer *)

Module ReLULayer.

Definition init : M loc := alloc (OReLU None).

Definition get_X (self : loc) : M loc :=
  o <- load self ;;
  match o with OReLU (Some X) => ret X | _ => raise end.

Definition forward (self X : loc) : M loc :=
  o <- load self ;;
  match o with
  | OReLU _ =>
      store self (OReLU (Some X)) ;;
      res <- np.maximum (Fin 0) X ;;
      ret res
  | _ => raise
  end.

Definition backward (self d_out : loc) : M loc :=
  d_result <- np.copy d_out ;;
  X <- get_X self ;;
  np.setitem_lt d_result X (Fin 0) (Fin 0) ;;
  ret d_result.

Definition params (self : loc) : M (dict loc) := ret [].

End ReLULayer.

(** ** class FullyConnectedLayer *)

Module FullyConnectedLayer.

(** [randn_W] and [randn_B] are the two calls of [np.random.randn], as
    functions of the shape they are asked for. *)
Definition init (n_input n_output : nat) (randn_W randn_B : nat -> nat -> farray)
  : M loc :=
  r <- new_nd (randn_W n_input n_output) ;;
  w <- np.rmul (Fin (1 / 1000)) r ;;
  W <- Param_init w ;;
  r' <- new_nd (randn_B 1 n_output) ;;
  b <- np.rmul (Fin (1 / 1000)) r' ;;
  B <- Param_init b ;;
  alloc (OFC W B None).

Definition get_W (self : loc) : M loc :=
  o <- load self ;; match o with OFC W _ _ => ret W | _ => raise end.

Definition get_B (self : loc) : M loc :=
  o <- load self ;; match o with OFC _ B _ => ret B | _ => raise end.

Definition get_X (self : loc) : M loc :=
  o <- load self ;; match o with OFC _ _ (Some X) => ret X | _ => raise end.

Definition forward (self X : loc) : M loc :=
  o <- load self ;;
  match o with
  | OFC W B _ =>
      store self (OFC W B (Some X)) ;;
      w <- Param_value W ;;
      xw <- np.dot X w ;;
      b <- Param_value B ;;
      res <- np.add xw b ;;
      ret res
  | _ => raise
  end.

Definition backward (self d_out : loc) : M loc :=
  W <- get_W self ;;
  gW <- Param_grad W ;;
  X <- get_X self ;;
  xt <- np.transpose X ;;
  dw <- np.dot xt d_out ;;
  np.iadd gW dw ;;
  B <- get_B self ;;
  gB <- Param_grad B ;;
  db <- np.sum_axis0 d_out ;;
  np.iadd gB db ;;
  W' <- get_W self ;;
  w <- Param_value W' ;;
  wt <- np.transpose w ;;
  d_result <- np.dot d_out wt ;;
  ret d_result.

Definition params (self : loc) : M (dict loc) :=
  W <- get_W self ;;
  B <- get_B self ;;
  ret (dict_set "B"%string B (dict_set "W"%string W [])).

End FullyConnectedLayer.

(** ** The layer interface: a method call on a layer object goes to the
       method of its class. *)

Module Layer.

Definition forward (self X : loc) : M loc :=
  o <- load self ;;
  match o with
  | OReLU _ => ReLULayer.forward self X
  | OFC _ _ _ => FullyConnectedLayer.forward self X
  | _ => raise
  end.

Definition backward (self d_out : loc) : M loc :=
  o <- load self ;;
  match o with
  | OReLU _ => ReLULayer.backward self d_out
  | OFC _ _ _ => FullyConnectedLayer.backward self d_out
  | _ => raise
  end.

Definition params (self : loc) : M (dict loc) :=
  o <- load self ;;
  match o with
  | OReLU _ => ReLULayer.params self
  | OFC _ _ _ => FullyConnectedLayer.params self
  | _ => raise
  end.

End Layer.

(* ================================================================== *)
(** * assignment2/model.py *)

Module TwoLayerNet.

Record t := { reg : float; layers : list loc }.

(** [randn k] is the k-th call of [np.random.randn] of the construction. *)
Definition init (n_input n_output hidden_layer_size : nat) (reg : float)
    (randn : nat -> nat -> nat -> farray) : M t :=
  l0 <- FullyConnectedLayer.init n_input hidden_layer_size (randn 0) (randn 1) ;;
  l1 <- ReLULayer.init ;;
  l2 <- FullyConnectedLayer.init hidden_layer_size n_output (randn 2) (randn 3) ;;
  ret {| reg := reg; layers := [] ++ [l0] ++ [l1] ++ [l2] |}.

Definition params (self : t) : M (dict loc) :=
  fold_each (imap pair (layers self)) [] (fun result '(layer_num, layer) =>
    ps <- Layer.params layer ;;
    ret (fold_left (fun result '(param_name, param) =>
           dict_set (param_name ++ "_" ++ str layer_num)%string param result)
         ps result)).

Definition compute_loss_and_gradients (self : t) (X : loc) (y : list Z)
  : M float :=
  ps <- params self ;;
  for_each (dict_values ps) (fun param =>
    v <- Param_value param ;;
    z <- np.zeros_like v ;;
    Param_set_grad param z) ;;
  res <- np.copy X ;;
  res <- fold_each (layers self) res (fun res layer =>
           Layer.forward layer res) ;;
  r <- softmax_with_cross_entropy res y ;;
  r' <- fold_each (rev (layers self)) r (fun '(loss, dres) layer =>
          ps <- Layer.params layer ;;
          loss <- match dict_get "W"%string ps with
                  | Some W =>
                      v <- Param_value W ;;
                      lr <- l2_regularization v (reg self) ;;
                      let '(loss_reg, dW_reg) := lr in
                      g <- Param_grad W ;;
                      np.iadd g dW_reg ;;
                      ret (fadd loss loss_reg)
                  | None => ret loss
                  end ;;
          dres <- Layer.backward layer dres ;;
          ret (loss, dres)) ;;
  ret (fst r').

Definition predict (self : t) (X : loc) : M (list Z) :=
  res <- np.copy X ;;
  res <- fold_each (layers self) res (fun res layer =>
           Layer.forward layer res) ;;
  y_pred <- np.argmax_axis1 res ;;
  ret y_pred.

End TwoLayerNet.

(* ================================================================== *)
(** * assignment1/linear_classifer.py *)

Definition linear_softmax (X W : loc) (target_index : list Z)
  : M (float * loc) :=
  predictions <- np.dot X W ;;
  r <- softmax_with_cross_entropy predictions target_index ;;
  let '(loss, dprediction) := r in
  xt <- np.transpose X ;;
  dW <- np.dot xt dprediction ;;
  ret (loss, dW).

(** [l[st:en]] *)
Definition slice {A} (l : list A) (st en : Z) : list A :=
  let n := Z.of_nat (length l) in
  let clamp i := (if i <? 0 then Z.max (i + n) 0 else Z.min i n)%Z in
  let s := Z.to_nat (clamp st) in
  let e := Z.to_nat (clamp en) in
  take (e - s) (drop s l).

(** [np.array_split(ary, indices)] with a list of split points. *)
Definition array_split {A} (ary : list A) (indices : list Z) : list (list A) :=
  let div_points := (0%Z :: indices) ++ [Z.of_nat (length ary)] in
  map (fun '(st, en) => slice ary st en) (zip div_points (tail div_points)).

(** What one call of [fit] draws from numpy's global generator:
    [randn r c] is the array [np.random.randn(r, c)] returns, and
    [shuffle k] is the rearrangement [np.random.shuffle] makes in
    epoch [k]. *)
Record RandomState := {
  randn : nat -> nat -> farray;
  shuffle : nat -> list Z -> list Z
}.

Module LinearSoftmaxClassifier.

Definition init : M loc := alloc (OLinear None).

Definition get_W (self : loc) : M (option loc) :=
  o <- load self ;; match o with OLinear W => ret W | _ => raise end.

(** [self.W] where an array is needed *)
Definition the_W (self : loc) : M loc :=
  W <- get_W self ;; lift W.

Definition set_W (self : loc) (W : loc) : M unit :=
  o <- load self ;;
  match o with OLinear _ => store self (OLinear (Some W)) | _ => raise end.

(** [np.max(y)] of an integer vector *)
Definition max_int (y : list Z) : option Z :=
  match y with
  | [] => None
  | x :: y' => Some (fold_left Z.max y' x)
  end.

(** The body of the loop over the batches of one epoch; the state is
    [(loss, cnt)]. *)
Definition fit_batch (self X : loc) (y : list Z)
    (learning_rate reg : float) (st : float * nat) (batch_indices : list Z)
  : M (float * nat) :=
  let '(loss, cnt) := st in
  batch_X <- np.getitem X batch_indices ;;
  batch_y <- lift (getitem1 y batch_indices) ;;
  W <- the_W self ;;
  r1 <- linear_softmax batch_X W batch_y ;;
  let '(loss1, dW1) := r1 in
  W <- the_W self ;;
  r2 <- l2_regularization W reg ;;
  let '(loss2, dW2) := r2 in
  let loss := fadd loss (fadd loss1 loss2) in
  dW <- np.add dW1 dW2 ;;
  W <- the_W self ;;
  step <- np.rmul learning_rate dW ;;
  np.isub W step ;;
  set_W self W ;;
  ret (loss, S cnt).

(** The body of the loop over the epochs; the state is [loss_history]. *)
Definition fit_epoch (rng : RandomState) (self X : loc) (y : list Z)
    (batch_size : Z) (learning_rate reg : float) (num_train : nat)
    (loss_history : list float) (epoch : nat) : M (list float) :=
  let shuffled_indices := shuffle rng epoch (nd_arange num_train) in
  sections <- lift (nd_arange3 batch_size (Z.of_nat num_train) batch_size) ;;
  let batches_indices := array_split shuffled_indices sections in
  r <- fold_each batches_indices (Fin 0, 0)
         (fit_batch self X y learning_rate reg) ;;
  let '(loss, cnt) := r in
  if cnt =? 0 then raise
  else ret (loss_history ++ [fdiv loss (of_nat cnt)]).

Definition fit (rng : RandomState) (self X : loc) (y : list Z)
    (batch_size : Z) (learning_rate reg : float) (epochs : Z)
  : M (list float) :=
  x <- load_nd X ;;
  match x with
  | Arr1 _ => raise
  | Arr2 num_features rows =>
      let num_train := length rows in
      m <- lift (max_int y) ;;
      let num_classes := (m + 1)%Z in
      W <- get_W self ;;
      (match W with
       | None =>
           if (num_classes <? 0)%Z then raise
           else
             r <- new_nd (randn rng num_features (Z.to_nat num_classes)) ;;
             w <- np.rmul (Fin (1 / 1000)) r ;;
             set_W self w
       | Some _ => ret tt
       end) ;;
      fold_each (seq 0 (Z.to_nat epochs)) []
        (fit_epoch rng self X y batch_size learning_rate reg num_train)
  end.

(** Before the first [fit], [self.W] is [None]: [np.dot(X, None)]
    multiplies every entry of [X] by [None], a TypeError, unless [X] has
    no entry, when the product is an empty array of the shape of [X]. *)
Definition predict (self X : loc) : M (list Z) :=
  W <- get_W self ;;
  match W with
  | Some w =>
      y <- np.dot X w ;;
      y_pred <- np.argmax_axis1 y ;;
      ret y_pred
  | None =>
      x <- load_nd X ;;
      if nd_size x =? 0 then
        y_pred <- lift (nd_argmax_axis1 x) ;;
        ret y_pred
      else raise
  end.

End LinearSoftmaxClassifier.

(* ================================================================== *)
(** * Predicates on heap computations *)

(** [m] run in [h] returns, and [Q] holds of the result and final heap. *)
Definition wp {A} (m : M A) (h : heap) (Q : A -> heap -> Prop) : Prop :=
  exists a h', m h = Some (a, h') /\ Q a h'.

(** Every object of [h] is still there, unchanged. *)
Definition heap_le (h h' : heap) : Prop :=
  forall l o, h !! l = Some o -> h' !! l = Some o.

(** Every object of [h] outside [ls] is still there, unchanged, and every
    location of [h] is still allocated. *)
Definition heap_le_except (ls : list loc) (h h' : heap) : Prop :=
  length h <= length h' /\
  forall l o, ~ In l ls -> h !! l = Some o -> h' !! l = Some o.

(** The kinds of objects. *)
Definition is_array (o : obj) : Prop :=
  match o with ONd _ => True | _ => False end.

Definition is_param (o : obj) : Prop :=
  match o with OParam _ _ => True | _ => False end.

Definition is_layer (o : obj) : Prop :=
  match o with OReLU _ | OFC _ _ _ => True | _ => False end.

(** Every object of [h] that is not of the kind [P] is still there,
    unchanged. *)
Definition heap_le_kind (P : obj -> Prop) (h h' : heap) : Prop :=
  forall l o, ~ P o -> h !! l = Some o -> h' !! l = Some o.

(** [m] changes no object of [h0], whatever later heap it starts in. *)
Definition preserves (h0 : heap) {A} (m : M A) : Prop :=
  forall h a h', heap_le h0 h -> m h = Some (a, h') -> heap_le h0 h'.

(** The location [m] returns was not allocated in [h0]. *)
Definition fresh_from (h0 : heap) (m : M loc) : Prop :=
  forall h l h', heap_le h0 h -> m h = Some (l, h') -> length h0 <= l.


(* ================================================================== *)
(** * The order of the floats, as a proposition *)

Definition float_lt (x y : float) : Prop :=
  match x, y with
  | NaN, _ | _, NaN => False
  | Fin a, Fin b => (a < b)%R
  | _, NInf => False
  | PInf, _ => False
  | NInf, _ => True
  | Fin _, PInf => True
  end.

Definition float_le (x y : float) : Prop :=
  match x, y with
  | NaN, _ | _, NaN => False
  | Fin a, Fin b => (a <= b)%R
  | NInf, _ => True
  | _, PInf => True
  | _, _ => False
  end.

(* ================================================================== *)
(** * The values the array functions compute *)

(** The maximum of a non-empty list, as [np.max] folds it. *)
Definition fmax_total (l : list float) : float :=
  fold_left fmaximum (tail l) (hd NaN l).

(** What [softmax] makes of one row of scores. *)
Definition softmax_row (v : list float) : list float :=
  let m := fmax_total v in
  let e := map (fun x => fexp (fsub x m)) v in
  map (fun y => fdiv y (fsum e)) e.

Definition softmax_nd (a : farray) : farray :=
  match a with
  | Arr1 v => Arr1 (softmax_row v)
  | Arr2 nc rows => Arr2 nc (map softmax_row rows)
  end.

(** Sums of real numbers, folded like [fsum]. *)
Definition Rsum (l : list R) : R := fold_left Rplus l 0%R.

(** All entries are real numbers. *)
Definition all_finite (a : farray) : bool := forallb is_finite (ravel a).


(** The true-class indices fit the array: one index per row of a batch,
    each a class number. *)
Definition valid_targets (a : farray) (t : list Z) : Prop :=
  match a with
  | Arr1 v => Forall (fun k => (0 <= k < Z.of_nat (length v))%Z) t
  | Arr2 nc rows =>
      length t = length rows /\ Forall (fun k => (0 <= k < Z.of_nat nc)%Z) t
  end.

(** The entries at the true-class positions: entry [t[i]] of row [i] of a
    batch, the entries [t[i]] of a vector. *)
Definition target_probs (a : farray) (t : list Z) : list float :=
  match a with
  | Arr1 _ => map (fun k => at2 a 0 (Z.to_nat k)) t
  | Arr2 _ _ => imap (fun i k => at2 a i (Z.to_nat k)) t
  end.

(** A probability: a real number between 0 and 1. *)
Definition is_probability (q : float) : Prop :=
  float_le (Fin 0) q /\ float_le q (Fin 1).

(** A real number or minus infinity: what the logarithm of a probability
    is. *)
Definition fin_or_ninf (x : float) : Prop :=
  match x with Fin _ | NInf => True | _ => False end.

(** The gradient array, entry by entry, in terms of the softmax values. *)
Definition swce_gradient (sm g : farray) (t : list Z) : Prop :=
  ndim g = ndim sm /\ shape2 g = shape2 sm /\ wf_array g = true /\
  match sm with
  | Arr2 nc rows =>
      forall i j, i < length rows -> j < nc ->
        (Z.of_nat j = nth i t 0%Z ->
         at2 g i j = fdiv (fsub (at2 sm i j) (Fin 1)) (of_nat (length rows))) /\
        (Z.of_nat j <> nth i t 0%Z ->
         at2 g i j = fdiv (at2 sm i j) (of_nat (length rows)))
  | Arr1 v =>
      forall j, j < length v ->
        (In (Z.of_nat j) t -> at2 g 0 j = fsub (at2 sm 0 j) (Fin 1)) /\
        (~ In (Z.of_nat j) t -> at2 g 0 j = at2 sm 0 j)
  end.


(** [out] is [d] with the entries zeroed where [x] is negative. *)
Definition relu_gradient (x d out : farray) : Prop :=
  ndim out = ndim d /\ shape2 out = shape2 d /\ wf_array out = true /\
  forall i j, i < fst (shape2 d) -> j < snd (shape2 d) ->
    (float_lt (at2 x i j) (Fin 0) -> at2 out i j = Fin 0) /\
    (float_le (Fin 0) (at2 x i j) -> at2 out i j = at2 d i j).

(** [a] is a matrix of [r] rows and [c] columns. *)
Definition has_shape (a : farray) (r c : nat) : Prop :=
  ndim a = 2 /\ shape2 a = (r, c) /\ wf_array a = true.

(** What [FullyConnectedLayer.forward] computes: [X . W + B]. *)
Definition fc_forward_nd (x w b : farray) : option farray :=
  xw ← nd_dot x w; nd_binop fadd xw b.

(** What [FullyConnectedLayer.backward] leaves in [W.grad] and [B.grad]
    and what it returns. *)
Definition fc_backward_dW (x d gw : farray) : option farray :=
  t ← nd_dot (nd_transpose x) d; nd_ibinop fadd gw t.

Definition fc_backward_dB (d gb : farray) : option farray :=
  s ← nd_sum_axis0 d; nd_ibinop fadd gb s.

Definition fc_backward_dX (d w : farray) : option farray :=
  nd_dot d (nd_transpose w).

(** What [ReLULayer.forward] and [ReLULayer.backward] compute. *)
Definition relu_forward_nd (x : farray) : farray := nd_map (fmaximum (Fin 0)) x.

Definition relu_backward_nd (x d : farray) : option farray :=
  setmask d (nd_lt_scalar x (Fin 0)) (Fin 0).

(** The dot product of column [i] of [a] with column [j] of [b], over
    [n] rows; of row [i] of [a] with row [j] of [b], over [n] columns;
    the sum of column [j] of [a]. *)
Definition dot_cols (n : nat) (a b : farray) (i j : nat) : float :=
  fsum (tabulate n (fun k => fmul (at2 a k i) (at2 b k j))).

Definition dot_rows (n : nat) (a b : farray) (i j : nat) : float :=
  fsum (tabulate n (fun k => fmul (at2 a i k) (at2 b j k))).

Definition col_sum (n : nat) (a : farray) (j : nat) : float :=
  fsum (tabulate n (fun k => at2 a k j)).

(* ================================================================== *)
(** * The two-layer network in the heap *)

(** Where the objects of a network are: the three layers, the four
    parameters and the arrays that hold their values. *)
Record net_layout := {
  fc0 : loc; relu1 : loc; fc2 : loc;
  pW0 : loc; pB0 : loc; pW2 : loc; pB2 : loc;
  aW0 : loc; aB0 : loc; aW2 : loc; aB2 : loc
}.

(** The values of the four parameters. *)
Record net_values := {
  vW0 : farray; vB0 : farray; vW2 : farray; vB2 : farray
}.

(** The network [net] as [TwoLayerNet.__init__] builds it: a fully
    connected layer, a ReLU and a fully connected layer, each layer and
    each parameter an object of its own, with weights of
    [n_input x hidden] and [hidden x n_output] entries.  The gradient
    fields and the cached inputs are arbitrary. *)
Definition net_in_heap (h : heap) (net : TwoLayerNet.t) (L : net_layout)
    (V : net_values) (n_input hidden n_output : nat) : Prop :=
  TwoLayerNet.layers net = [fc0 L; relu1 L; fc2 L] /\
  fc0 L <> fc2 L /\
  NoDup [pW0 L; pB0 L; pW2 L; pB2 L] /\
  (exists X, h !! fc0 L = Some (OFC (pW0 L) (pB0 L) X)) /\
  (exists X, h !! relu1 L = Some (OReLU X)) /\
  (exists X, h !! fc2 L = Some (OFC (pW2 L) (pB2 L) X)) /\
  (exists g, h !! pW0 L = Some (OParam (aW0 L) g)) /\
  (exists g, h !! pB0 L = Some (OParam (aB0 L) g)) /\
  (exists g, h !! pW2 L = Some (OParam (aW2 L) g)) /\
  (exists g, h !! pB2 L = Some (OParam (aB2 L) g)) /\
  h !! aW0 L = Some (ONd (vW0 V)) /\ h !! aB0 L = Some (ONd (vB0 V)) /\
  h !! aW2 L = Some (ONd (vW2 V)) /\ h !! aB2 L = Some (ONd (vB2 V)) /\
  has_shape (vW0 V) n_input hidden /\ has_shape (vB0 V) 1 hidden /\
  has_shape (vW2 V) hidden n_output /\ has_shape (vB2 V) 1 n_output.

(** The gradient array of the parameter object [p] holds [g]. *)
Definition grad_is (h : heap) (p : loc) (g : farray) : Prop :=
  exists v gl, h !! p = Some (OParam v gl) /\ h !! gl = Some (ONd g).

(** The cross-entropy loss of the probabilities [sm] against the classes
    [y]. *)
Definition ce_loss (sm : farray) (y : list Z) : float :=
  fneg (fdiv (fsum (map flog (target_probs sm y))) (of_nat (length y))).

(** The L2 loss and gradient of a weight array. *)
Definition l2_loss (reg : float) (w : farray) : float :=
  fmul reg (fsum (map (fun x => fmul x x) (ravel w))).

Definition l2_grad (reg : float) (w : farray) : farray :=
  nd_map (fmul (fmul (Fin 2) reg)) w.

(** What one call of [compute_loss_and_gradients] computes from the
    input [x], the classes [y] and the parameter values: the activations
    [a0] and [out] of the forward pass, the gradient [g] of the loss, the
    gradients [d1] and [d0] handed down by the layers, the loss and the
    four parameter gradients. *)
Record net_trace := {
  t_a0 : farray; t_out : farray; t_g : farray; t_d1 : farray; t_d0 : farray;
  t_dx : farray;
  t_loss : float;
  t_gW0 : farray; t_gB0 : farray; t_gW2 : farray; t_gB2 : farray
}.

Definition net_outcome (reg : float) (x : farray) (y : list Z)
    (V : net_values) (T : net_trace) : Prop :=
  fc_forward_nd x (vW0 V) (vB0 V) = Some (t_a0 T) /\
  fc_forward_nd (relu_forward_nd (t_a0 T)) (vW2 V) (vB2 V) = Some (t_out T) /\
  swce_gradient (softmax_nd (t_out T)) (t_g T) y /\
  (exists r2,
      nd_ibinop fadd (nd_zeros_like (vW2 V)) (l2_grad reg (vW2 V)) = Some r2 /\
      fc_backward_dW (relu_forward_nd (t_a0 T)) (t_g T) r2 = Some (t_gW2 T)) /\
  fc_backward_dB (t_g T) (nd_zeros_like (vB2 V)) = Some (t_gB2 T) /\
  fc_backward_dX (t_g T) (vW2 V) = Some (t_d1 T) /\
  relu_backward_nd (t_a0 T) (t_d1 T) = Some (t_d0 T) /\
  (exists r0,
      nd_ibinop fadd (nd_zeros_like (vW0 V)) (l2_grad reg (vW0 V)) = Some r0 /\
      fc_backward_dW x (t_d0 T) r0 = Some (t_gW0 T)) /\
  fc_backward_dB (t_d0 T) (nd_zeros_like (vB0 V)) = Some (t_gB0 T) /\
  fc_backward_dX (t_d0 T) (vW0 V) = Some (t_dx T) /\
  t_loss T = fadd (fadd (ce_loss (softmax_nd (t_out T)) y)
                        (l2_loss reg (vW2 V)))
                  (l2_loss reg (vW0 V)).

(** After a call that started in [h0], the gradient field of the
    parameter object [p] names an array allocated during the call, and the
    array holds [g]. *)
Definition grad_after (h0 h : heap) (p : loc) (g : farray) : Prop :=
  exists v gl, h !! p = Some (OParam v gl) /\ h !! gl = Some (ONd g) /\
               length h0 <= gl.

(** The gradients of a trace, entry by entry: each weight gradient is the
    zeroed array, plus the L2 term, plus what [backward] accumulates; a
    bias gradient has no L2 term. *)
Definition net_gradients (reg : float) (x : farray) (V : net_values)
    (T : net_trace) (batch n_in hid n_out : nat) : Prop :=
  (forall i j, i < hid -> j < n_out ->
     at2 (t_gW2 T) i j =
       fadd (fadd (Fin 0) (fmul (fmul (Fin 2) reg) (at2 (vW2 V) i j)))
            (dot_cols batch (relu_forward_nd (t_a0 T)) (t_g T) i j)) /\
  (forall j, j < n_out ->
     at2 (t_gB2 T) 0 j = fadd (Fin 0) (col_sum batch (t_g T) j)) /\
  (forall i j, i < batch -> j < hid ->
     at2 (t_d1 T) i j = dot_rows n_out (t_g T) (vW2 V) i j) /\
  relu_gradient (t_a0 T) (t_d1 T) (t_d0 T) /\
  (forall i j, i < n_in -> j < hid ->
     at2 (t_gW0 T) i j =
       fadd (fadd (Fin 0) (fmul (fmul (Fin 2) reg) (at2 (vW0 V) i j)))
            (dot_cols batch x (t_d0 T) i j)) /\
  (forall j, j < hid ->
     at2 (t_gB0 T) 0 j = fadd (Fin 0) (col_sum batch (t_d0 T) j)).

(** The array that the gradient field of the parameter object [p] names
    in [h], if there is one. *)
Definition param_grad_value (h : heap) (p : loc) : option farray :=
  match h !! p with
  | Some (OParam _ g) =>
      match h !! g with
      | Some (ONd a) => Some a
      | _ => None
      end
  | _ => None
  end.

(** A small network in a heap: one input, one hidden unit, two classes. *)
Definition example_layout : net_layout :=
  {| fc0 := 9; relu1 := 10; fc2 := 11;
     pW0 := 5; pB0 := 6; pW2 := 7; pB2 := 8;
     aW0 := 0; aB0 := 1; aW2 := 2; aB2 := 3 |}.

Definition example_values : net_values :=
  {| vW0 := Arr2 1 [[Fin 1]]; vB0 := Arr2 1 [[Fin 0]];
     vW2 := Arr2 2 [[Fin 1; Fin 0]]; vB2 := Arr2 2 [[Fin 0; Fin 0]] |}.

Definition example_net : TwoLayerNet.t :=
  {| TwoLayerNet.reg := Fin 1; TwoLayerNet.layers := [9; 10; 11] |}.

Definition example_heap : heap :=
  [ONd (Arr2 1 [[Fin 1]]); ONd (Arr2 1 [[Fin 0]]);
   ONd (Arr2 2 [[Fin 1; Fin 0]]); ONd (Arr2 2 [[Fin 0; Fin 0]]);
   ONd (Arr2 1 [[Fin 5]]);
   OParam 0 4; OParam 1 4; OParam 2 4; OParam 3 4;
   OFC 5 6 None; OReLU None; OFC 7 8 None;
   ONd (Arr2 1 [[Fin 1]])].

(* ================================================================== *)
(** * The training loop of the linear classifier, on values *)

(** The batches of one epoch, as [fit] cuts them from the shuffled
    indices. *)
Definition epoch_batches (rng : RandomState) (num_train : nat)
    (batch_size : Z) (epoch : nat) : option (list (list Z)) :=
  sections ← nd_arange3 batch_size (Z.of_nat num_train) batch_size;
  Some (array_split (shuffle rng epoch (nd_arange num_train)) sections).

(** One batch of [fit], on values: from the weights [w] the batch [idx]
    gives the loss [loss] and the weights [w']. *)
Definition batch_update (x : farray) (y : list Z) (learning_rate reg : float)
    (idx : list Z) (w : farray) (loss : float) (w' : farray) : Prop :=
  exists batch_X batch_y predictions dprediction dW1 dW,
    getitem_rows x idx = Some batch_X /\ getitem1 y idx = Some batch_y /\
    nd_dot batch_X w = Some predictions /\
    swce_gradient (softmax_nd predictions) dprediction batch_y /\
    nd_dot (nd_transpose batch_X) dprediction = Some dW1 /\
    nd_binop fadd dW1 (l2_grad reg w) = Some dW /\
    nd_ibinop fsub w (nd_map (fmul learning_rate) dW) = Some w' /\
    loss = fadd (ce_loss (softmax_nd predictions) batch_y) (l2_loss reg w).

(** The batches of one epoch, one after the other. *)
Inductive epoch_updates (x : farray) (y : list Z) (learning_rate reg : float)
  : list (list Z) -> farray -> list float -> farray -> Prop :=
| epoch_done w : epoch_updates x y learning_rate reg [] w [] w
| epoch_batch idx rest w loss w1 losses w' :
    batch_update x y learning_rate reg idx w loss w1 ->
    epoch_updates x y learning_rate reg rest w1 losses w' ->
    epoch_updates x y learning_rate reg (idx :: rest) w (loss :: losses) w'.

(** The epochs of one call of [fit], one after the other: each epoch adds
    the mean of the losses of its batches to the history. *)
Inductive fit_epochs (rng : RandomState) (x : farray) (y : list Z)
    (batch_size : Z) (learning_rate reg : float)
  : list nat -> farray -> list float -> farray -> Prop :=
| fit_done w : fit_epochs rng x y batch_size learning_rate reg [] w [] w
| fit_one k ks w batches losses w1 history w' :
    epoch_batches rng (fst (shape2 x)) batch_size k = Some batches ->
    epoch_updates x y learning_rate reg batches w losses w1 ->
    fit_epochs rng x y batch_size learning_rate reg ks w1 history w' ->
    fit_epochs rng x y batch_size learning_rate reg (k :: ks) w
      (fdiv (fsum losses) (of_nat (length losses)) :: history) w'.

(** The weights a call of [fit] starts from: the array that [self.W]
    names, or, when there is none yet, the scaled random array with one
    row per feature and [max(y) + 1] columns. *)
Definition initial_weights (rng : RandomState) (h : heap) (W : option loc)
    (num_features : nat) (y : list Z) : option farray :=
  match W with
  | Some w => match h !! w with Some (ONd a) => Some a | _ => None end
  | None =>
      m ← LinearSoftmaxClassifier.max_int y;
      if (m + 1 <? 0)%Z then None
      else Some (nd_map (fmul (Fin (1 / 1000)))
                   (randn rng num_features (Z.to_nat (m + 1))))
  end.

(** A generator for the examples: [randn] gives ones and [shuffle] leaves
    the order as it is. *)
Definition example_rng : RandomState :=
  {| randn := fun r c => Arr2 c (repeat (repeat (Fin 1) c) r);
     shuffle := fun _ l => l |}.

(** A classifier without weights yet, and three samples of one feature. *)
Definition example_fit_heap : heap :=
  [OLinear None; ONd (Arr2 1 [[Fin 1]; [Fin 2]; [Fin 3]])].

(* ================================================================== *)
(** * Predictions, constructors and parameter names, on values *)

(** [k] is the position [np.argmax] gives for the row: the first NaN
    when there is one, and otherwise the first position of the largest
    entry. *)
Definition is_argmax (row : list float) (k : nat) : Prop :=
  k < length row /\
  (forall j, j < k -> is_nan (nth j row NaN) = false) /\
  (is_nan (nth k row NaN) = false ->
   (forall j, j < length row -> float_le (nth j row NaN) (nth k row NaN)) /\
   (forall j, j < k -> float_lt (nth j row NaN) (nth k row NaN))).

(** Row [i] of an array; a vector is its own single row. *)
Definition nd_row (a : farray) (i : nat) : list float :=
  match a with
  | Arr1 v => v
  | Arr2 _ rows => nth i rows []
  end.

(** The parameter values [TwoLayerNet.__init__] starts from: the arrays
    of [np.random.randn], scaled by 0.001. *)
Definition init_values (n_input n_output hidden_layer_size : nat)
    (randn : nat -> nat -> nat -> farray) : net_values :=
  {| vW0 := nd_map (fmul (Fin (1 / 1000))) (randn 0 n_input hidden_layer_size);
     vB0 := nd_map (fmul (Fin (1 / 1000))) (randn 1 1 hidden_layer_size);
     vW2 := nd_map (fmul (Fin (1 / 1000))) (randn 2 hidden_layer_size n_output);
     vB2 := nd_map (fmul (Fin (1 / 1000))) (randn 3 1 n_output) |}.

(** The class a true-class index names when it counts from the end. *)
Definition wrap_index (C : nat) (k : Z) : Z :=
  if (k <? 0)%Z then (k + Z.of_nat C)%Z else k.

(** The entries [params] collects from the layer with number [i]. *)
Definition layer_entries (h : heap) (i : nat) (layer : loc) : dict loc :=
  match h !! layer with
  | Some (OFC W B _) =>
      [(("W" ++ "_" ++ str i)%string, W); (("B" ++ "_" ++ str i)%string, B)]
  | _ => []
  end.

(** Every key is [W_j] or [B_j] for a layer number [j] below [k]. *)
Definition keys_below (k : nat) (d : dict loc) : Prop :=
  forall key v, In (key, v) d ->
    exists j, j < k /\
      (key = ("W" ++ "_" ++ str j)%string \/ key = ("B" ++ "_" ++ str j)%string).

(** [np.random.randn] for the examples: arrays of ones. *)
Definition example_randn (k r c : nat) : farray :=
  Arr2 c (repeat (repeat (Fin 1) c) r).

(** A fully connected layer of two inputs and one output with its two
    parameters, the batch it has seen and a gradient for its output. *)
Definition example_layer_heap : heap :=
  [OFC 1 2 (Some 3); OParam 4 5; OParam 6 7;
   ONd (Arr2 2 [[Fin 1; Fin 2]]); ONd (Arr2 1 [[Fin 3]; [Fin 4]]);
   ONd (Arr2 1 [[Fin 0]; [Fin 0]]); ONd (Arr2 1 [[Fin 5]]);
   ONd (Arr2 1 [[Fin 0]]); ONd (Arr2 1 [[Fin 7]])].

(** A classifier with weights for one feature and two classes, and two
    samples. *)
Definition example_classifier_heap : heap :=
  [OLinear (Some 1); ONd (Arr2 2 [[Fin 1; Fin 0]]);
   ONd (Arr2 1 [[Fin 1]; [Fin 2]])].



(* ================================================================== *)
(** * float64 where IEEE 754 fixes it

    A numpy [float64] is a binary64 number.  Sums, differences and
    quotients are the correctly rounded operations of the primitive
    floats.  [np.exp] is the exponential of the platform's C library and
    not an operation of IEEE 754; it is given at the two arguments that
    occur below: [exp 0] is 1, and [exp (-1)] is 0.36787944117144233, the
    binary64 number next to 1/e.  [np.sum] adds a vector of fewer than
    eight entries from left to right. *)

Module Binary64.
Import PrimFloat.
Local Open Scope float_scope.

Definition exp (x : PrimFloat.float) : option PrimFloat.float :=
  if x =? 0 then Some 1
  else if x =? -1 then Some 0x1.78b56362cef38p-2
  else None.

(** [np.maximum]: a NaN operand is the result. *)
Definition maximum (x y : PrimFloat.float) : PrimFloat.float :=
  if negb (x =? x) then x
  else if negb (y =? y) then y
  else if x <? y then y else x.

Definition max (l : list PrimFloat.float) : option PrimFloat.float :=
  match l with
  | [] => None
  | x :: l' => Some (fold_left maximum l' x)
  end.

Definition sum (l : list PrimFloat.float) : option PrimFloat.float :=
  if Nat.ltb (length l) 8 then Some (fold_left add l 0) else None.

(** [softmax] on a vector of scores. *)
Definition softmax (predictions : list PrimFloat.float)
  : option (list PrimFloat.float) :=
  max_pred_in_row ← max predictions;
  let pred_norm := map (fun p => p - max_pred_in_row) predictions in
  pred_exp ← mapM exp pred_norm;
  sum_pred_exp ← sum pred_exp;
  let probs := map (fun e => e / sum_pred_exp) pred_exp in
  Some probs.




End Binary64.
(* ================================================================== *)
(** * Reasoning about heap computations *)

Section WP.
Context {A B : Type}.
Implicit Types (h : heap) (l : loc).

Lemma wp_ret (a : A) h Q : Q a h -> wp (ret a) h Q.
Proof. intros HQ. exists a, h. split; [reflexivity | exact HQ]. Qed.

Lemma wp_bind (m : M A) (k : A -> M B) h Q :
  wp m h (fun a h1 => wp (k a) h1 Q) -> wp (bind m k) h Q.
Proof.
  intros (a & h1 & Hm & (b & h2 & Hk & HQ)).
  exists b, h2. split; [| exact HQ].
  unfold bind. rewrite Hm. exact Hk.
Qed.

Lemma wp_mono (m : M A) h (Q Q' : A -> heap -> Prop) :
  wp m h Q -> (forall a h', Q a h' -> Q' a h') -> wp m h Q'.
Proof. intros (a & h' & Hm & HQ) Himp. exists a, h'. auto. Qed.

Lemma wp_lift (o : option A) (a : A) h Q :
  o = Some a -> Q a h -> wp (lift o) h Q.
Proof. intros -> HQ. exists a, h. split; [reflexivity | exact HQ]. Qed.

Lemma wp_run (m : M A) h Q a h' : m h = Some (a, h') -> Q a h' -> wp m h Q.
Proof. intros Hm HQ. exists a, h'. auto. Qed.

Lemma bind_Some (m : M A) (k : A -> M B) h r :
  bind m k h = Some r ->
  exists a h1, m h = Some (a, h1) /\ k a h1 = Some r.
Proof.
  unfold bind. destruct (m h) as [[a h1] |]; [| discriminate].
  intros Hk. exists a, h1. auto.
Qed.

Lemma lift_Some (o : option A) h r :
  lift o h = Some r -> o = Some (fst r) /\ snd r = h.
Proof.
  unfold lift. destruct o; [| discriminate].
  intros [= <-]. auto.
Qed.
End WP.

Lemma heap_le_refl h : heap_le h h.
Proof. intros l o H. exact H. Qed.

Lemma heap_le_trans h1 h2 h3 : heap_le h1 h2 -> heap_le h2 h3 -> heap_le h1 h3.
Proof. intros H12 H23 l o H. apply H23, H12, H. Qed.

Lemma heap_le_alloc h o : heap_le h (h ++ [o]).
Proof. intros l x H. apply lookup_app_l_Some. exact H. Qed.

Lemma heap_le_length h h' : heap_le h h' -> length h <= length h'.
Proof.
  intros Hle. destruct (decide (length h = 0)) as [-> | Hn]; [lia |].
  destruct (lookup_lt_is_Some_2 h (length h - 1)) as [o Ho]; [lia |].
  apply Hle, lookup_lt_Some in Ho. lia.
Qed.

Lemma lookup_alloc_new (h : heap) o : (h ++ [o]) !! length h = Some o.
Proof. apply list_lookup_middle. reflexivity. Qed.

Lemma lookup_alloc_old (h : heap) o l x :
  h !! l = Some x -> (h ++ [o]) !! l = Some x.
Proof. apply lookup_app_l_Some. Qed.

Lemma lookup_store_same (h : heap) l o x :
  h !! l = Some x -> <[l := o]> h !! l = Some o.
Proof. intros H. apply list_lookup_insert_eq. eapply lookup_lt_Some, H. Qed.

Lemma lookup_store_other (h : heap) l l' o x :
  l <> l' -> h !! l' = Some x -> <[l := o]> h !! l' = Some x.
Proof. intros Hne H. rewrite list_lookup_insert_ne; assumption. Qed.

Lemma heap_le_store_fresh (h0 h : heap) l o :
  heap_le h0 h -> length h0 <= l -> heap_le h0 (<[l := o]> h).
Proof.
  intros Hle Hl k x Hk. rewrite list_lookup_insert_ne.
  - apply Hle, Hk.
  - apply lookup_lt_Some in Hk. lia.
Qed.

Lemma heap_le_kind_store (P : obj -> Prop) (h : heap) l o o' :
  h !! l = Some o' -> P o' -> heap_le_kind P h (<[l := o]> h).
Proof.
  intros Hl HP k x Hx Hk. rewrite list_lookup_insert_ne; [exact Hk |].
  intros ->. rewrite Hl in Hk. injection Hk as <-. contradiction.
Qed.

Lemma heap_le_kind_of_le (P : obj -> Prop) (h h' : heap) :
  heap_le h h' -> heap_le_kind P h h'.
Proof. intros Hle l o _. apply Hle. Qed.

Lemma heap_le_kind_trans (P : obj -> Prop) (h1 h2 h3 : heap) :
  heap_le_kind P h1 h2 -> heap_le_kind P h2 h3 -> heap_le_kind P h1 h3.
Proof. intros H12 H23 l o Hk Hl. apply H23, H12; assumption. Qed.

(** ** The primitive heap operations *)

Section Primitives.
Implicit Types (h : heap) (l : loc) (x y : farray).

Lemma load_run h l o : h !! l = Some o -> load l h = Some (o, h).
Proof. intros H. unfold load. rewrite H. reflexivity. Qed.

Lemma load_nd_run h l x : h !! l = Some (ONd x) -> load_nd l h = Some (x, h).
Proof. intros H. unfold load_nd, bind. rewrite (load_run _ _ _ H). reflexivity. Qed.

Lemma store_run h l o o' : h !! l = Some o' -> store l o h = Some (tt, <[l := o]> h).
Proof. intros H. unfold store. rewrite H. reflexivity. Qed.

Lemma store_nd_run h l x r :
  h !! l = Some (ONd x) -> store_nd l r h = Some (tt, <[l := ONd r]> h).
Proof.
  intros H. unfold store_nd, bind. rewrite (load_nd_run _ _ _ H).
  apply (store_run _ _ _ _ H).
Qed.

Lemma unary_run f h l x r :
  h !! l = Some (ONd x) -> f x = Some r ->
  np.unary f l h = Some (length h, h ++ [ONd r]).
Proof.
  intros H Hf. unfold np.unary, bind. rewrite (load_nd_run _ _ _ H).
  unfold lift. rewrite Hf. reflexivity.
Qed.

Lemma binary_run f h l1 l2 x y r :
  h !! l1 = Some (ONd x) -> h !! l2 = Some (ONd y) -> f x y = Some r ->
  np.binary f l1 l2 h = Some (length h, h ++ [ONd r]).
Proof.
  intros H1 H2 Hf. unfold np.binary, bind.
  rewrite (load_nd_run _ _ _ H1), (load_nd_run _ _ _ H2).
  unfold lift. rewrite Hf. reflexivity.
Qed.

Lemma inplace_run f h l x r :
  h !! l = Some (ONd x) -> f x = Some r ->
  np.inplace f l h = Some (tt, <[l := ONd r]> h).
Proof.
  intros H Hf. unfold np.inplace, bind. rewrite (load_nd_run _ _ _ H).
  unfold lift. rewrite Hf. apply (store_nd_run _ _ _ _ H).
Qed.

Lemma inplace2_run f h l1 l2 x y r :
  h !! l1 = Some (ONd x) -> h !! l2 = Some (ONd y) -> f x y = Some r ->
  np.inplace2 f l1 l2 h = Some (tt, <[l1 := ONd r]> h).
Proof.
  intros H1 H2 Hf. unfold np.inplace2, bind.
  rewrite (load_nd_run _ _ _ H1), (load_nd_run _ _ _ H2).
  unfold lift. rewrite Hf. apply (store_nd_run _ _ _ _ H1).
Qed.

Lemma reduce_run {A} (g : farray -> A) h l x :
  h !! l = Some (ONd x) ->
  (y <- load_nd l ;; ret (g y)) h = Some (g x, h).
Proof. intros H. unfold bind. rewrite (load_nd_run _ _ _ H). reflexivity. Qed.

(** What a run that returned must have done. *)

Lemma load_Some h l res :
  load l h = Some res -> h !! l = Some (fst res) /\ snd res = h.
Proof.
  unfold load. destruct (h !! l); [| discriminate]. intros [= <-]. auto.
Qed.

Lemma load_nd_Some h l res :
  load_nd l h = Some res -> h !! l = Some (ONd (fst res)) /\ snd res = h.
Proof.
  unfold load_nd. intros H. apply bind_Some in H as (o & h1 & Hl & Hk).
  apply load_Some in Hl as [Hl <-]. simpl in *.
  destruct o; try discriminate. injection Hk as <-. auto.
Qed.

Lemma store_Some h l o res :
  store l o h = Some res -> l < length h /\ snd res = <[l := o]> h.
Proof.
  unfold store. destruct (h !! l) eqn:E; [| discriminate].
  intros [= <-]. split; [eapply lookup_lt_Some, E | reflexivity].
Qed.

Lemma store_nd_Some h l x res :
  store_nd l x h = Some res -> l < length h /\ snd res = <[l := ONd x]> h.
Proof.
  unfold store_nd. intros H. apply bind_Some in H as (o & h1 & Hl & Hk).
  apply load_nd_Some in Hl as [_ Hl]. simpl in Hl. subst h1.
  apply store_Some in Hk. exact Hk.
Qed.

Lemma unary_Some f h l res :
  np.unary f l h = Some res ->
  exists x r, h !! l = Some (ONd x) /\ f x = Some r /\
              res = (length h, h ++ [ONd r]).
Proof.
  unfold np.unary. intros H.
  apply bind_Some in H as (x & h1 & Hl & H).
  apply load_nd_Some in Hl as [Hl Hh]. simpl in *. subst h1.
  apply bind_Some in H as (r & h2 & Hf & H).
  apply lift_Some in Hf as [Hf Hh]. simpl in *. subst h2.
  exists x, r. injection H as <-. auto.
Qed.

Lemma binary_Some f h l1 l2 res :
  np.binary f l1 l2 h = Some res ->
  exists x y r, h !! l1 = Some (ONd x) /\ h !! l2 = Some (ONd y) /\
                f x y = Some r /\ res = (length h, h ++ [ONd r]).
Proof.
  unfold np.binary. intros H.
  apply bind_Some in H as (x & h1 & Hl & H).
  apply load_nd_Some in Hl as [Hl Hh]. simpl in *. subst h1.
  apply bind_Some in H as (y & h1 & Hl2 & H).
  apply load_nd_Some in Hl2 as [Hl2 Hh]. simpl in *. subst h1.
  apply bind_Some in H as (r & h2 & Hf & H).
  apply lift_Some in Hf as [Hf Hh]. simpl in *. subst h2.
  exists x, y, r. injection H as <-. auto.
Qed.

Lemma inplace_Some f h l res :
  np.inplace f l h = Some res ->
  exists x r, h !! l = Some (ONd x) /\ f x = Some r /\
              res = (tt, <[l := ONd r]> h).
Proof.
  unfold np.inplace. intros H.
  apply bind_Some in H as (x & h1 & Hl & H).
  apply load_nd_Some in Hl as [Hl Hh]. simpl in *. subst h1.
  apply bind_Some in H as (r & h2 & Hf & H).
  apply lift_Some in Hf as [Hf Hh]. simpl in *. subst h2.
  exists x, r. rewrite (store_nd_run _ _ _ _ Hl) in H. injection H as <-. auto.
Qed.

Lemma inplace2_Some f h l1 l2 res :
  np.inplace2 f l1 l2 h = Some res ->
  exists x y r, h !! l1 = Some (ONd x) /\ h !! l2 = Some (ONd y) /\
                f x y = Some r /\ res = (tt, <[l1 := ONd r]> h).
Proof.
  unfold np.inplace2. intros H.
  apply bind_Some in H as (x & h1 & Hl & H).
  apply load_nd_Some in Hl as [Hl Hh]. simpl in *. subst h1.
  apply bind_Some in H as (y & h1 & Hl2 & H).
  apply load_nd_Some in Hl2 as [Hl2 Hh]. simpl in *. subst h1.
  apply bind_Some in H as (r & h2 & Hf & H).
  apply lift_Some in Hf as [Hf Hh]. simpl in *. subst h2.
  exists x, y, r. rewrite (store_nd_run _ _ _ _ Hl) in H. injection H as <-. auto.
Qed.
End Primitives.

(** ** Stepping through a computation *)

Section WPPrimitives.
Implicit Types (h : heap) (l : loc) (x y : farray).

Lemma wp_load h l o Q : h !! l = Some o -> Q o h -> wp (load l) h Q.
Proof. intros H HQ. eapply wp_run; [apply load_run, H | exact HQ]. Qed.

Lemma wp_load_nd h l x Q : h !! l = Some (ONd x) -> Q x h -> wp (load_nd l) h Q.
Proof. intros H HQ. eapply wp_run; [apply load_nd_run, H | exact HQ]. Qed.

Lemma wp_alloc h o Q : Q (length h) (h ++ [o]) -> wp (alloc o) h Q.
Proof. intros HQ. eapply wp_run; [reflexivity | exact HQ]. Qed.

Lemma wp_store h l o o' Q :
  h !! l = Some o' -> Q tt (<[l := o]> h) -> wp (store l o) h Q.
Proof. intros H HQ. eapply wp_run; [eapply store_run, H | exact HQ]. Qed.

Lemma wp_unary f h l x r Q :
  h !! l = Some (ONd x) -> f x = Some r ->
  Q (length h) (h ++ [ONd r]) -> wp (np.unary f l) h Q.
Proof. intros H Hf HQ. eapply wp_run; [eapply unary_run; eassumption | exact HQ]. Qed.

Lemma wp_binary f h l1 l2 x y r Q :
  h !! l1 = Some (ONd x) -> h !! l2 = Some (ONd y) -> f x y = Some r ->
  Q (length h) (h ++ [ONd r]) -> wp (np.binary f l1 l2) h Q.
Proof.
  intros H1 H2 Hf HQ. eapply wp_run; [eapply binary_run; eassumption | exact HQ].
Qed.

Lemma wp_inplace f h l x r Q :
  h !! l = Some (ONd x) -> f x = Some r ->
  Q tt (<[l := ONd r]> h) -> wp (np.inplace f l) h Q.
Proof. intros H Hf HQ. eapply wp_run; [eapply inplace_run; eassumption | exact HQ]. Qed.

Lemma wp_inplace2 f h l1 l2 x y r Q :
  h !! l1 = Some (ONd x) -> h !! l2 = Some (ONd y) -> f x y = Some r ->
  Q tt (<[l1 := ONd r]> h) -> wp (np.inplace2 f l1 l2) h Q.
Proof.
  intros H1 H2 Hf HQ. eapply wp_run; [eapply inplace2_run; eassumption | exact HQ].
Qed.

Lemma wp_reduce {A} (g : farray -> A) h l x Q :
  h !! l = Some (ONd x) -> Q (g x) h ->
  wp (y <- load_nd l ;; ret (g y)) h Q.
Proof. intros H HQ. eapply wp_run; [apply reduce_run, H | exact HQ]. Qed.

Lemma wp_max h l x m Q :
  h !! l = Some (ONd x) -> nd_max x = Some m -> Q m h -> wp (np.max l) h Q.
Proof.
  intros H Hm HQ. unfold np.max. apply wp_bind.
  eapply wp_load_nd; [exact H |]. eapply wp_lift; eassumption.
Qed.
End WPPrimitives.

Lemma not_In_cons {A} (x a : A) (l : list A) :
  x <> a -> ~ In x l -> ~ In x (a :: l).
Proof. intros Hne Hl [Heq | Hin]; [congruence | contradiction]. Qed.

Lemma not_In_nil {A} (x : A) : ~ In x [].
Proof. intros []. Qed.

(** Lookups in a heap built from allocations and stores. *)
Ltac heap_lengths :=
  repeat match goal with
         | H : ?h !! ?l = Some _ |- _ =>
             lazymatch goal with
             | _ : l < length h |- _ => fail
             | _ => pose proof (lookup_lt_Some _ _ _ H)
             end
         end;
  repeat match goal with
         | H : heap_le ?h ?h' |- _ =>
             lazymatch goal with
             | _ : length h <= length h' |- _ => fail
             | _ => pose proof (heap_le_length _ _ H)
             end
         | H : heap_le_except _ ?h ?h' |- _ =>
             lazymatch goal with
             | _ : length h <= length h' |- _ => fail
             | _ => pose proof (proj1 H)
             end
         end;
  repeat first [ rewrite length_app in * | rewrite length_insert in * ];
  simpl length in *; lia.

(** Two locations differ: by hypothesis, because they hold objects of
    different kinds, or because one is older than the other. *)
Ltac clear_neqs :=
  repeat match goal with H : _ <> _ |- _ => clear H end.

Ltac loc_neq :=
  first [ assumption | solve [clear_neqs; lia] | congruence | heap_lengths ].

(** Keep the lengths of the heaps among the hypotheses (then [lia]
    settles which location is older). *)
Ltac note_lengths :=
  repeat match goal with
         | H : ?h !! ?l = Some _ |- _ =>
             lazymatch goal with
             | _ : l < length h |- _ => fail
             | _ => pose proof (lookup_lt_Some _ _ _ H)
             end
         | H : heap_le ?h ?h' |- _ =>
             lazymatch goal with
             | _ : length h <= length h' |- _ => fail
             | _ => pose proof (heap_le_length _ _ H)
             end
         | H : heap_le_except _ ?h ?h' |- _ =>
             lazymatch goal with
             | _ : length h <= length h' |- _ => fail
             | _ => pose proof (proj1 H)
             end
         end.

Ltac lookup :=
  first [ eassumption
        | apply lookup_alloc_new
        | apply lookup_alloc_old; lookup
        | eapply lookup_store_same; lookup
        | eapply lookup_store_other; [loc_neq | lookup]
        | match goal with
          | Hle : heap_le _ ?h |- ?h !! _ = Some _ => apply Hle; lookup
          | Hk : heap_le_kind _ _ ?h |- ?h !! _ = Some _ =>
              apply Hk; [solve [intros []] | lookup]
          | Hex : heap_le_except _ _ ?h |- ?h !! _ = Some _ =>
              apply (proj2 Hex);
              [ repeat (apply not_In_cons; [loc_neq |]); apply not_In_nil
              | lookup ]
          end ].

Ltac wp_step :=
  lazymatch goal with
  | |- wp (bind _ _) _ _ => apply wp_bind
  | |- wp (ret _) _ _ => apply wp_ret
  | |- wp (lift _) _ _ => eapply wp_lift
  | |- wp (alloc _) _ _ => apply wp_alloc
  | |- wp (new_nd _) _ _ => apply wp_alloc
  | |- wp (load _) _ _ => eapply wp_load; [lookup |]
  | |- wp (load_nd _) _ _ => eapply wp_load_nd; [lookup |]
  | |- wp (store _ _) _ _ => eapply wp_store; [lookup |]
  | |- wp (np.ndim _) _ _ => eapply wp_reduce; [lookup |]
  | |- wp (np.size _) _ _ => eapply wp_reduce; [lookup |]
  | |- wp (np.sum _) _ _ => eapply wp_reduce; [lookup |]
  | |- wp (np.mean _) _ _ => eapply wp_reduce; [lookup |]
  | |- wp (np.max _) _ _ => eapply wp_max; [lookup | |]
  | |- wp (np.sub _ (Scalar _)) _ _ => eapply wp_unary; [lookup | |]
  | |- wp (np.div _ (Scalar _)) _ _ => eapply wp_unary; [lookup | |]
  | |- wp (np.sub _ (Array _)) _ _ => eapply wp_binary; [lookup | lookup | |]
  | |- wp (np.div _ (Array _)) _ _ => eapply wp_binary; [lookup | lookup | |]
  | |- wp (np.dot _ _) _ _ => eapply wp_binary; [lookup | lookup | |]
  | |- wp (np.add _ _) _ _ => eapply wp_binary; [lookup | lookup | |]
  | |- wp (np.binary _ _ _) _ _ => eapply wp_binary; [lookup | lookup | |]
  | |- wp (np.iadd _ _) _ _ => eapply wp_inplace2; [lookup | lookup | |]
  | |- wp (np.isub _ _) _ _ => eapply wp_inplace2; [lookup | lookup | |]
  | |- wp (np.setitem _ _ _) _ _ => eapply wp_inplace2; [lookup | lookup | |]
  | |- wp (np.setitem_pair _ _ _ _) _ _ => eapply wp_inplace2; [lookup | lookup | |]
  | |- wp (np.setitem_lt _ _ _ _) _ _ => eapply wp_inplace2; [lookup | lookup | |]
  | |- wp (np.inplace2 _ _ _) _ _ => eapply wp_inplace2; [lookup | lookup | |]
  | |- wp (np.isub_scalar _ _) _ _ => eapply wp_inplace; [lookup | |]
  | |- wp (np.idiv_scalar _ _) _ _ => eapply wp_inplace; [lookup | |]
  | |- wp (np.inplace _ _) _ _ => eapply wp_inplace; [lookup | |]
  | |- wp (_ _) _ _ => eapply wp_unary; [lookup | |]
  end; cbv beta iota.

(** Step as long as the side conditions are immediate. *)
Ltac wp_side :=
  lazymatch goal with
  | |- wp _ _ _ => idtac
  | |- _ => first [eassumption | reflexivity]
  end.

Ltac wp_go := repeat (wp_step; wp_side); try (apply wp_ret; cbv beta iota).

(** ** Frames: what a computation leaves alone *)

Create HintDb frame.

Section Frames.
Variable h0 : heap.

Lemma preserves_ret {A} (a : A) : preserves h0 (ret a).
Proof. intros h x h' Hle [= <- <-]. exact Hle. Qed.

Lemma preserves_raise {A} : preserves h0 (@raise A).
Proof. intros h x h' Hle [=]. Qed.

Lemma preserves_lift {A} (o : option A) : preserves h0 (lift o).
Proof.
  intros h x h' Hle H. apply lift_Some in H as [_ H]. simpl in H.
  subst h'. exact Hle.
Qed.

Lemma preserves_bind {A B} (m : M A) (k : A -> M B) :
  preserves h0 m -> (forall a, preserves h0 (k a)) -> preserves h0 (bind m k).
Proof.
  intros Hm Hk h b h' Hle H.
  apply bind_Some in H as (a & h1 & H1 & H2).
  eapply Hk; [| exact H2]. eapply Hm; eassumption.
Qed.

(** The continuation may rely on the freshness of the location bound. *)
Lemma preserves_bind_fresh {B} (m : M loc) (k : loc -> M B) :
  preserves h0 m -> fresh_from h0 m ->
  (forall l, length h0 <= l -> preserves h0 (k l)) ->
  preserves h0 (bind m k).
Proof.
  intros Hm Hf Hk h b h' Hle H.
  apply bind_Some in H as (a & h1 & H1 & H2).
  eapply Hk; [| | exact H2].
  - eapply Hf; eassumption.
  - eapply Hm; eassumption.
Qed.

Lemma preserves_alloc o : preserves h0 (alloc o).
Proof.
  intros h l h' Hle [= <- <-].
  eapply heap_le_trans; [exact Hle | apply heap_le_alloc].
Qed.

Lemma fresh_alloc o : fresh_from h0 (alloc o).
Proof. intros h l h' Hle [= <- <-]. apply heap_le_length, Hle. Qed.

Lemma preserves_load l : preserves h0 (load l).
Proof.
  intros h x h' Hle H. apply load_Some in H as [_ H]. simpl in H.
  subst h'. exact Hle.
Qed.

Lemma preserves_load_nd l : preserves h0 (load_nd l).
Proof.
  intros h x h' Hle H. apply load_nd_Some in H as [_ H]. simpl in H.
  subst h'. exact Hle.
Qed.

Lemma preserves_store l o : length h0 <= l -> preserves h0 (store l o).
Proof.
  intros Hl h x h' Hle H. apply store_Some in H as [_ H]. simpl in H.
  subst h'. apply heap_le_store_fresh; assumption.
Qed.

Lemma preserves_unary f l : preserves h0 (np.unary f l).
Proof.
  intros h x h' Hle H. apply unary_Some in H as (a & r & _ & _ & [= -> ->]).
  eapply heap_le_trans; [exact Hle | apply heap_le_alloc].
Qed.

Lemma fresh_unary f l : fresh_from h0 (np.unary f l).
Proof.
  intros h x h' Hle H. apply unary_Some in H as (a & r & _ & _ & [= -> ->]).
  apply heap_le_length, Hle.
Qed.

Lemma preserves_binary f l1 l2 : preserves h0 (np.binary f l1 l2).
Proof.
  intros h x h' Hle H.
  apply binary_Some in H as (a & b & r & _ & _ & _ & [= -> ->]).
  eapply heap_le_trans; [exact Hle | apply heap_le_alloc].
Qed.

Lemma fresh_binary f l1 l2 : fresh_from h0 (np.binary f l1 l2).
Proof.
  intros h x h' Hle H.
  apply binary_Some in H as (a & b & r & _ & _ & _ & [= -> ->]).
  apply heap_le_length, Hle.
Qed.

Lemma preserves_inplace f l : length h0 <= l -> preserves h0 (np.inplace f l).
Proof.
  intros Hl h x h' Hle H.
  apply inplace_Some in H as (a & r & _ & _ & [= -> ->]).
  apply heap_le_store_fresh; assumption.
Qed.

Lemma preserves_inplace2 f l1 l2 :
  length h0 <= l1 -> preserves h0 (np.inplace2 f l1 l2).
Proof.
  intros Hl h x h' Hle H.
  apply inplace2_Some in H as (a & b & r & _ & _ & _ & [= -> ->]).
  apply heap_le_store_fresh; assumption.
Qed.

(** The location a computation ends on, when what comes before it
    preserves [h0]. *)
Lemma fresh_bind {A} (m : M A) (k : A -> M loc) :
  preserves h0 m -> (forall a, fresh_from h0 (k a)) -> fresh_from h0 (bind m k).
Proof.
  intros Hm Hk h l h' Hle H.
  apply bind_Some in H as (a & h1 & H1 & H2).
  eapply Hk; [| exact H2]. eapply Hm; eassumption.
Qed.

Lemma fresh_bind_ret (m : M loc) :
  fresh_from h0 m -> fresh_from h0 (bind m (fun x => ret x)).
Proof.
  intros Hm h l h' Hle H.
  apply bind_Some in H as (a & h1 & H1 & [= <- <-]).
  eapply Hm; eassumption.
Qed.
End Frames.

#[global] Hint Resolve preserves_ret preserves_raise preserves_lift
  preserves_alloc preserves_load preserves_load_nd preserves_unary
  preserves_binary fresh_unary fresh_binary fresh_alloc fresh_bind_ret
  : frame.
#[global] Hint Extern 2 (preserves _ (bind _ _)) =>
  apply preserves_bind; [| intros ?] : frame.
#[global] Hint Extern 2 (fresh_from _ (bind _ _)) =>
  first [ apply fresh_bind_ret | apply fresh_bind; [| intros ?] ] : frame.
#[global] Hint Extern 3 (preserves _ (if ?b then _ else _)) => destruct b : frame.
#[global] Hint Extern 3 (preserves _ (match ?o with _ => _ end)) => destruct o : frame.
#[global] Hint Extern 1 (preserves _ (np.inplace _ _)) =>
  apply preserves_inplace; lia : frame.
#[global] Hint Extern 1 (preserves _ (np.inplace2 _ _ _)) =>
  apply preserves_inplace2; lia : frame.
#[global] Hint Unfold np.ndim np.size np.exp np.log np.square np.copy
  np.zeros_like np.transpose np.newaxis np.rmul np.maximum np.sum np.mean
  np.max np.sum_axis0 np.sum_axis1 np.max_axis1 np.dot np.add np.sub np.div
  np.iadd np.isub np.isub_scalar np.idiv_scalar np.getitem np.getitem_pair
  np.setitem np.setitem_pair np.setitem_lt : frame.

Ltac frame := autounfold with frame; auto 30 with frame.

Lemma softmax_preserves h0 p : preserves h0 (softmax p).
Proof. unfold softmax. frame. Qed.

Lemma softmax_fresh h0 p : fresh_from h0 (softmax p).
Proof.
  unfold softmax. autounfold with frame.
  repeat first [ apply fresh_bind_ret
               | apply fresh_bind; [solve [frame] | intros ?] ].
  destruct a3; frame.
Qed.

Lemma cross_entropy_loss_preserves h0 p t : preserves h0 (cross_entropy_loss p t).
Proof. unfold cross_entropy_loss. frame. Qed.

#[global] Hint Resolve softmax_preserves softmax_fresh
  cross_entropy_loss_preserves : frame.

Lemma softmax_with_cross_entropy_preserves h0 p t :
  preserves h0 (softmax_with_cross_entropy p t).
Proof.
  unfold softmax_with_cross_entropy.
  apply preserves_bind_fresh; [frame | frame | intros probs Hprobs].
  unfold np.isub_item_pair, np.isub_item.
  do 2 (apply preserves_bind; [frame | intros ?]).
  apply preserves_bind; [| frame].
  destruct (a0 =? 2).
  - apply preserves_bind; [| intros ?; frame].
    apply preserves_bind_fresh; [frame | frame | intros tmp Htmp]. frame.
  - apply preserves_bind_fresh; [frame | frame | intros tmp Htmp]. frame.
Qed.

Lemma softmax_with_cross_entropy_fresh h0 p t h loss d h' :
  heap_le h0 h ->
  softmax_with_cross_entropy p t h = Some ((loss, d), h') -> length h0 <= d.
Proof.
  intros Hle H. unfold softmax_with_cross_entropy in H.
  apply bind_Some in H as (probs & h1 & Hs & H).
  apply softmax_fresh with (h0 := h0) in Hs; [| exact Hle].
  apply bind_Some in H as (l & h2 & _ & H).
  apply bind_Some in H as (n & h3 & _ & H).
  apply bind_Some in H as (u & h4 & _ & [= _ <- _]).
  exact Hs.
Qed.

Lemma ReLULayer_backward_preserves h0 self d_out :
  preserves h0 (ReLULayer.backward self d_out).
Proof.
  unfold ReLULayer.backward, ReLULayer.get_X.
  apply preserves_bind_fresh; [frame | frame | intros d_result Hd]. frame.
Qed.

Lemma ReLULayer_backward_fresh h0 self d_out :
  fresh_from h0 (ReLULayer.backward self d_out).
Proof.
  unfold ReLULayer.backward. intros h l h' Hle H.
  apply bind_Some in H as (d & h1 & Hc & H).
  apply (fresh_unary h0) in Hc; [| exact Hle].
  apply bind_Some in H as (X & h2 & _ & H).
  apply bind_Some in H as (u & h3 & _ & [= <- _]).
  exact Hc.
Qed.

(** C10: [softmax_with_cross_entropy] leaves [predictions] as it was and
    [ReLULayer.backward] leaves [d_out] as it was; the gradient each
    returns is an array allocated during the call, so it is not the
    argument. *)
Theorem gradients_are_fresh_arrays :
  (forall (h : heap) (predictions : loc) (target_index : list Z)
          (loss : float) (dprediction : loc) (h' : heap),
      softmax_with_cross_entropy predictions target_index h
        = Some ((loss, dprediction), h') ->
      h' !! predictions = h !! predictions /\
      dprediction <> predictions /\
      length h <= dprediction /\
      heap_le h h') /\
  (forall (h : heap) (self d_out d_result : loc) (h' : heap),
      ReLULayer.backward self d_out h = Some (d_result, h') ->
      h' !! d_out = h !! d_out /\
      d_result <> d_out /\
      length h <= d_result /\
      heap_le h h').
Proof.
  split.
  - intros h p t loss d h' H.
    assert (Hle : heap_le h h').
    { eapply softmax_with_cross_entropy_preserves; [apply heap_le_refl | exact H]. }
    assert (Hd : length h <= d).
    { eapply softmax_with_cross_entropy_fresh; [apply heap_le_refl | exact H]. }
    assert (Hp : is_Some (h !! p)).
    { unfold softmax_with_cross_entropy in H.
      apply bind_Some in H as (probs & h1 & Hs & _).
      unfold softmax in Hs. apply bind_Some in Hs as (n & h2 & Hn & _).
      unfold np.ndim in Hn. apply bind_Some in Hn as (x & h3 & Hl & _).
      apply load_nd_Some in Hl as [Hl _]. eauto. }
    destruct Hp as [o Ho]. split; [| split; [| split]]; try assumption.
    + rewrite Ho. apply Hle, Ho.
    + apply lookup_lt_Some in Ho. lia.
  - intros h self d_out d h' H.
    assert (Hle : heap_le h h').
    { eapply ReLULayer_backward_preserves; [apply heap_le_refl | exact H]. }
    assert (Hd : length h <= d).
    { eapply ReLULayer_backward_fresh; [apply heap_le_refl | exact H]. }
    assert (Hp : is_Some (h !! d_out)).
    { unfold ReLULayer.backward, np.copy in H.
      apply bind_Some in H as (c & h1 & Hc & H).
      apply unary_Some in Hc as (x & r & Hl & _). eauto. }
    destruct Hp as [o Ho]. split; [| split; [| split]]; try assumption.
    + rewrite Ho. apply Hle, Ho.
    + apply lookup_lt_Some in Ho. lia.
Qed.

(* ================================================================== *)
(** * l2_regularization *)

Lemma ravel_nd_map {A B} (f : A -> B) (a : ndarray A) :
  ravel (nd_map f a) = map f (ravel a).
Proof.
  destruct a as [v | nc rows]; simpl; [reflexivity |].
  induction rows as [| r rows IH]; simpl; [reflexivity |].
  rewrite map_app, IH. reflexivity.
Qed.

(** C8: [l2_regularization(W, reg_strength)] returns the loss
    [reg_strength * sum(W ** 2)] and a fresh array [2 * reg_strength * W],
    and changes no object of the heap. *)
Theorem l2_regularization_spec (h : heap) (W : loc) (w : farray)
    (reg_strength : float) :
  h !! W = Some (ONd w) ->
  exists grad h',
    l2_regularization W reg_strength h =
      Some ((fmul reg_strength (fsum (map (fun x => fmul x x) (ravel w))), grad), h') /\
    h' !! grad = Some (ONd (nd_map (fun x => fmul (fmul (Fin 2) reg_strength) x) w)) /\
    length h <= grad /\
    heap_le h h'.
Proof.
  intros HW.
  unfold l2_regularization, bind.
  unfold np.square. erewrite unary_run by (eassumption || reflexivity).
  unfold np.sum, bind. erewrite load_nd_run by apply lookup_alloc_new.
  cbn [ret].
  unfold np.rmul. erewrite unary_run; [| apply lookup_alloc_old, HW | reflexivity].
  eexists _, _. split; [| split; [| split]].
  - unfold nd_sum. rewrite ravel_nd_map. reflexivity.
  - apply lookup_alloc_new.
  - rewrite length_app. lia.
  - eapply heap_le_trans; apply heap_le_alloc.
Qed.

Lemma l2_regularization_spec_witness :
  exists grad h',
    l2_regularization 0 (Fin 3) [ONd (Arr2 2 [[Fin 1; Fin 2]])] =
      Some ((fmul (Fin 3) (fsum (map (fun x => fmul x x) [Fin 1; Fin 2])), grad), h') /\
    h' !! grad = Some (ONd (nd_map (fun x => fmul (fmul (Fin 2) (Fin 3)) x) (Arr2 2 [[Fin 1; Fin 2]]))) /\
    1 <= grad /\
    heap_le [ONd (Arr2 2 [[Fin 1; Fin 2]])] h'.
Proof.
  apply (l2_regularization_spec [ONd (Arr2 2 [[Fin 1; Fin 2]])] 0 (Arr2 2 [[Fin 1; Fin 2]]) (Fin 3)).
  reflexivity.
Defined.

(* ================================================================== *)
(** * Lists and arrays *)

Lemma nth_zip_with {A B C} (f : A -> B -> C) l1 l2 i da db dc :
  i < length l1 -> i < length l2 ->
  nth i (zip_with f l1 l2) dc = f (nth i l1 da) (nth i l2 db).
Proof.
  revert l2 i. induction l1 as [| a l1 IH]; intros [| b l2] i H1 H2;
    simpl in *; try lia.
  destruct i as [| i]; [reflexivity |]. apply IH; lia.
Qed.

Lemma length_zip_with_same {A B C} (f : A -> B -> C) l1 l2 :
  length l1 = length l2 -> length (zip_with f l1 l2) = length l1.
Proof.
  revert l2. induction l1 as [| a l1 IH]; intros [| b l2] H; simpl in *;
    try lia. rewrite IH; lia.
Qed.

Lemma wf_array_row {A} nc (rows : list (list A)) i :
  wf_array (Arr2 nc rows) = true -> i < length rows ->
  length (nth i rows []) = nc.
Proof.
  simpl. intros Hwf Hi. rewrite forallb_forall in Hwf.
  apply Nat.eqb_eq, Hwf, nth_In, Hi.
Qed.

Lemma wf_array_intro {A} nc (rows : list (list A)) :
  (forall r, In r rows -> length r = nc) -> wf_array (Arr2 nc rows) = true.
Proof.
  intros H. simpl. apply forallb_forall. intros r Hr.
  apply Nat.eqb_eq, H, Hr.
Qed.

(** * The order of the floats *)

Lemma fltb_float_lt x y : fltb x y = true <-> float_lt x y.
Proof.
  destruct x as [a | | |], y as [b | | |]; simpl; try tauto;
    try (split; [discriminate | tauto]).
  destruct (Rlt_dec a b); split; auto; discriminate.
Qed.

Lemma float_le_not_lt x y : float_le x y -> fltb y x = false.
Proof.
  destruct x as [a | | |], y as [b | | |]; simpl; try tauto.
  intros H. destruct (Rlt_dec b a); [lra | reflexivity].
Qed.

(** * ReLULayer.backward *)

Lemma setmask_lt_at2 (d x : farray) (c v : float) :
  wf_array x = true -> wf_array d = true ->
  ndim x = ndim d -> shape2 x = shape2 d ->
  exists out,
    setmask d (nd_lt_scalar x c) v = Some out /\
    ndim out = ndim d /\ shape2 out = shape2 d /\ wf_array out = true /\
    forall i j, i < fst (shape2 d) -> j < snd (shape2 d) ->
      at2 out i j = if fltb (at2 x i j) c then v else at2 d i j.
Proof.
  intros Hwx Hwd Hnd Hsh.
  destruct d as [dv | nc drows], x as [xv | xc xrows]; try discriminate.
  - simpl in Hsh. injection Hsh as Hlen.
    eexists. simpl. rewrite length_map, Hlen, Nat.eqb_refl.
    split; [reflexivity |]. simpl.
    rewrite length_zip_with_same by (rewrite length_map; lia).
    repeat split. intros i j _ Hj.
    rewrite (nth_zip_with _ _ _ _ NaN false) by (rewrite ?length_map; lia).
    rewrite (nth_indep _ false (fltb NaN c)) by (rewrite length_map; lia).
    rewrite (map_nth (fun x => fltb x c)). reflexivity.
  - simpl in Hsh. injection Hsh as Hlen Hc. subst xc.
    eexists. simpl. rewrite length_map, Hlen, !Nat.eqb_refl. simpl.
    split; [reflexivity |]. simpl.
    rewrite length_zip_with_same by (rewrite length_map; lia).
    assert (Hrow : forall i, i < length drows ->
      nth i (zip_with (zip_with (fun a (b : bool) => if b then v else a))
                      drows (map (map (fun a => fltb a c)) xrows)) [] =
      zip_with (fun a (b : bool) => if b then v else a)
               (nth i drows []) (map (fun a => fltb a c) (nth i xrows []))).
    { intros i Hi.
      rewrite (nth_zip_with _ _ _ _ [] []) by (rewrite ?length_map; lia).
      rewrite (nth_indep _ [] (map (fun a => fltb a c) [])) by (rewrite length_map; lia).
      rewrite (map_nth (map (fun a => fltb a c))). reflexivity. }
    repeat split.
    + apply forallb_forall. intros r Hr. apply Nat.eqb_eq.
      apply (In_nth _ _ []) in Hr as (i & Hi & <-).
      rewrite length_zip_with_same in Hi by (rewrite length_map; lia).
      rewrite Hrow by exact Hi.
      rewrite length_zip_with_same.
      * apply wf_array_row; assumption.
      * rewrite length_map, !(wf_array_row nc) by (assumption || lia).
        reflexivity.
    + intros i j Hi Hj. rewrite Hrow by exact Hi.
      pose proof (wf_array_row nc drows i Hwd Hi) as Hd.
      pose proof (wf_array_row nc xrows i Hwx ltac:(lia)) as Hx.
      rewrite (nth_zip_with _ _ _ _ NaN false) by (rewrite ?length_map; lia).
      rewrite (nth_indep _ false (fltb NaN c)) by (rewrite length_map; lia).
      rewrite (map_nth (fun x => fltb x c)). reflexivity.
Qed.

Lemma ReLULayer_backward_run (h : heap) (self X d_out : loc) (x d : farray) :
  h !! self = Some (OReLU (Some X)) ->
  h !! X = Some (ONd x) ->
  h !! d_out = Some (ONd d) ->
  wf_array x = true -> wf_array d = true ->
  ndim x = ndim d -> shape2 x = shape2 d ->
  exists d_result out h',
    ReLULayer.backward self d_out h = Some (d_result, h') /\
    h' !! d_result = Some (ONd out) /\
    relu_gradient x d out /\
    heap_le h h' /\ length h <= d_result.
Proof.
  intros Hself HX Hd Hwx Hwd Hnd Hsh.
  destruct (setmask_lt_at2 d x (Fin 0) (Fin 0) Hwx Hwd Hnd Hsh)
    as (out & Hset & Hnd' & Hsh' & Hwf' & Hat).
  assert (Hrun : wp (ReLULayer.backward self d_out) h
                   (fun r h' => h' !! r = Some (ONd out))).
  { unfold ReLULayer.backward, ReLULayer.get_X.
    do 2 wp_step. { reflexivity. }
    do 6 wp_step. { exact Hset. }
    wp_step. lookup. }
  destruct Hrun as (r & h' & Hrun & Hr).
  exists r, out, h'. split; [exact Hrun |]. split; [exact Hr |]. split.
  - unfold relu_gradient. repeat split; try assumption.
    + intros Hlt. rewrite Hat by assumption.
      apply fltb_float_lt in Hlt. rewrite Hlt. reflexivity.
    + intros Hle. rewrite Hat by assumption.
      rewrite (float_le_not_lt _ _ Hle). reflexivity.
  - split.
    + eapply ReLULayer_backward_preserves; [apply heap_le_refl | exact Hrun].
    + eapply ReLULayer_backward_fresh; [apply heap_le_refl | exact Hrun].
Qed.

(** C5: after [forward(X)], [backward(d_out)] with [d_out] shaped like [X]
    returns an array that is 0 where the cached input is strictly
    negative and the entry of [d_out] where it is non-negative (zero
    included). *)
Theorem ReLULayer_backward_spec (h : heap) (self X d_out : loc)
    (x d : farray) :
  h !! self = Some (OReLU (Some X)) ->
  h !! X = Some (ONd x) ->
  h !! d_out = Some (ONd d) ->
  wf_array x = true -> wf_array d = true ->
  ndim x = ndim d -> shape2 x = shape2 d ->
  exists d_result out h',
    ReLULayer.backward self d_out h = Some (d_result, h') /\
    h' !! d_result = Some (ONd out) /\
    ndim out = ndim d /\ shape2 out = shape2 d /\
    forall i j, i < fst (shape2 d) -> j < snd (shape2 d) ->
      (float_lt (at2 x i j) (Fin 0) -> at2 out i j = Fin 0) /\
      (float_le (Fin 0) (at2 x i j) -> at2 out i j = at2 d i j).
Proof.
  intros Hself HX Hd Hwx Hwd Hnd Hsh.
  destruct (ReLULayer_backward_run h self X d_out x d Hself HX Hd Hwx Hwd Hnd Hsh)
    as (r & out & h' & Hrun & Hr & (Hnd' & Hsh' & _ & Hat) & _).
  exists r, out, h'. auto.
Qed.

Lemma ReLULayer_backward_spec_witness :
  exists d_result out h',
    ReLULayer.backward 0 2
      [OReLU (Some 1); ONd (Arr1 [Fin (-1); Fin 0; Fin 2]);
       ONd (Arr1 [Fin 5; Fin 6; Fin 7])] = Some (d_result, h') /\
    h' !! d_result = Some (ONd out) /\
    ndim out = 1 /\ shape2 out = (1, 3) /\
    forall i j, i < 1 -> j < 3 ->
      (float_lt (at2 (Arr1 [Fin (-1); Fin 0; Fin 2]) i j) (Fin 0) ->
       at2 out i j = Fin 0) /\
      (float_le (Fin 0) (at2 (Arr1 [Fin (-1); Fin 0; Fin 2]) i j) ->
       at2 out i j = at2 (Arr1 [Fin 5; Fin 6; Fin 7]) i j).
Proof.
  apply (ReLULayer_backward_spec
           [OReLU (Some 1); ONd (Arr1 [Fin (-1); Fin 0; Fin 2]);
            ONd (Arr1 [Fin 5; Fin 6; Fin 7])] 0 1 2
           (Arr1 [Fin (-1); Fin 0; Fin 2]) (Arr1 [Fin 5; Fin 6; Fin 7]));
    reflexivity.
Defined.

(* ================================================================== *)
(** * Tabulated lists and broadcasting *)

Lemma length_tabulate {A} n (f : nat -> A) : length (tabulate n f) = n.
Proof. unfold tabulate. rewrite length_map, length_seq. reflexivity. Qed.

Lemma nth_tabulate {A} n (f : nat -> A) i d :
  i < n -> nth i (tabulate n f) d = f i.
Proof.
  intros Hi. unfold tabulate.
  rewrite (nth_indep _ d (f 0)) by (rewrite length_map, length_seq; exact Hi).
  rewrite (map_nth f), seq_nth by exact Hi. reflexivity.
Qed.

Lemma tabulate_ext_list {A} n (f : nat -> A) (l : list A) d :
  length l = n -> (forall i, i < n -> f i = nth i l d) -> tabulate n f = l.
Proof.
  intros Hlen Hf. apply (nth_ext _ _ d d).
  - rewrite length_tabulate. symmetry. exact Hlen.
  - intros i Hi. rewrite length_tabulate in Hi.
    rewrite nth_tabulate by exact Hi. apply Hf, Hi.
Qed.

Lemma zip_with_map_r {A B C} (f : A -> B -> C) (g : A -> B) l :
  zip_with f l (map g l) = map (fun x => f x (g x)) l.
Proof. induction l as [| a l IH]; simpl; [reflexivity | rewrite IH; reflexivity]. Qed.

Lemma bidx_lt dim i : i < dim -> bidx dim i = i.
Proof.
  intros Hi. unfold bidx. destruct (Nat.eqb_spec dim 1); [lia | reflexivity].
Qed.

(** A matrix against a column: the column entry of the row meets every
    entry of the row. *)
Lemma nd_binop_column f nc rows col :
  wf_array (Arr2 nc rows) = true -> length col = length rows ->
  nd_binop f (Arr2 nc rows) (Arr2 1 (map (fun x => [x]) col)) =
    Some (Arr2 nc (zip_with (fun row c => map (fun x => f x c) row) rows col)).
Proof.
  intros Hwf Hlen. unfold nd_binop. cbn [shape2].
  rewrite length_map, Hlen.
  assert (Hb1 : bdim (length rows) (length rows) = Some (length rows)).
  { unfold bdim. rewrite Nat.eqb_refl. reflexivity. }
  assert (Hb2 : bdim nc 1 = Some nc).
  { unfold bdim. destruct (Nat.eqb_spec nc 1) as [-> |]; reflexivity. }
  rewrite Hb1, Hb2. f_equal. f_equal.
  apply (tabulate_ext_list _ _ _ []).
  { apply length_zip_with_same. lia. }
  intros i Hi.
  rewrite (nth_zip_with _ _ _ _ [] NaN) by lia.
  pose proof (wf_array_row nc rows i Hwf Hi) as Hrow.
  apply (tabulate_ext_list _ _ _ NaN).
  { rewrite length_map. exact Hrow. }
  intros j Hj.
  rewrite (nth_indep _ NaN ((fun x => f x (nth i col NaN)) NaN))
    by (rewrite ?length_map; lia).
  rewrite (map_nth (fun x => f x (nth i col NaN))).
  rewrite !bidx_lt by assumption. unfold bidx. simpl.
  rewrite (nth_indep (map (fun x => [x]) col) [] [NaN])
    by (rewrite ?length_map; lia).
  rewrite (map_nth (fun x => [x])). reflexivity.
Qed.

Lemma wf_map_rows {A B} nc (g : list A -> list B) (rows : list (list A)) :
  (forall r, length (g r) = length r) ->
  wf_array (Arr2 nc rows) = true -> wf_array (Arr2 nc (map g rows)) = true.
Proof.
  intros Hg Hwf. apply wf_array_intro. intros r Hr.
  apply in_map_iff in Hr as (r0 & <- & Hr0). rewrite Hg.
  simpl in Hwf. rewrite forallb_forall in Hwf. apply Nat.eqb_eq, Hwf, Hr0.
Qed.

(** * Sums and maxima *)

Lemma fmax_list_total l : l <> [] -> fmax_list l = Some (fmax_total l).
Proof. destruct l; [congruence | reflexivity]. Qed.

Lemma mapM_fmax_list nc (rows : list (list float)) :
  wf_array (Arr2 nc rows) = true -> 0 < nc ->
  mapM fmax_list rows = Some (map fmax_total rows).
Proof.
  intros Hwf Hnc. apply mapM_Some. apply Forall2_fmap_r, Forall_Forall2_diag.
  apply Forall_forall. intros r Hr. apply fmax_list_total.
  simpl in Hwf. rewrite forallb_forall in Hwf.
  apply list_elem_of_In, Hwf, Nat.eqb_eq in Hr. destruct r; simpl in *; [lia | congruence].
Qed.

(** * softmax *)

Lemma softmax_run (h : heap) (p : loc) (a : farray) :
  h !! p = Some (ONd a) -> wf_array a = true -> 0 < snd (shape2 a) ->
  exists probs h',
    softmax p h = Some (probs, h') /\
    h' !! probs = Some (ONd (softmax_nd a)) /\
    heap_le h h' /\ length h <= probs.
Proof.
  intros Hp Hwf Hnc.
  assert (Hrun : wp (softmax p) h
                   (fun probs h' => h' !! probs = Some (ONd (softmax_nd a)))).
  { unfold softmax. do 2 wp_step.
    destruct a as [v | nc rows]; cbn [ndim Nat.eqb shape2 snd] in *.
    - (* a vector *)
      assert (Hv : v <> []) by (destruct v; simpl in *; [lia | congruence]).
      do 3 wp_step. { apply (fmax_list_total _ Hv). }
      do 3 wp_step. { reflexivity. }
      do 2 wp_step. { reflexivity. }
      do 6 wp_step. { reflexivity. }
      wp_step.
      rewrite lookup_alloc_new. do 2 f_equal. cbn [nd_map softmax_nd nd_sum ravel].
      unfold softmax_row. rewrite !map_map. reflexivity.
    - (* a batch *)
      do 3 wp_step.
      { cbn [nd_max_axis1]. destruct (Nat.eqb_spec nc 0); [lia |].
        rewrite (mapM_fmax_list nc rows Hwf Hnc). reflexivity. }
      do 2 wp_step. { reflexivity. }
      do 3 wp_step. { apply nd_binop_column; [exact Hwf | apply length_map]. }
      rewrite zip_with_map_r.
      do 2 wp_step. { reflexivity. }
      cbn [nd_map]. rewrite map_map.
      do 3 wp_step. { reflexivity. }
      do 2 wp_step. { reflexivity. }
      do 3 wp_step.
      { apply nd_binop_column.
        - repeat (apply wf_map_rows; [intros r; apply length_map |]).
          exact Hwf.
        - rewrite !length_map. reflexivity. }
      wp_step.
      rewrite lookup_alloc_new. do 2 f_equal. cbn [softmax_nd]. f_equal.
      rewrite map_map, zip_with_map_r, map_map. apply map_ext. intros r.
      unfold softmax_row. rewrite !map_map. reflexivity. }
  destruct Hrun as (probs & h' & Hrun & Hl).
  exists probs, h'. repeat split; try assumption.
  - eapply softmax_preserves; [apply heap_le_refl | exact Hrun].
  - eapply softmax_fresh; [apply heap_le_refl | exact Hrun].
Qed.

(** * Finite rows *)

Lemma finite_list l : forallb is_finite l = true -> exists xs, l = map Fin xs.
Proof.
  induction l as [| x l IH]; simpl; intros H.
  - exists []. reflexivity.
  - apply andb_prop in H as [Hx Hl]. destruct (IH Hl) as [xs ->].
    destruct x as [r | | |]; try discriminate. exists (r :: xs). reflexivity.
Qed.

Lemma forallb_concat {A} (f : A -> bool) (ls : list (list A)) :
  forallb f (concat ls) = true -> forall l, In l ls -> forallb f l = true.
Proof.
  induction ls as [| l0 ls IH]; simpl; intros H l Hl; [contradiction |].
  rewrite forallb_app in H. apply andb_prop in H as [H0 H1].
  destruct Hl as [<- | Hl]; auto.
Qed.

Lemma fold_fadd_Fin (l : list R) (a : R) :
  fold_left fadd (map Fin l) (Fin a) = Fin (fold_left Rplus l a).
Proof. revert a. induction l as [| x l IH]; intros a; simpl; [reflexivity | apply IH]. Qed.

Lemma fsum_Fin (l : list R) : fsum (map Fin l) = Fin (Rsum l).
Proof. apply fold_fadd_Fin. Qed.

Lemma fold_Rplus_acc (l : list R) (a : R) :
  fold_left Rplus l a = (a + fold_left Rplus l 0)%R.
Proof.
  revert a. induction l as [| x l IH]; intros a; simpl; [lra |].
  rewrite (IH (a + x)%R), (IH (0 + x)%R). lra.
Qed.

Lemma Rsum_cons x l : Rsum (x :: l) = (x + Rsum l)%R.
Proof. unfold Rsum. simpl. rewrite fold_Rplus_acc. lra. Qed.

Lemma Rsum_pos (l : list R) :
  l <> [] -> Forall (fun x => (0 < x)%R) l -> (0 < Rsum l)%R.
Proof.
  intros Hne Hall. induction Hall as [| x l Hx Hall IH]; [congruence |].
  rewrite Rsum_cons. destruct l as [| y l].
  - unfold Rsum. simpl. lra.
  - assert (0 < Rsum (y :: l))%R by (apply IH; congruence). lra.
Qed.

(** The maximum of real numbers is a real number, and shifts with them. *)
Lemma fold_fmaximum_Fin (xs : list R) (a : R) :
  exists m,
    fold_left fmaximum (map Fin xs) (Fin a) = Fin m /\
    forall c, fold_left fmaximum (map Fin (map (fun x => x + c)%R xs)) (Fin (a + c))
              = Fin (m + c).
Proof.
  revert a. induction xs as [| x xs IH]; intros a; simpl.
  - exists a. auto.
  - destruct (Rlt_dec a x) as [Hlt | Hge].
    + destruct (IH x) as (m & Hm & Hshift). exists m. split; [exact Hm |].
      intros c. destruct (Rlt_dec (a + c) (x + c)); [apply Hshift | lra].
    + destruct (IH a) as (m & Hm & Hshift). exists m. split; [exact Hm |].
      intros c. destruct (Rlt_dec (a + c) (x + c)); [lra | apply Hshift].
Qed.

Lemma fmax_total_Fin (xs : list R) :
  xs <> [] ->
  exists m,
    fmax_total (map Fin xs) = Fin m /\
    forall c, fmax_total (map Fin (map (fun x => x + c)%R xs)) = Fin (m + c).
Proof.
  destruct xs as [| x xs]; [congruence |]. intros _.
  unfold fmax_total. simpl. apply fold_fmaximum_Fin.
Qed.

(** What [softmax] makes of a row of real numbers. *)
Lemma softmax_row_Fin (xs : list R) :
  xs <> [] ->
  exists m,
    fmax_total (map Fin xs) = Fin m /\
    softmax_row (map Fin xs) =
      map Fin (map (fun y => y / Rsum (map (fun x => exp (x - m)) xs))%R
                   (map (fun x => exp (x - m))%R xs)).
Proof.
  intros Hne. destruct (fmax_total_Fin xs Hne) as (m & Hm & _).
  exists m. split; [exact Hm |].
  unfold softmax_row. rewrite Hm.
  assert (He : map (fun x => fexp (fsub x (Fin m))) (map Fin xs) =
               map Fin (map (fun x => exp (x - m))%R xs)).
  { rewrite !map_map. apply map_ext. intros x. reflexivity. }
  rewrite He, fsum_Fin.
  set (es := map (fun x => exp (x - m))%R xs).
  assert (Hpos : (0 < Rsum es)%R).
  { apply Rsum_pos.
    - subst es. destruct xs; [congruence | discriminate].
    - subst es. apply Forall_forall. intros y Hy.
      apply list_elem_of_In, in_map_iff in Hy as (x & <- & _). apply exp_pos. }
  rewrite !map_map. apply map_ext. intros y. simpl.
  destruct (Req_dec_T (Rsum es) 0); [lra | reflexivity].
Qed.




Lemma softmax_nd_shape (a : farray) :
  ndim (softmax_nd a) = ndim a /\ shape2 (softmax_nd a) = shape2 a.
Proof.
  destruct a as [v | nc rows]; simpl.
  - unfold softmax_row. rewrite !length_map. auto.
  - rewrite length_map. auto.
Qed.










(* ================================================================== *)
(** * Indexing *)

Lemma norm_index_nonneg n k :
  (0 <= k < Z.of_nat n)%Z -> norm_index n k = Some (Z.to_nat k).
Proof.
  intros Hk. unfold norm_index.
  destruct (Z.leb_spec 0 k), (Z.ltb_spec k (Z.of_nat n)); simpl; try lia.
  reflexivity.
Qed.

Lemma lookup_nth {A} (l : list A) i d : i < length l -> l !! i = Some (nth i l d).
Proof.
  intros Hi. destruct (lookup_lt_is_Some_2 l i Hi) as [x Hx].
  rewrite Hx. f_equal. symmetry. apply nth_lookup_Some with (d := d). exact Hx.
Qed.

Lemma getitem1_in_range {A} (v : list A) (idx : list Z) d :
  Forall (fun k => (0 <= k < Z.of_nat (length v))%Z) idx ->
  getitem1 v idx = Some (map (fun k => nth (Z.to_nat k) v d) idx).
Proof.
  intros Hidx. unfold getitem1. apply mapM_Some.
  apply Forall2_fmap_r, Forall_Forall2_diag.
  eapply Forall_impl; [exact Hidx |]. intros k Hk. cbv beta in Hk.
  rewrite (norm_index_nonneg _ _ Hk). simpl.
  apply lookup_nth. lia.
Qed.

Lemma getitem2_arange nc (rows : list (list float)) (t : list Z) :
  wf_array (Arr2 nc rows) = true ->
  valid_targets (Arr2 nc rows) t ->
  getitem2 (Arr2 nc rows) (nd_arange (length t)) t =
    Some (Arr1 (target_probs (Arr2 nc rows) t)).
Proof.
  intros Hwf [Hlen Ht]. unfold getitem2, nd_arange.
  rewrite length_map, length_seq, Nat.eqb_refl.
  assert (H : mapM (fun '(i, j) =>
                 r ← norm_index (length rows) i; c ← norm_index nc j;
                 row ← rows !! r; row !! c)
              (zip (map Z.of_nat (seq 0 (length t))) t)
            = Some (target_probs (Arr2 nc rows) t)).
  { apply mapM_Some. apply Forall2_same_length_lookup. split.
    - unfold target_probs. rewrite length_zip_with_same, length_imap;
        rewrite ?length_map, ?length_seq; reflexivity.
    - intros i [i' k] y Hz Hy. unfold target_probs in Hy.
      rewrite list_lookup_imap in Hy.
      apply lookup_zip_with_Some in Hz as (i0 & k0 & [= -> ->] & Hi0 & Hk0).
      rewrite Hk0 in Hy. simpl in Hy. injection Hy as <-.
      rewrite list_lookup_fmap in Hi0.
      destruct (seq 0 (length t) !! i) as [n |] eqn:Hs; [| discriminate].
      apply lookup_seq in Hs as [-> Hi]. simpl in Hi0. injection Hi0 as <-.
      rewrite Forall_forall in Ht.
      assert (Hk : (0 <= k0 < Z.of_nat nc)%Z).
      { apply Ht. apply list_elem_of_lookup. eauto. }
      rewrite (norm_index_nonneg (length rows) (Z.of_nat i)) by lia. simpl.
      rewrite (norm_index_nonneg _ _ Hk). simpl.
      rewrite Nat2Z.id, (lookup_nth rows i []) by lia. simpl.
      apply lookup_nth. rewrite (wf_array_row nc) by (assumption || lia). lia. }
  rewrite H. reflexivity.
Qed.

(** * Sums with minus infinity *)

Lemma fold_fadd_ninf (l : list float) :
  Forall fin_or_ninf l -> fold_left fadd l NInf = NInf.
Proof.
  induction 1 as [| x l Hx _ IH]; simpl; [reflexivity |].
  destruct x; simpl in *; try contradiction; exact IH.
Qed.

Lemma fold_fadd_reaches_ninf (l : list float) (a : R) :
  Forall fin_or_ninf l -> Exists (fun x => x = NInf) l ->
  fold_left fadd l (Fin a) = NInf.
Proof.
  intros Hall Hex. revert a.
  induction Hall as [| x l Hx Hall IH]; intros a.
  - inversion Hex.
  - simpl. destruct x as [r | | |]; simpl in Hx; try contradiction.
    + apply IH. apply Exists_cons in Hex as [Hex | Hex]; [discriminate | exact Hex].
    + apply fold_fadd_ninf, Hall.
Qed.

Lemma flog_probability q :
  is_probability q ->
  fin_or_ninf (flog q) /\ (q = Fin 0 -> flog q = NInf).
Proof.
  intros [H0 H1]. destruct q as [r | | |]; simpl in *; try contradiction.
  destruct (Rlt_dec 0 r), (Rlt_dec r 0); simpl; try lra; split; auto;
    intros [= ->]; lra.
Qed.

Lemma flog_positive (qs : list R) :
  Forall (fun r => (0 < r)%R) qs ->
  map flog (map Fin qs) = map Fin (map ln qs).
Proof.
  induction 1 as [| r qs Hr _ IH]; simpl; [reflexivity |].
  rewrite IH. destruct (Rlt_dec 0 r); [reflexivity | lra].
Qed.

Lemma INR_pos_length {A} (l : list A) : l <> [] -> (0 < INR (length l))%R.
Proof.
  intros Hne. apply lt_0_INR. destruct l; [congruence | simpl; lia].
Qed.

(** * cross_entropy_loss *)

Lemma cross_entropy_loss_run (h : heap) (probs : loc) (a : farray)
    (target_index : list Z) :
  h !! probs = Some (ONd a) -> wf_array a = true ->
  valid_targets a target_index ->
  exists h',
    cross_entropy_loss probs target_index h =
      Some (fneg (fdiv (fsum (map flog (target_probs a target_index)))
                       (of_nat (length target_index))), h') /\
    heap_le h h'.
Proof.
  intros Hp Hwf Ht.
  assert (Hrun : wp (cross_entropy_loss probs target_index) h (fun loss _ =>
            loss = fneg (fdiv (fsum (map flog (target_probs a target_index)))
                              (of_nat (length target_index))))).
  { unfold cross_entropy_loss. do 2 wp_step.
    destruct a as [v | nc rows]; cbn [ndim Nat.eqb].
    - do 2 wp_step.
      { cbn [getitem_rows]. rewrite (getitem1_in_range v _ NaN) by exact Ht.
        reflexivity. }
      do 2 wp_step. { reflexivity. }
      do 3 wp_step. unfold nd_mean. cbn [nd_map nd_sum ravel nd_size target_probs at2].
      rewrite !length_map. reflexivity.
    - do 2 wp_step. { apply getitem2_arange; assumption. }
      do 2 wp_step. { reflexivity. }
      do 3 wp_step. unfold nd_mean. cbn [nd_map nd_sum ravel nd_size target_probs].
      rewrite length_map, length_imap. reflexivity. }
  destruct Hrun as (loss & h' & Hrun & ->). exists h'. split; [exact Hrun |].
  eapply cross_entropy_loss_preserves; [apply heap_le_refl | exact Hrun].
Qed.

(** C9, as amended: [cross_entropy_loss] returns the negative mean of the
    logarithms of the true-class probabilities; when one of them is
    exactly 0 the result is plus infinity (not an error, and not minus
    infinity). *)
Theorem cross_entropy_loss_spec (h : heap) (probs : loc) (a : farray)
    (target_index : list Z) :
  h !! probs = Some (ONd a) -> wf_array a = true ->
  valid_targets a target_index -> target_index <> [] ->
  exists loss h',
    cross_entropy_loss probs target_index h = Some (loss, h') /\
    loss = fneg (fdiv (fsum (map flog (target_probs a target_index)))
                      (of_nat (length target_index))) /\
    (forall qs : list R,
        target_probs a target_index = map Fin qs ->
        Forall (fun q => (0 < q)%R) qs ->
        loss = Fin (- (Rsum (map ln qs) / INR (length target_index)))) /\
    (Forall is_probability (target_probs a target_index) ->
     Exists (fun q => q = Fin 0) (target_probs a target_index) ->
     loss = PInf).
Proof.
  intros Hp Hwf Ht Hne.
  destruct (cross_entropy_loss_run h probs a target_index Hp Hwf Ht)
    as (h' & Hrun & _).
  eexists _, h'. split; [exact Hrun |]. split; [reflexivity |].
  pose proof (INR_pos_length target_index Hne) as Hn.
  split.
  - intros qs Hqs Hpos. rewrite Hqs, (flog_positive qs Hpos), fsum_Fin.
    unfold of_nat. simpl. destruct (Req_dec_T (INR (length target_index)) 0); [lra |].
    reflexivity.
  - intros Hprob Hzero.
    assert (Hsum : fsum (map flog (target_probs a target_index)) = NInf).
    { apply fold_fadd_reaches_ninf.
      - apply Forall_forall. intros x Hx.
        apply list_elem_of_In, in_map_iff in Hx as (q & <- & Hq).
        rewrite Forall_forall in Hprob.
        apply flog_probability, Hprob, list_elem_of_In, Hq.
      - apply Exists_exists in Hzero as (q & Hq & ->).
        apply Exists_exists. exists (flog (Fin 0)). split.
        + apply list_elem_of_In, in_map, list_elem_of_In, Hq.
        + simpl. destruct (Rlt_dec 0 0); [lra | reflexivity]. }
    rewrite Hsum. unfold of_nat. simpl.
    destruct (Rlt_dec (INR (length target_index)) 0); [lra | reflexivity].
Qed.

(** C9, as stated, fails: with probability 0 on the true class the loss
    is plus infinity, not minus infinity. *)
Lemma cross_entropy_loss_zero_probability_is_plus_infinity :
  (exists h', cross_entropy_loss 0 [0%Z] [ONd (Arr1 [Fin 0; Fin 1])]
              = Some (PInf, h')) /\
  ~ (exists h', cross_entropy_loss 0 [0%Z] [ONd (Arr1 [Fin 0; Fin 1])]
                = Some (NInf, h')).
Proof.
  destruct (cross_entropy_loss_run [ONd (Arr1 [Fin 0; Fin 1])] 0
              (Arr1 [Fin 0; Fin 1]) [0%Z]) as (h' & Hrun & _).
  { reflexivity. }
  { reflexivity. }
  { repeat constructor; simpl; lia. }
  assert (Hloss : fneg (fdiv (fsum (map flog (target_probs (Arr1 [Fin 0; Fin 1]) [0%Z])))
                             (of_nat (length [0%Z]))) = PInf).
  { simpl. unfold fsum. simpl.
    destruct (Rlt_dec 0 0); [lra |]. simpl.
    destruct (Rlt_dec (1) 0); [lra | reflexivity]. }
  rewrite Hloss in Hrun. split.
  - exists h'. exact Hrun.
  - intros [h2 H2]. rewrite Hrun in H2. discriminate.
Qed.

Lemma cross_entropy_loss_spec_witness :
  exists loss h',
    cross_entropy_loss 0 [1%Z] [ONd (Arr2 2 [[Fin (1/2); Fin (1/2)]])]
      = Some (loss, h') /\
    loss = fneg (fdiv (fsum (map flog
              (target_probs (Arr2 2 [[Fin (1/2); Fin (1/2)]]) [1%Z])))
              (of_nat (length [1%Z]))) /\
    (forall qs : list R,
        target_probs (Arr2 2 [[Fin (1/2); Fin (1/2)]]) [1%Z] = map Fin qs ->
        Forall (fun q => (0 < q)%R) qs ->
        loss = Fin (- (Rsum (map ln qs) / INR (length [1%Z])))) /\
    (Forall is_probability (target_probs (Arr2 2 [[Fin (1/2); Fin (1/2)]]) [1%Z]) ->
     Exists (fun q => q = Fin 0) (target_probs (Arr2 2 [[Fin (1/2); Fin (1/2)]]) [1%Z]) ->
     loss = PInf).
Proof.
  apply (cross_entropy_loss_spec [ONd (Arr2 2 [[Fin (1/2); Fin (1/2)]])] 0
           (Arr2 2 [[Fin (1/2); Fin (1/2)]]) [1%Z]).
  - reflexivity.
  - reflexivity.
  - split; [reflexivity | repeat constructor; simpl; lia].
  - discriminate.
Defined.

(* ================================================================== *)
(** * Writing through index arrays *)

Lemma nth_insert_eq {A} (l : list A) k x d :
  k < length l -> nth k (<[k := x]> l) d = x.
Proof.
  intros Hk. apply nth_lookup_Some. apply list_lookup_insert_eq, Hk.
Qed.

Lemma nth_insert_ne {A} (l : list A) k i x d :
  i <> k -> nth i (<[k := x]> l) d = nth i l d.
Proof.
  intros Hne. rewrite !nth_lookup, list_lookup_insert_ne by congruence.
  reflexivity.
Qed.

Lemma setitem1_list_spec (g : float -> float) (v0 : list float) :
  forall (idx : list Z) (v : list float),
    length v = length v0 ->
    Forall (fun k => (0 <= k < Z.of_nat (length v0))%Z) idx ->
    exists v',
      setitem1_list v idx (map (fun k => g (nth (Z.to_nat k) v0 NaN)) idx)
        = Some v' /\
      length v' = length v /\
      forall j, j < length v ->
        (In (Z.of_nat j) idx -> nth j v' NaN = g (nth j v0 NaN)) /\
        (~ In (Z.of_nat j) idx -> nth j v' NaN = nth j v NaN).
Proof.
  induction idx as [| k idx IH]; intros v Hlen Hidx.
  - exists v. repeat split. intros [].
  - apply Forall_cons in Hidx as [Hk Hidx]. simpl.
    rewrite norm_index_nonneg by lia. simpl.
    destruct (IH (<[Z.to_nat k := g (nth (Z.to_nat k) v0 NaN)]> v))
      as (v' & Hrun & Hlen' & Hnth).
    { rewrite length_insert. exact Hlen. }
    { exact Hidx. }
    exists v'. split; [exact Hrun |].
    rewrite length_insert in Hlen', Hnth. split; [exact Hlen' |].
    intros j Hj. destruct (Hnth j Hj) as [Hin Hout].
    destruct (in_dec Z.eq_dec (Z.of_nat j) idx) as [Hi | Hni].
    + split; [intros _; apply Hin, Hi |]. intros Hn. exfalso. apply Hn. right. exact Hi.
    + rewrite (Hout Hni). destruct (Z.eq_dec k (Z.of_nat j)) as [-> | Hne].
      * rewrite Nat2Z.id, nth_insert_eq by lia.
        split; [reflexivity |]. intros Hn. exfalso. apply Hn. left. reflexivity.
      * rewrite nth_insert_ne by lia. split; [| reflexivity].
        intros [Heq | Hi]; [congruence | contradiction].
Qed.

Lemma setitem2_list_arange nc :
  forall (t : list Z) (k : nat) (rows : list (list float)) (vals : list float),
    (forall i, i < length rows -> length (nth i rows []) = nc) ->
    k + length t <= length rows -> length vals = length t ->
    Forall (fun x => (0 <= x < Z.of_nat nc)%Z) t ->
    exists rows',
      setitem2_list nc rows (zip (map Z.of_nat (seq k (length t))) t) vals
        = Some rows' /\
      length rows' = length rows /\
      (forall i, i < length rows -> length (nth i rows' []) = nc) /\
      forall i j, i < length rows -> j < nc ->
        (k <= i < k + length t -> Z.of_nat j = nth (i - k) t 0%Z ->
         nth j (nth i rows' []) NaN = nth (i - k) vals NaN) /\
        (~ (k <= i < k + length t /\ Z.of_nat j = nth (i - k) t 0%Z) ->
         nth j (nth i rows' []) NaN = nth j (nth i rows []) NaN).
Proof.
  induction t as [| x t IH]; intros k rows vals Hwf Hk Hvals Ht.
  - destruct vals; [| discriminate]. exists rows. repeat split; try assumption.
    simpl in *. lia.
  - destruct vals as [| v vals]; [discriminate |].
    apply Forall_cons in Ht as [Hx Ht]. simpl in Hk, Hvals. cbn [length seq map].
    cbn [zip zip_with setitem2_list].
    rewrite (norm_index_nonneg (length rows) (Z.of_nat k)) by lia. simpl.
    rewrite (norm_index_nonneg nc x) by lia. simpl.
    rewrite Nat2Z.id, (lookup_nth rows k []) by lia. simpl.
    set (rows1 := <[k := <[Z.to_nat x := v]> (nth k rows [])]> rows).
    assert (Hlen1 : length rows1 = length rows) by apply length_insert.
    assert (Hwf1 : forall i, i < length rows1 -> length (nth i rows1 []) = nc).
    { intros i Hi. rewrite Hlen1 in Hi. subst rows1.
      destruct (decide (i = k)) as [-> | Hne].
      - rewrite nth_insert_eq, length_insert by lia. apply Hwf. lia.
      - rewrite nth_insert_ne by exact Hne. apply Hwf, Hi. }
    destruct (IH (S k) rows1 vals Hwf1) as (rows' & Hrun & Hlen' & Hwf' & Hnth);
      [lia | lia | exact Ht |].
    exists rows'. split; [exact Hrun |]. rewrite Hlen1 in Hlen', Hwf', Hnth.
    split; [exact Hlen' |]. split; [exact Hwf' |].
    intros i j Hi Hj. destruct (Hnth i j Hi Hj) as [Hin Hout].
    assert (Hrow1 : nth j (nth i rows1 []) NaN =
                    if decide (i = k)
                    then (if decide (j = Z.to_nat x) then v
                          else nth j (nth i rows []) NaN)
                    else nth j (nth i rows []) NaN).
    { subst rows1. destruct (decide (i = k)) as [-> | Hne].
      - rewrite nth_insert_eq by lia. destruct (decide (j = Z.to_nat x)) as [-> | Hjx].
        + apply nth_insert_eq. rewrite Hwf; lia.
        + apply nth_insert_ne, Hjx.
      - rewrite nth_insert_ne by exact Hne. reflexivity. }
    destruct (decide (i = k)) as [-> | Hne].
    + (* the row written in this step *)
      rewrite Nat.sub_diag. cbn [nth]. rewrite Hout in * by lia. rewrite Hrow1.
      destruct (decide (j = Z.to_nat x)) as [-> | Hjx].
      * split; [reflexivity | lia].
      * split; [lia | reflexivity].
    + destruct (decide (k < i)) as [Hlt | Hge].
      * replace (i - k) with (S (i - S k)) by lia. cbn [nth].
        split.
        -- intros Hr Hc. apply Hin; [lia | exact Hc].
        -- intros Hn. rewrite Hout, Hrow1; [reflexivity |].
           intros [Hr Hc]. apply Hn. split; [lia | exact Hc].
      * split; [lia |]. intros _. rewrite Hout, Hrow1 by lia. reflexivity.
Qed.

Lemma nth_imap {A B} (f : nat -> A -> B) (l : list A) i da db :
  i < length l -> nth i (imap f l) db = f i (nth i l da).
Proof.
  intros Hi. apply nth_lookup_Some. rewrite list_lookup_imap.
  rewrite (lookup_nth l i da Hi). reflexivity.
Qed.

Lemma nth_map_lt {A B} (f : A -> B) (l : list A) i da db :
  i < length l -> nth i (map f l) db = f (nth i l da).
Proof.
  intros Hi. rewrite (nth_indep _ db (f da)) by (rewrite length_map; exact Hi).
  apply map_nth.
Qed.

(** * softmax_with_cross_entropy *)

Lemma softmax_nd_wf (a : farray) :
  wf_array a = true -> wf_array (softmax_nd a) = true.
Proof.
  destruct a as [v | nc rows]; [reflexivity |]. intros Hwf. cbn [softmax_nd].
  apply wf_map_rows; [| exact Hwf].
  intros r. unfold softmax_row. rewrite !length_map. reflexivity.
Qed.

Lemma valid_targets_shape (a b : farray) (t : list Z) :
  ndim a = ndim b -> shape2 a = shape2 b ->
  valid_targets a t -> valid_targets b t.
Proof.
  destruct a as [v | nc rows], b as [v' | nc' rows']; try discriminate; simpl.
  - intros _ [= ->]. auto.
  - intros _ [= -> ->]. auto.
Qed.

Lemma wp_softmax (h : heap) (p : loc) (a : farray) Q :
  h !! p = Some (ONd a) -> wf_array a = true -> 0 < snd (shape2 a) ->
  (forall probs h', h' !! probs = Some (ONd (softmax_nd a)) ->
                    heap_le h h' -> length h <= probs -> Q probs h') ->
  wp (softmax p) h Q.
Proof.
  intros Hp Hwf Hnc HQ.
  destruct (softmax_run h p a Hp Hwf Hnc) as (probs & h' & Hrun & Hl & Hle & Hfr).
  eapply wp_run; [exact Hrun | apply HQ; assumption].
Qed.

Lemma wp_cross_entropy_loss (h : heap) (p : loc) (a : farray) (t : list Z) Q :
  h !! p = Some (ONd a) -> wf_array a = true -> valid_targets a t ->
  (forall h', heap_le h h' ->
     Q (fneg (fdiv (fsum (map flog (target_probs a t))) (of_nat (length t)))) h') ->
  wp (cross_entropy_loss p t) h Q.
Proof.
  intros Hp Hwf Ht HQ.
  destruct (cross_entropy_loss_run h p a t Hp Hwf Ht) as (h' & Hrun & Hle).
  eapply wp_run; [exact Hrun | apply HQ; assumption].
Qed.

Lemma softmax_with_cross_entropy_run (h : heap) (predictions : loc)
    (a : farray) (target_index : list Z) :
  h !! predictions = Some (ONd a) ->
  wf_array a = true -> 0 < snd (shape2 a) -> valid_targets a target_index ->
  exists dprediction g h',
    softmax_with_cross_entropy predictions target_index h =
      Some ((fneg (fdiv (fsum (map flog (target_probs (softmax_nd a) target_index)))
                        (of_nat (length target_index))), dprediction), h') /\
    h' !! dprediction = Some (ONd g) /\
    swce_gradient (softmax_nd a) g target_index /\
    heap_le h h' /\ length h <= dprediction.
Proof.
  intros Hp Hwf Hnc Ht.
  destruct (softmax_nd_shape a) as [Hnd Hsh].
  pose proof (softmax_nd_wf a Hwf) as Hwfs.
  assert (Hts : valid_targets (softmax_nd a) target_index).
  { eapply valid_targets_shape; [| | exact Ht]; congruence. }
  assert (Hrun : wp (softmax_with_cross_entropy predictions target_index) h
            (fun r h' =>
               fst r = fneg (fdiv (fsum (map flog
                         (target_probs (softmax_nd a) target_index)))
                         (of_nat (length target_index))) /\
               exists g, h' !! snd r = Some (ONd g) /\
                         swce_gradient (softmax_nd a) g target_index)).
  { unfold softmax_with_cross_entropy. wp_step.
    eapply wp_softmax; [lookup | assumption | assumption |].
    intros probs h1 Hprobs Hle1 Hfr1. wp_step.
    eapply wp_cross_entropy_loss; [lookup | assumption | assumption |].
    intros h2 Hle2. do 2 wp_step. rewrite Hnd.
    destruct a as [v | nc rows]; cbn [ndim Nat.eqb softmax_nd] in *.
    - (* one sample *)
      unfold np.isub_item.
      do 2 wp_step.
      wp_step.
      { cbn [getitem_rows]. rewrite (getitem1_in_range _ _ NaN); [reflexivity |].
        unfold softmax_row. rewrite !length_map. exact Ht. }
      do 2 wp_step. { reflexivity. }
      cbn [nd_map]. rewrite map_map.
      destruct (setitem1_list_spec (fun x => fsub x (Fin 1)) (softmax_row v)
                  target_index (softmax_row v) eq_refl) as (v' & Hset & Hlen & Hnth).
      { unfold softmax_row. rewrite !length_map. exact Ht. }
      wp_step. { cbn [setitem1]. rewrite Hset. reflexivity. }
      wp_step. split; [reflexivity |]. exists (Arr1 v'). split; [simpl; lookup |].
      unfold swce_gradient. cbn [ndim shape2 wf_array at2]. rewrite Hlen.
      repeat split. all: apply Hnth; assumption.
    - (* a batch *)
      destruct Ht as [Hlen Ht]. unfold np.isub_item_pair.
      do 4 wp_step. { apply getitem2_arange; assumption. }
      do 2 wp_step. { reflexivity. }
      cbn [nd_map].
      destruct (setitem2_list_arange nc target_index 0 (map softmax_row rows)
                  (map (fun v => fsub v (Fin 1))
                       (target_probs (Arr2 nc (map softmax_row rows)) target_index)))
        as (rows' & Hset & Hlen' & Hwf' & Hnth).
      { intros i Hi. apply wf_array_row; assumption. }
      { rewrite length_map. lia. }
      { cbn [target_probs]. rewrite length_map, length_imap. reflexivity. }
      { exact Ht. }
      wp_step.
      { cbn [setitem2]. unfold nd_arange.
        rewrite length_map, length_seq, Nat.eqb_refl, Hset. reflexivity. }
      wp_step. { reflexivity. }
      wp_step. split; [reflexivity |]. eexists. split; [simpl; lookup |].
      rewrite length_map in Hlen', Hwf', Hnth.
      unfold swce_gradient. cbn [ndim shape2 nd_map at2].
      rewrite !length_map, Hlen'. split; [reflexivity |]. split; [reflexivity |].
      split.
      { apply wf_array_intro. intros r Hr.
        apply in_map_iff in Hr as (r0 & <- & Hr0). rewrite length_map.
        apply (In_nth _ _ []) in Hr0 as (i & Hi & <-). apply Hwf'. lia. }
      intros i j Hi Hj. destruct (Hnth i j Hi Hj) as [Hin Hout].
      rewrite (nth_map_lt _ _ _ [] _) by lia.
      rewrite (nth_map_lt _ _ _ NaN _) by (rewrite Hwf'; lia).
      rewrite Hlen. split.
      + intros Hc. rewrite Hin by (simpl; lia || (rewrite Nat.sub_0_r; exact Hc)).
        rewrite Nat.sub_0_r. cbn [target_probs].
        rewrite (nth_map_lt _ _ _ NaN _) by (rewrite length_imap; lia).
        rewrite (nth_imap _ _ _ 0%Z) by lia. rewrite <- Hc, Nat2Z.id. reflexivity.
      + intros Hc. rewrite Hout; [reflexivity |].
        rewrite Nat.sub_0_r. intros [_ Hc']. contradiction. }
  destruct Hrun as ([loss d] & h' & Hrun & Hloss & g & Hg & Hgrad).
  simpl in Hloss, Hg. subst loss. exists d, g, h'.
  split; [exact Hrun |]. split; [exact Hg |]. split; [exact Hgrad |]. split.
  - eapply softmax_with_cross_entropy_preserves; [apply heap_le_refl | exact Hrun].
  - eapply softmax_with_cross_entropy_fresh; [apply heap_le_refl | exact Hrun].
Qed.

(** C1: the gradient [softmax_with_cross_entropy] returns is
    [softmax(predictions)] with 1 subtracted at every (row, true class)
    position and all of it divided by the batch size; for one sample,
    [softmax(predictions)] with 1 subtracted at the true class and no
    division. *)
Theorem softmax_with_cross_entropy_gradient (h : heap) (predictions : loc)
    (a : farray) (target_index : list Z) :
  h !! predictions = Some (ONd a) ->
  wf_array a = true -> 0 < snd (shape2 a) -> valid_targets a target_index ->
  exists probs hp sm loss dprediction h' g,
    softmax predictions h = Some (probs, hp) /\
    hp !! probs = Some (ONd sm) /\
    softmax_with_cross_entropy predictions target_index h =
      Some ((loss, dprediction), h') /\
    h' !! dprediction = Some (ONd g) /\
    ndim g = ndim a /\ shape2 g = shape2 a /\
    match a with
    | Arr2 nc rows =>
        forall i j, i < length rows -> j < nc ->
          (Z.of_nat j = nth i target_index 0%Z ->
           at2 g i j = fdiv (fsub (at2 sm i j) (Fin 1)) (of_nat (length rows))) /\
          (Z.of_nat j <> nth i target_index 0%Z ->
           at2 g i j = fdiv (at2 sm i j) (of_nat (length rows)))
    | Arr1 v =>
        forall j, j < length v ->
          (In (Z.of_nat j) target_index ->
           at2 g 0 j = fsub (at2 sm 0 j) (Fin 1)) /\
          (~ In (Z.of_nat j) target_index -> at2 g 0 j = at2 sm 0 j)
    end.
Proof.
  intros Hp Hwf Hnc Ht.
  destruct (softmax_run h predictions a Hp Hwf Hnc) as (probs & hp & Hsm & Hl & _).
  destruct (softmax_with_cross_entropy_run h predictions a target_index Hp Hwf Hnc Ht)
    as (d & g & h' & Hrun & Hg & (Hnd & Hsh & _ & Hgrad) & _).
  destruct (softmax_nd_shape a) as [Hnd' Hsh'].
  eexists probs, hp, (softmax_nd a), _, d, h', g.
  repeat (split; [first [eassumption | congruence] |]).
  destruct a as [v | nc rows]; cbn [softmax_nd] in Hgrad.
  - unfold softmax_row in Hgrad. rewrite !length_map in Hgrad. exact Hgrad.
  - rewrite length_map in Hgrad. exact Hgrad.
Qed.

Lemma softmax_with_cross_entropy_gradient_witness :
  exists probs hp sm loss dprediction h' g,
    softmax 0 [ONd (Arr2 2 [[Fin 1; Fin 2]; [Fin 3; Fin 4]])] = Some (probs, hp) /\
    hp !! probs = Some (ONd sm) /\
    softmax_with_cross_entropy 0 [0%Z; 1%Z]
      [ONd (Arr2 2 [[Fin 1; Fin 2]; [Fin 3; Fin 4]])] =
      Some ((loss, dprediction), h') /\
    h' !! dprediction = Some (ONd g) /\
    ndim g = 2 /\ shape2 g = (2, 2) /\
    forall i j, i < 2 -> j < 2 ->
      (Z.of_nat j = nth i [0%Z; 1%Z] 0%Z ->
       at2 g i j = fdiv (fsub (at2 sm i j) (Fin 1)) (of_nat 2)) /\
      (Z.of_nat j <> nth i [0%Z; 1%Z] 0%Z ->
       at2 g i j = fdiv (at2 sm i j) (of_nat 2)).
Proof.
  apply (softmax_with_cross_entropy_gradient
           [ONd (Arr2 2 [[Fin 1; Fin 2]; [Fin 3; Fin 4]])] 0
           (Arr2 2 [[Fin 1; Fin 2]; [Fin 3; Fin 4]]) [0%Z; 1%Z]).
  - reflexivity.
  - reflexivity.
  - simpl. lia.
  - split; [reflexivity | repeat constructor; simpl; lia].
Defined.


Lemma gradients_are_fresh_arrays_witness :
  (exists loss dprediction h',
      softmax_with_cross_entropy 0 [1%Z] [ONd (Arr1 [Fin 1; Fin 2])]
        = Some ((loss, dprediction), h') /\
      h' !! 0 = [ONd (Arr1 [Fin 1; Fin 2])] !! 0 /\
      dprediction <> 0 /\
      length [ONd (Arr1 [Fin 1; Fin 2])] <= dprediction /\
      heap_le [ONd (Arr1 [Fin 1; Fin 2])] h') /\
  (exists d_result h',
      ReLULayer.backward 0 2
        [OReLU (Some 1); ONd (Arr1 [Fin (-1); Fin 2]); ONd (Arr1 [Fin 5; Fin 6])]
        = Some (d_result, h') /\
      h' !! 2 =
        [OReLU (Some 1); ONd (Arr1 [Fin (-1); Fin 2]); ONd (Arr1 [Fin 5; Fin 6])] !! 2 /\
      d_result <> 2 /\
      length [OReLU (Some 1); ONd (Arr1 [Fin (-1); Fin 2]); ONd (Arr1 [Fin 5; Fin 6])]
        <= d_result /\
      heap_le [OReLU (Some 1); ONd (Arr1 [Fin (-1); Fin 2]); ONd (Arr1 [Fin 5; Fin 6])] h').
Proof.
  split.
  - destruct (softmax_with_cross_entropy_run [ONd (Arr1 [Fin 1; Fin 2])] 0
                (Arr1 [Fin 1; Fin 2]) [1%Z])
      as (d & g & h' & Hrun & _);
      [reflexivity | reflexivity | simpl; lia | repeat constructor; simpl; lia |].
    eexists _, d, h'. split; [exact Hrun |].
    exact (proj1 gradients_are_fresh_arrays _ _ _ _ _ _ Hrun).
  - destruct (ReLULayer_backward_run
                [OReLU (Some 1); ONd (Arr1 [Fin (-1); Fin 2]); ONd (Arr1 [Fin 5; Fin 6])]
                0 1 2 (Arr1 [Fin (-1); Fin 2]) (Arr1 [Fin 5; Fin 6]))
      as (d & out & h' & Hrun & _); try reflexivity.
    exists d, h'. split; [exact Hrun |].
    exact (proj2 gradients_are_fresh_arrays _ _ _ _ _ Hrun).
Defined.

(* ================================================================== *)
(** * Matrices *)

Lemma at2_tabulate2 c r (g : nat -> nat -> float) i j :
  i < r -> j < c -> at2 (Arr2 c (tabulate2 r c g)) i j = g i j.
Proof.
  intros Hi Hj. unfold at2, tabulate2.
  rewrite (nth_tabulate _ _ _ _ Hi). apply nth_tabulate, Hj.
Qed.

Lemma has_shape_tabulate2 r c (g : nat -> nat -> float) :
  has_shape (Arr2 c (tabulate2 r c g)) r c.
Proof.
  unfold has_shape, tabulate2. cbn [ndim shape2]. rewrite length_tabulate.
  repeat split. apply wf_array_intro. intros row Hrow.
  apply (In_nth _ _ []) in Hrow as (i & Hi & <-).
  rewrite length_tabulate in Hi. rewrite nth_tabulate by exact Hi.
  apply length_tabulate.
Qed.

Lemma has_shape_inv (a : farray) r c :
  has_shape a r c ->
  exists rows, a = Arr2 c rows /\ length rows = r /\
               wf_array (Arr2 c rows) = true.
Proof.
  intros (Hnd & Hsh & Hwf). destruct a as [v | nc rows]; [discriminate |].
  simpl in Hsh. injection Hsh as <- <-. exists rows. auto.
Qed.

Lemma has_shape_transpose (a : farray) r c :
  has_shape a r c ->
  has_shape (nd_transpose a) c r /\
  forall i j, i < c -> j < r -> at2 (nd_transpose a) i j = at2 a j i.
Proof.
  intros Ha. destruct (has_shape_inv a r c Ha) as (rows & -> & <- & Hwf).
  cbn [nd_transpose]. split; [apply has_shape_tabulate2 |].
  intros i j Hi Hj. rewrite at2_tabulate2 by assumption. reflexivity.
Qed.

Lemma nd_dot_shape (a b : farray) r n c :
  has_shape a r n -> has_shape b n c ->
  exists out, nd_dot a b = Some out /\ has_shape out r c /\
    forall i j, i < r -> j < c ->
      at2 out i j = fsum (tabulate n (fun k => fmul (at2 a i k) (at2 b k j))).
Proof.
  intros Ha Hb.
  destruct (has_shape_inv a r n Ha) as (ra & -> & <- & Hwa).
  destruct (has_shape_inv b n c Hb) as (rb & -> & <- & Hwb).
  cbn [nd_dot]. rewrite Nat.eqb_refl. eexists. split; [reflexivity |].
  split; [apply has_shape_tabulate2 |].
  intros i j Hi Hj. rewrite at2_tabulate2 by assumption. reflexivity.
Qed.

Lemma bdim_same n : bdim n n = Some n.
Proof. unfold bdim. rewrite Nat.eqb_refl. reflexivity. Qed.

Lemma bdim_one_r n : bdim n 1 = Some n.
Proof. unfold bdim. destruct (Nat.eqb_spec n 1) as [-> |]; reflexivity. Qed.

(** Two matrices of one shape. *)
Lemma nd_binop_same_shape f (a b : farray) r c :
  has_shape a r c -> has_shape b r c ->
  exists out, nd_binop f a b = Some out /\ has_shape out r c /\
    forall i j, i < r -> j < c -> at2 out i j = f (at2 a i j) (at2 b i j).
Proof.
  intros Ha Hb.
  destruct (has_shape_inv a r c Ha) as (ra & -> & <- & Hwa).
  destruct (has_shape_inv b (length ra) c Hb) as (rb & -> & Hlen & Hwb).
  unfold nd_binop. cbn [shape2]. rewrite Hlen, !bdim_same.
  eexists. split; [reflexivity |]. split; [apply has_shape_tabulate2 |].
  intros i j Hi Hj. rewrite at2_tabulate2 by assumption.
  rewrite !bidx_lt by assumption. reflexivity.
Qed.

(** A matrix and a one-row matrix: the row meets every row. *)
Lemma nd_binop_row f (a b : farray) r c :
  has_shape a r c -> has_shape b 1 c ->
  exists out, nd_binop f a b = Some out /\ has_shape out r c /\
    forall i j, i < r -> j < c -> at2 out i j = f (at2 a i j) (at2 b 0 j).
Proof.
  intros Ha Hb.
  destruct (has_shape_inv a r c Ha) as (ra & -> & <- & Hwa).
  destruct (has_shape_inv b 1 c Hb) as (rb & -> & Hlen & Hwb).
  unfold nd_binop. cbn [shape2]. rewrite Hlen, bdim_one_r, bdim_same.
  eexists. split; [reflexivity |]. split; [apply has_shape_tabulate2 |].
  intros i j Hi Hj. rewrite at2_tabulate2 by assumption.
  rewrite (bidx_lt (length ra) i), (bidx_lt c j) by assumption. reflexivity.
Qed.

(** A one-row matrix and a vector. *)
Lemma nd_binop_row_vector f (a : farray) (v : list float) c :
  has_shape a 1 c -> length v = c ->
  exists out, nd_binop f a (Arr1 v) = Some out /\ has_shape out 1 c /\
    forall j, j < c -> at2 out 0 j = f (at2 a 0 j) (nth j v NaN).
Proof.
  intros Ha Hv.
  destruct (has_shape_inv a 1 c Ha) as (ra & -> & Hlen & Hwa).
  unfold nd_binop. cbn [shape2]. rewrite Hlen, Hv, !bdim_same.
  eexists. split; [reflexivity |]. split; [apply has_shape_tabulate2 |].
  intros j Hj. rewrite at2_tabulate2 by (lia || assumption).
  rewrite (bidx_lt c j) by assumption. reflexivity.
Qed.

Lemma nd_ibinop_keeps_shape f (a b out : farray) r c :
  has_shape a r c -> nd_binop f a b = Some out -> has_shape out r c ->
  nd_ibinop f a b = Some out.
Proof.
  intros (Hnd & Hsh & _) Hop (Hnd' & Hsh' & _). unfold nd_ibinop.
  rewrite Hop, Hnd, Hnd', Hsh, Hsh'. simpl. rewrite !Nat.eqb_refl. reflexivity.
Qed.

Lemma map_as_tabulate {A B} (f : A -> B) (l : list A) d :
  map f l = tabulate (length l) (fun k => f (nth k l d)).
Proof.
  symmetry. apply (tabulate_ext_list _ _ _ (f d)).
  - apply length_map.
  - intros i Hi. symmetry. apply nth_map_lt, Hi.
Qed.

Lemma nd_sum_axis0_shape (a : farray) r c :
  has_shape a r c ->
  exists v, nd_sum_axis0 a = Some (Arr1 v) /\ length v = c /\
    forall j, j < c -> nth j v NaN = col_sum r a j.
Proof.
  intros Ha. destruct (has_shape_inv a r c Ha) as (rows & -> & <- & Hwf).
  cbn [nd_sum_axis0]. eexists. split; [reflexivity |].
  split; [apply length_tabulate |].
  intros j Hj. rewrite nth_tabulate by exact Hj. unfold col_sum. f_equal.
  apply (map_as_tabulate (fun r => nth j r NaN) rows []).
Qed.

(** * FullyConnectedLayer *)

Lemma fc_forward_nd_shape (x w b : farray) batch n_in n_out :
  has_shape x batch n_in -> has_shape w n_in n_out -> has_shape b 1 n_out ->
  exists out, fc_forward_nd x w b = Some out /\ has_shape out batch n_out /\
    forall i j, i < batch -> j < n_out ->
      at2 out i j =
        fadd (fsum (tabulate n_in (fun k => fmul (at2 x i k) (at2 w k j))))
             (at2 b 0 j).
Proof.
  intros Hx Hw Hb. unfold fc_forward_nd.
  destruct (nd_dot_shape x w batch n_in n_out Hx Hw) as (xw & -> & Hxw & Hat).
  destruct (nd_binop_row fadd xw b batch n_out Hxw Hb) as (out & Hout & Hsh & Hat').
  exists out. split; [exact Hout |]. split; [exact Hsh |].
  intros i j Hi Hj. rewrite Hat', Hat by assumption. reflexivity.
Qed.

Lemma fc_backward_dW_shape (x d gw : farray) batch n_in n_out :
  has_shape x batch n_in -> has_shape d batch n_out ->
  has_shape gw n_in n_out ->
  exists gw', fc_backward_dW x d gw = Some gw' /\ has_shape gw' n_in n_out /\
    forall i j, i < n_in -> j < n_out ->
      at2 gw' i j = fadd (at2 gw i j) (dot_cols batch x d i j).
Proof.
  intros Hx Hd Hgw. unfold fc_backward_dW.
  destruct (has_shape_transpose x batch n_in Hx) as [Hxt Hxt_at].
  destruct (nd_dot_shape _ d n_in batch n_out Hxt Hd) as (t & -> & Ht & Hat).
  destruct (nd_binop_same_shape fadd gw t n_in n_out Hgw Ht)
    as (gw' & Hop & Hsh & Hat').
  exists gw'. split; [eapply nd_ibinop_keeps_shape; eassumption |].
  split; [exact Hsh |].
  intros i j Hi Hj. rewrite Hat', Hat by assumption. unfold dot_cols.
  do 2 f_equal. unfold tabulate. apply map_ext_in. intros k Hk.
  apply in_seq in Hk. rewrite Hxt_at by lia. reflexivity.
Qed.

Lemma fc_backward_dB_shape (d gb : farray) batch n_out :
  has_shape d batch n_out -> has_shape gb 1 n_out ->
  exists gb', fc_backward_dB d gb = Some gb' /\ has_shape gb' 1 n_out /\
    forall j, j < n_out -> at2 gb' 0 j = fadd (at2 gb 0 j) (col_sum batch d j).
Proof.
  intros Hd Hgb. unfold fc_backward_dB.
  destruct (nd_sum_axis0_shape d batch n_out Hd) as (v & -> & Hlen & Hv).
  destruct (nd_binop_row_vector fadd gb v n_out Hgb Hlen) as (gb' & Hop & Hsh & Hat).
  exists gb'. split; [eapply nd_ibinop_keeps_shape; eassumption |].
  split; [exact Hsh |].
  intros j Hj. rewrite Hat, Hv by assumption. reflexivity.
Qed.

Lemma fc_backward_dX_shape (d w : farray) batch n_in n_out :
  has_shape d batch n_out -> has_shape w n_in n_out ->
  exists dx, fc_backward_dX d w = Some dx /\ has_shape dx batch n_in /\
    forall i j, i < batch -> j < n_in -> at2 dx i j = dot_rows n_out d w i j.
Proof.
  intros Hd Hw. unfold fc_backward_dX.
  destruct (has_shape_transpose w n_in n_out Hw) as [Hwt Hwt_at].
  destruct (nd_dot_shape d _ batch n_out n_in Hd Hwt) as (dx & -> & Hdx & Hat).
  exists dx. split; [reflexivity |]. split; [exact Hdx |].
  intros i j Hi Hj. rewrite Hat by assumption. unfold dot_rows.
  f_equal. unfold tabulate. apply map_ext_in. intros k Hk.
  apply in_seq in Hk. rewrite Hwt_at by lia. reflexivity.
Qed.

Lemma heap_le_except_nil h h' : heap_le h h' -> heap_le_except [] h h'.
Proof.
  intros Hle. split; [apply heap_le_length, Hle |]. intros l o _. apply Hle.
Qed.

Lemma option_bind_Some {A B} (o : option A) (k : A -> option B) (b : B) :
  o ≫= k = Some b -> exists a, o = Some a /\ k a = Some b.
Proof. destruct o as [a |]; [| discriminate]. intros H. exists a. auto. Qed.

Lemma FullyConnectedLayer_backward_run (h : heap)
    (self W B X d_out wv wg bv bg : loc) (x w gw gb d gw' gb' dx : farray) :
  h !! self = Some (OFC W B (Some X)) ->
  h !! W = Some (OParam wv wg) -> h !! B = Some (OParam bv bg) ->
  h !! X = Some (ONd x) -> h !! wv = Some (ONd w) ->
  h !! wg = Some (ONd gw) -> h !! bg = Some (ONd gb) ->
  h !! d_out = Some (ONd d) ->
  wg <> bg -> wg <> d_out -> wg <> wv -> bg <> d_out -> bg <> wv ->
  fc_backward_dW x d gw = Some gw' ->
  fc_backward_dB d gb = Some gb' ->
  fc_backward_dX d w = Some dx ->
  exists d_result h',
    FullyConnectedLayer.backward self d_out h = Some (d_result, h') /\
    h' !! d_result = Some (ONd dx) /\
    h' !! wg = Some (ONd gw') /\ h' !! bg = Some (ONd gb') /\
    length h <= d_result /\ heap_le_except [wg; bg] h h' /\
    heap_le_kind is_array h h'.
Proof.
  intros Hself HW HB HX Hwv Hwg Hbg Hd Hn1 Hn2 Hn3 Hn4 Hn5 HdW HdB HdX.
  unfold fc_backward_dW in HdW. apply option_bind_Some in HdW as (t & Ht & HdW).
  unfold fc_backward_dB in HdB. apply option_bind_Some in HdB as (s & Hs & HdB).
  unfold fc_backward_dX in HdX.
  assert (Hrun : wp (FullyConnectedLayer.backward self d_out) h (fun r h' =>
            h' !! r = Some (ONd dx) /\
            h' !! wg = Some (ONd gw') /\ h' !! bg = Some (ONd gb') /\
            length h <= r /\ heap_le_except [wg; bg] h h' /\
            heap_le_kind is_array h h')).
  { unfold FullyConnectedLayer.backward, FullyConnectedLayer.get_W,
      FullyConnectedLayer.get_B, FullyConnectedLayer.get_X,
      Param_grad, Param_value.
    wp_go.
    split; [lookup |]. split; [lookup |]. split; [lookup |].
    split; [heap_lengths |]. split; [split; [heap_lengths |] |].
    - intros l o Hnin Hl.
      assert (l <> wg /\ l <> bg) as [Hlw Hlb].
      { split; intros ->; apply Hnin; simpl; auto. }
      lookup.
    - intros l o Hk Hl.
      assert (l <> wg /\ l <> bg) as [Hlw Hlb].
      { split; intros ->; apply Hk; [rewrite Hwg in Hl | rewrite Hbg in Hl];
          injection Hl as <-; exact I. }
      lookup. }
  destruct Hrun as (r & h' & Hrun & H1 & H2 & H3 & H4 & H5 & H6).
  exists r, h'. auto 10.
Qed.

(** C4: after [forward(X)], [backward(d_out)] adds [X^T . d_out] to the
    array [W.grad] and the column sums of [d_out] to the array [B.grad],
    in place, and returns [d_out . W^T].  The two gradient arrays are
    distinct from each other and from [d_out] and [W.value]. *)
Theorem FullyConnectedLayer_backward_spec (h : heap)
    (self W B X d_out wv wg bv bg : loc) (x w gw gb d : farray)
    (batch n_in n_out : nat) :
  h !! self = Some (OFC W B (Some X)) ->
  h !! W = Some (OParam wv wg) -> h !! B = Some (OParam bv bg) ->
  h !! X = Some (ONd x) -> h !! wv = Some (ONd w) ->
  h !! wg = Some (ONd gw) -> h !! bg = Some (ONd gb) ->
  h !! d_out = Some (ONd d) ->
  wg <> bg -> wg <> d_out -> wg <> wv -> bg <> d_out -> bg <> wv ->
  has_shape x batch n_in -> has_shape w n_in n_out ->
  has_shape gw n_in n_out -> has_shape gb 1 n_out ->
  has_shape d batch n_out ->
  exists d_result h' gw' gb' dx,
    FullyConnectedLayer.backward self d_out h = Some (d_result, h') /\
    h' !! wg = Some (ONd gw') /\ h' !! bg = Some (ONd gb') /\
    h' !! d_result = Some (ONd dx) /\
    has_shape gw' n_in n_out /\ has_shape gb' 1 n_out /\
    has_shape dx batch n_in /\
    (forall i j, i < n_in -> j < n_out ->
       at2 gw' i j = fadd (at2 gw i j) (dot_cols batch x d i j)) /\
    (forall j, j < n_out ->
       at2 gb' 0 j = fadd (at2 gb 0 j) (col_sum batch d j)) /\
    (forall i j, i < batch -> j < n_in ->
       at2 dx i j = dot_rows n_out d w i j).
Proof.
  intros Hself HW HB HX Hwv Hwg Hbg Hd Hn1 Hn2 Hn3 Hn4 Hn5 Sx Sw Sgw Sgb Sd.
  destruct (fc_backward_dW_shape x d gw batch n_in n_out Sx Sd Sgw)
    as (gw' & HdW & Sgw' & Hgw').
  destruct (fc_backward_dB_shape d gb batch n_out Sd Sgb)
    as (gb' & HdB & Sgb' & Hgb').
  destruct (fc_backward_dX_shape d w batch n_in n_out Sd Sw)
    as (dx & HdX & Sdx & Hdx).
  destruct (FullyConnectedLayer_backward_run h self W B X d_out wv wg bv bg
              x w gw gb d gw' gb' dx) as (r & h' & Hrun & Hr & Hg1 & Hg2 & _);
    try assumption.
  exists r, h', gw', gb', dx. auto 12.
Qed.

Lemma FullyConnectedLayer_backward_spec_witness :
  exists d_result h' gw' gb' dx,
    FullyConnectedLayer.backward 0 8
      [OFC 1 2 (Some 3); OParam 4 5; OParam 6 7;
       ONd (Arr2 2 [[Fin 1; Fin 2]]); ONd (Arr2 1 [[Fin 3]; [Fin 4]]);
       ONd (Arr2 1 [[Fin 0]; [Fin 0]]); ONd (Arr2 1 [[Fin 5]]);
       ONd (Arr2 1 [[Fin 0]]); ONd (Arr2 1 [[Fin 7]])]
      = Some (d_result, h') /\
    h' !! 5 = Some (ONd gw') /\ h' !! 7 = Some (ONd gb') /\
    h' !! d_result = Some (ONd dx) /\
    has_shape gw' 2 1 /\ has_shape gb' 1 1 /\ has_shape dx 1 2 /\
    (forall i j, i < 2 -> j < 1 ->
       at2 gw' i j = fadd (at2 (Arr2 1 [[Fin 0]; [Fin 0]]) i j)
                          (dot_cols 1 (Arr2 2 [[Fin 1; Fin 2]]) (Arr2 1 [[Fin 7]]) i j)) /\
    (forall j, j < 1 ->
       at2 gb' 0 j = fadd (at2 (Arr2 1 [[Fin 0]]) 0 j)
                          (col_sum 1 (Arr2 1 [[Fin 7]]) j)) /\
    (forall i j, i < 1 -> j < 2 ->
       at2 dx i j = dot_rows 1 (Arr2 1 [[Fin 7]]) (Arr2 1 [[Fin 3]; [Fin 4]]) i j).
Proof.
  apply (FullyConnectedLayer_backward_spec
           [OFC 1 2 (Some 3); OParam 4 5; OParam 6 7;
            ONd (Arr2 2 [[Fin 1; Fin 2]]); ONd (Arr2 1 [[Fin 3]; [Fin 4]]);
            ONd (Arr2 1 [[Fin 0]; [Fin 0]]); ONd (Arr2 1 [[Fin 5]]);
            ONd (Arr2 1 [[Fin 0]]); ONd (Arr2 1 [[Fin 7]])]
           0 1 2 3 8 4 5 6 7
           (Arr2 2 [[Fin 1; Fin 2]]) (Arr2 1 [[Fin 3]; [Fin 4]])
           (Arr2 1 [[Fin 0]; [Fin 0]]) (Arr2 1 [[Fin 0]]) (Arr2 1 [[Fin 7]])
           1 2 1);
    first [ reflexivity | lia | (repeat split; reflexivity) ].
Defined.


(** * Arrays are determined by their entries *)

Lemma list_ext_nth {A} (l1 l2 : list A) d :
  length l1 = length l2 ->
  (forall i, i < length l1 -> nth i l1 d = nth i l2 d) -> l1 = l2.
Proof. intros Hlen H. apply (nth_ext _ _ d d); assumption. Qed.

Lemma array_ext (a b : farray) :
  ndim a = ndim b -> shape2 a = shape2 b ->
  wf_array a = true -> wf_array b = true ->
  (forall i j, i < fst (shape2 a) -> j < snd (shape2 a) ->
     at2 a i j = at2 b i j) ->
  a = b.
Proof.
  destruct a as [v | nc rows], b as [v' | nc' rows']; try discriminate; simpl.
  - intros _ [= Hlen] _ _ H. f_equal.
    apply (list_ext_nth _ _ NaN Hlen). intros j Hj. apply (H 0); lia.
  - intros _ [= Hlen ->] Hwf Hwf' H. f_equal.
    apply (list_ext_nth _ _ [] Hlen). intros i Hi.
    pose proof (wf_array_row nc' rows i Hwf Hi) as Hr.
    pose proof (wf_array_row nc' rows' i Hwf' ltac:(lia)) as Hr'.
    apply (list_ext_nth _ _ NaN); [congruence |].
    intros j Hj. apply H; lia.
Qed.

Lemma swce_gradient_unique (sm g g' : farray) (t : list Z) :
  swce_gradient sm g t -> swce_gradient sm g' t -> g = g'.
Proof.
  intros (Hnd & Hsh & Hwf & H) (Hnd' & Hsh' & Hwf' & H').
  apply array_ext; try congruence.
  rewrite Hsh. intros i j Hi Hj. destruct sm as [v | nc rows]; simpl in Hi, Hj.
  - assert (i = 0) as -> by lia.
    destruct (H j Hj) as [Hin Hout], (H' j Hj) as [Hin' Hout'].
    destruct (in_dec Z.eq_dec (Z.of_nat j) t) as [Hi' | Hni].
    + rewrite Hin, Hin' by assumption. reflexivity.
    + rewrite Hout, Hout' by assumption. reflexivity.
  - destruct (H i j Hi Hj) as [Hin Hout], (H' i j Hi Hj) as [Hin' Hout'].
    destruct (Z.eq_dec (Z.of_nat j) (nth i t 0%Z)) as [He | Hne].
    + rewrite Hin, Hin' by assumption. reflexivity.
    + rewrite Hout, Hout' by assumption. reflexivity.
Qed.

(** * The layers, in continuation style *)

Lemma wp_Layer_forward_fc (h : heap) (self W B X wv wg bv bg : loc) X0
    (x w b out : farray) Q :
  h !! self = Some (OFC W B X0) ->
  h !! W = Some (OParam wv wg) -> h !! B = Some (OParam bv bg) ->
  h !! X = Some (ONd x) -> h !! wv = Some (ONd w) -> h !! bv = Some (ONd b) ->
  fc_forward_nd x w b = Some out ->
  (forall r h', h' !! r = Some (ONd out) -> length h <= r ->
                h' !! self = Some (OFC W B (Some X)) ->
                heap_le_except [self] h h' -> heap_le_kind is_layer h h' ->
                Q r h') ->
  wp (Layer.forward self X) h Q.
Proof.
  intros Hself HW HB HX Hwv Hbv Hfwd HQ.
  unfold fc_forward_nd in Hfwd. apply option_bind_Some in Hfwd as (xw & Hxw & Hadd).
  unfold Layer.forward. do 2 wp_step.
  unfold FullyConnectedLayer.forward, Param_value. wp_go.
  apply HQ.
  - lookup.
  - heap_lengths.
  - lookup.
  - split; [heap_lengths |]. intros l o Hnin Hl.
    assert (l <> self) by (intros ->; apply Hnin; simpl; auto).
    lookup.
  - eapply heap_le_kind_trans; [eapply heap_le_kind_store; [exact Hself | exact I] |].
    apply heap_le_kind_of_le.
    eapply heap_le_trans; apply heap_le_alloc.
Qed.

Lemma wp_Layer_forward_relu (h : heap) (self X : loc) X0 (x : farray) Q :
  h !! self = Some (OReLU X0) -> h !! X = Some (ONd x) ->
  (forall r h', h' !! r = Some (ONd (relu_forward_nd x)) -> length h <= r ->
                h' !! self = Some (OReLU (Some X)) ->
                heap_le_except [self] h h' -> heap_le_kind is_layer h h' ->
                Q r h') ->
  wp (Layer.forward self X) h Q.
Proof.
  intros Hself HX HQ.
  unfold Layer.forward. do 2 wp_step.
  unfold ReLULayer.forward. wp_go.
  apply HQ.
  - lookup.
  - heap_lengths.
  - lookup.
  - split; [heap_lengths |]. intros l o Hnin Hl.
    assert (l <> self) by (intros ->; apply Hnin; simpl; auto).
    lookup.
  - eapply heap_le_kind_trans; [eapply heap_le_kind_store; [exact Hself | exact I] |].
    apply heap_le_kind_of_le, heap_le_alloc.
Qed.

Lemma wp_Layer_backward_fc (h : heap)
    (self W B X d_out wv wg bv bg : loc) (x w gw gb d gw' gb' dx : farray) Q :
  h !! self = Some (OFC W B (Some X)) ->
  h !! W = Some (OParam wv wg) -> h !! B = Some (OParam bv bg) ->
  h !! X = Some (ONd x) -> h !! wv = Some (ONd w) ->
  h !! wg = Some (ONd gw) -> h !! bg = Some (ONd gb) ->
  h !! d_out = Some (ONd d) ->
  wg <> bg -> wg <> d_out -> wg <> wv -> bg <> d_out -> bg <> wv ->
  fc_backward_dW x d gw = Some gw' ->
  fc_backward_dB d gb = Some gb' ->
  fc_backward_dX d w = Some dx ->
  (forall r h', h' !! r = Some (ONd dx) ->
                h' !! wg = Some (ONd gw') -> h' !! bg = Some (ONd gb') ->
                length h <= r -> heap_le_except [wg; bg] h h' ->
                heap_le_kind is_array h h' -> Q r h') ->
  wp (Layer.backward self d_out) h Q.
Proof.
  intros Hself HW HB HX Hwv Hwg Hbg Hd Hn1 Hn2 Hn3 Hn4 Hn5 HdW HdB HdX HQ.
  destruct (FullyConnectedLayer_backward_run h self W B X d_out wv wg bv bg
              x w gw gb d gw' gb' dx)
    as (r & h' & Hrun & H1 & H2 & H3 & H4 & H5 & H6);
    try assumption.
  unfold Layer.backward. do 2 wp_step.
  eapply wp_run; [exact Hrun |]. apply HQ; assumption.
Qed.

Lemma wp_Layer_backward_relu (h : heap) (self X d_out : loc)
    (x d out : farray) Q :
  h !! self = Some (OReLU (Some X)) ->
  h !! X = Some (ONd x) -> h !! d_out = Some (ONd d) ->
  relu_backward_nd x d = Some out ->
  (forall r h', h' !! r = Some (ONd out) -> length h <= r ->
                heap_le h h' -> Q r h') ->
  wp (Layer.backward self d_out) h Q.
Proof.
  intros Hself HX Hd Hval HQ.
  unfold Layer.backward. do 2 wp_step.
  assert (Hwp : wp (ReLULayer.backward self d_out) h
                  (fun r h' => h' !! r = Some (ONd out))).
  { unfold ReLULayer.backward, ReLULayer.get_X. wp_go. lookup. }
  destruct Hwp as (r & h' & Hrun & Hr).
  eapply wp_run; [exact Hrun |]. apply HQ; [exact Hr | |].
  - eapply ReLULayer_backward_fresh; [apply heap_le_refl | exact Hrun].
  - eapply ReLULayer_backward_preserves; [apply heap_le_refl | exact Hrun].
Qed.

Lemma wp_l2_regularization (h : heap) (W : loc) (w : farray) (reg : float) Q :
  h !! W = Some (ONd w) ->
  (forall g h', h' !! g = Some (ONd (l2_grad reg w)) -> length h <= g ->
                heap_le h h' -> Q (l2_loss reg w, g) h') ->
  wp (l2_regularization W reg) h Q.
Proof.
  intros HW HQ. unfold l2_regularization, np.square, np.rmul. wp_go.
  unfold nd_sum. rewrite ravel_nd_map. apply HQ.
  - lookup.
  - heap_lengths.
  - eapply heap_le_trans; apply heap_le_alloc.
Qed.

(** * TwoLayerNet *)

Lemma NoDup_4 {A} (a b c d : A) :
  NoDup [a; b; c; d] ->
  a <> b /\ a <> c /\ a <> d /\ b <> c /\ b <> d /\ c <> d.
Proof.
  intros H.
  apply NoDup_cons in H as [Ha H]. apply NoDup_cons in H as [Hb H].
  apply NoDup_cons in H as [Hc _].
  repeat split; intros ->.
  - apply Ha. left.
  - apply Ha. right. left.
  - apply Ha. do 2 right. left.
  - apply Hb. left.
  - apply Hb. right. left.
  - apply Hc. left.
Qed.

Lemma wp_TwoLayerNet_params (h : heap) (net : TwoLayerNet.t) (L : net_layout)
    X0 X1 X2 Q :
  TwoLayerNet.layers net = [fc0 L; relu1 L; fc2 L] ->
  h !! fc0 L = Some (OFC (pW0 L) (pB0 L) X0) ->
  h !! relu1 L = Some (OReLU X1) ->
  h !! fc2 L = Some (OFC (pW2 L) (pB2 L) X2) ->
  Q [("W_0"%string, pW0 L); ("B_0"%string, pB0 L);
     ("W_2"%string, pW2 L); ("B_2"%string, pB2 L)] h ->
  wp (TwoLayerNet.params net) h Q.
Proof.
  intros Hlayers H0 H1 H2 HQ.
  unfold TwoLayerNet.params. rewrite Hlayers. cbn [imap fold_each compose].
  unfold Layer.params, FullyConnectedLayer.params, ReLULayer.params,
    FullyConnectedLayer.get_W, FullyConnectedLayer.get_B.
  wp_go.
Qed.

Lemma wp_zero_grads (h : heap) (L : net_layout) (V : net_values)
    g0 g1 g2 g3 Q :
  NoDup [pW0 L; pB0 L; pW2 L; pB2 L] ->
  h !! pW0 L = Some (OParam (aW0 L) g0) ->
  h !! pB0 L = Some (OParam (aB0 L) g1) ->
  h !! pW2 L = Some (OParam (aW2 L) g2) ->
  h !! pB2 L = Some (OParam (aB2 L) g3) ->
  h !! aW0 L = Some (ONd (vW0 V)) -> h !! aB0 L = Some (ONd (vB0 V)) ->
  h !! aW2 L = Some (ONd (vW2 V)) -> h !! aB2 L = Some (ONd (vB2 V)) ->
  (forall h1 z0 z1 z2 z3,
      h1 !! pW0 L = Some (OParam (aW0 L) z0) ->
      h1 !! pB0 L = Some (OParam (aB0 L) z1) ->
      h1 !! pW2 L = Some (OParam (aW2 L) z2) ->
      h1 !! pB2 L = Some (OParam (aB2 L) z3) ->
      h1 !! z0 = Some (ONd (nd_zeros_like (vW0 V))) ->
      h1 !! z1 = Some (ONd (nd_zeros_like (vB0 V))) ->
      h1 !! z2 = Some (ONd (nd_zeros_like (vW2 V))) ->
      h1 !! z3 = Some (ONd (nd_zeros_like (vB2 V))) ->
      length h <= z0 -> z0 < z1 -> z1 < z2 -> z2 < z3 ->
      heap_le_except [pW0 L; pB0 L; pW2 L; pB2 L] h h1 ->
      heap_le_kind is_param h h1 ->
      Q tt h1) ->
  wp (for_each [pW0 L; pB0 L; pW2 L; pB2 L] (fun param =>
        v <- Param_value param ;;
        z <- np.zeros_like v ;;
        Param_set_grad param z)) h Q.
Proof.
  intros Hnd HW0 HB0 HW2 HB2 HaW0 HaB0 HaW2 HaB2 HQ.
  apply NoDup_4 in Hnd as (N1 & N2 & N3 & N4 & N5 & N6).
  cbn [for_each]. unfold Param_value, Param_set_grad, np.zeros_like.
  wp_go.
  eapply HQ.
  - lookup.
  - lookup.
  - lookup.
  - lookup.
  - lookup.
  - lookup.
  - lookup.
  - lookup.
  - heap_lengths.
  - heap_lengths.
  - heap_lengths.
  - heap_lengths.
  - split; [heap_lengths |]. intros l o Hnin Hl.
    assert (l <> pW0 L /\ l <> pB0 L /\ l <> pW2 L /\ l <> pB2 L)
      as (M1 & M2 & M3 & M4).
    { repeat split; intros ->; apply Hnin; simpl; auto. }
    lookup.
  - intros l o Hk Hl.
    assert (l <> pW0 L /\ l <> pB0 L /\ l <> pW2 L /\ l <> pB2 L)
      as (M1 & M2 & M3 & M4).
    { repeat split; intros ->; apply Hk;
        [rewrite HW0 in Hl | rewrite HB0 in Hl | rewrite HW2 in Hl
        | rewrite HB2 in Hl]; injection Hl as <-; exact I. }
    lookup.
Qed.

Lemma wp_softmax_with_cross_entropy (h : heap) (p : loc) (a : farray)
    (t : list Z) Q :
  h !! p = Some (ONd a) ->
  wf_array a = true -> 0 < snd (shape2 a) -> valid_targets a t ->
  (forall d g h', h' !! d = Some (ONd g) ->
                  swce_gradient (softmax_nd a) g t ->
                  heap_le h h' -> length h <= d ->
                  Q (ce_loss (softmax_nd a) t, d) h') ->
  wp (softmax_with_cross_entropy p t) h Q.
Proof.
  intros Hp Hwf Hnc Ht HQ.
  destruct (softmax_with_cross_entropy_run h p a t Hp Hwf Hnc Ht)
    as (d & g & h' & Hrun & Hd & Hg & Hle & Hfr).
  eapply wp_run; [exact Hrun |]. eapply HQ; eassumption.
Qed.

Lemma dict_get_W_fc (W B : loc) :
  dict_get "W"%string (dict_set "B"%string B (dict_set "W"%string W [])) = Some W.
Proof. reflexivity. Qed.

Lemma compute_loss_and_gradients_run (h : heap) (net : TwoLayerNet.t)
    (L : net_layout) (V : net_values) (n_in hid n_out : nat)
    (X : loc) (x : farray) (y : list Z) (T : net_trace) :
  net_in_heap h net L V n_in hid n_out ->
  h !! X = Some (ONd x) ->
  wf_array (t_out T) = true -> 0 < snd (shape2 (t_out T)) ->
  valid_targets (t_out T) y ->
  net_outcome (TwoLayerNet.reg net) x y V T ->
  wp (TwoLayerNet.compute_loss_and_gradients net X y) h (fun loss h' =>
    loss = t_loss T /\
    grad_after h h' (pW0 L) (t_gW0 T) /\ grad_after h h' (pB0 L) (t_gB0 T) /\
    grad_after h h' (pW2 L) (t_gW2 T) /\ grad_after h h' (pB2 L) (t_gB2 T) /\
    net_in_heap h' net L V n_in hid n_out /\
    h' !! X = Some (ONd x) /\
    heap_le_except [fc0 L; relu1 L; fc2 L; pW0 L; pB0 L; pW2 L; pB2 L] h h').
Proof.
  intros Hnet HX Hwfo Hnco Hty Hout.
  unfold net_in_heap in Hnet. unfold net_outcome in Hout.
  destruct Hnet as (Hlayers & Hl02 & Hnd & [X0 Hfc0] & [X1 Hrelu] & [X2 Hfc2]
    & [g0 HpW0] & [g1 HpB0] & [g2 HpW2] & [g3 HpB2]
    & HaW0 & HaB0 & HaW2 & HaB2 & SW0 & SB0 & SW2 & SB2).
  destruct Hout as (Ha0 & Hfo & Hg & (r2 & Hr2 & HgW2) & HgB2 & Hd1 & Hd0
    & (r0 & Hr0 & HgW0) & HgB0 & Hdx & Hloss).
  pose proof (NoDup_4 _ _ _ _ Hnd) as (N1 & N2 & N3 & N4 & N5 & N6).
  note_lengths.
  unfold TwoLayerNet.compute_loss_and_gradients.
  (* the parameters are collected and their gradients zeroed *)
  wp_step. eapply wp_TwoLayerNet_params; try eassumption.
  wp_step. cbn [dict_values map snd].
  eapply (wp_zero_grads h L V); try eassumption.
  intros h1 z0 z1 z2 z3 H1W0 H1B0 H1W2 H1B2 Hz0 Hz1 Hz2 Hz3 Fz0 Fz1 Fz2 Fz3 E1 K1.
  note_lengths.
  (* the forward pass *)
  do 2 wp_step. { reflexivity. }
  rewrite Hlayers. cbn [fold_each].
  do 2 wp_step.
  eapply wp_Layer_forward_fc; [lookup | lookup | lookup | lookup | lookup | lookup
                              | exact Ha0 |].
  intros c0 h2 Hc0 Fc0 H2fc0 E2 K2.
  note_lengths.
  wp_step.
  eapply wp_Layer_forward_relu; [lookup | lookup |].
  intros c1 h3 Hc1 Fc1 H3relu E3 K3.
  note_lengths.
  wp_step.
  eapply wp_Layer_forward_fc; [lookup | lookup | lookup | lookup | lookup | lookup
                              | exact Hfo |].
  intros c2 h4 Hc2 Fc2 H4fc2 E4 K4.
  note_lengths.
  wp_step.
  (* the loss and its gradient *)
  wp_step.
  eapply wp_softmax_with_cross_entropy; [lookup | assumption | assumption | assumption |].
  intros d g h5 Hd Hg' E5 Fd.
  note_lengths.
  assert (g = t_g T) as -> by (eapply swce_gradient_unique; eassumption).
  (* the backward pass: the second fully connected layer *)
  cbn [rev app fold_each].
  do 2 wp_step.
  unfold Layer.params, FullyConnectedLayer.params, ReLULayer.params,
    FullyConnectedLayer.get_W, FullyConnectedLayer.get_B.
  wp_go.
  rewrite dict_get_W_fc. unfold Param_value, Param_grad. wp_go.
  eapply wp_l2_regularization; [lookup |].
  intros q2 h6 Hq2 Fq2 E6.
  note_lengths.
  wp_go.
  set (h7 := <[z2 := ONd r2]> h6).
  assert (E7 : heap_le_except [z2] h6 h7).
  { subst h7. split; [rewrite length_insert; lia |]. intros l o Hnin Hl.
    assert (l <> z2) by (intros ->; apply Hnin; simpl; auto).
    rewrite list_lookup_insert_ne by congruence. exact Hl. }
  assert (H7z2 : h7 !! z2 = Some (ONd r2)) by (subst h7; eapply lookup_store_same; lookup).
  assert (K7 : heap_le_kind is_array h6 h7).
  { subst h7. eapply heap_le_kind_store; [lookup | exact I]. }
  clearbody h7. note_lengths.
  eapply wp_Layer_backward_fc with (wg := z2) (bg := z3);
    [lookup | lookup | lookup | lookup | lookup | lookup | lookup | lookup
    | loc_neq | loc_neq | loc_neq | loc_neq | loc_neq
    | exact HgW2 | exact HgB2 | exact Hd1 |].
  intros e2 h8 He2 H8z2 H8z3 Fe2 E8 K8.
  note_lengths.
  (* the ReLU layer *)
  wp_go. cbn [dict_get]. wp_go.
  eapply wp_Layer_backward_relu; [lookup | lookup | lookup | exact Hd0 |].
  intros e1 h9 He1 Fe1 E9.
  note_lengths.
  (* the first fully connected layer *)
  wp_go. rewrite dict_get_W_fc. wp_go.
  eapply wp_l2_regularization; [lookup |].
  intros q0 h10 Hq0 Fq0 E10.
  note_lengths.
  wp_go.
  set (h11 := <[z0 := ONd r0]> h10).
  assert (E11 : heap_le_except [z0] h10 h11).
  { subst h11. split; [rewrite length_insert; lia |]. intros l o Hnin Hl.
    assert (l <> z0) by (intros ->; apply Hnin; simpl; auto).
    rewrite list_lookup_insert_ne by congruence. exact Hl. }
  assert (H11z0 : h11 !! z0 = Some (ONd r0)) by (subst h11; eapply lookup_store_same; lookup).
  assert (K11 : heap_le_kind is_array h10 h11).
  { subst h11. eapply heap_le_kind_store; [lookup | exact I]. }
  clearbody h11. note_lengths.
  eapply wp_Layer_backward_fc with (wg := z0) (bg := z1);
    [lookup | lookup | lookup | lookup | lookup | lookup | lookup | lookup
    | loc_neq | loc_neq | loc_neq | loc_neq | loc_neq
    | exact HgW0 | exact HgB0 | exact Hdx |].
  intros e0 h12 He0 H12z0 H12z1 Fe0 E12 K12.
  note_lengths.
  wp_go.
  assert (F : heap_le_except
                [fc0 L; relu1 L; fc2 L; pW0 L; pB0 L; pW2 L; pB2 L] h h12).
  { split; [lia |]. intros l o Hnin Hl.
    assert (l <> fc0 L /\ l <> relu1 L /\ l <> fc2 L /\ l <> pW0 L /\
            l <> pB0 L /\ l <> pW2 L /\ l <> pB2 L)
      as (M1 & M2 & M3 & M4 & M5 & M6 & M7).
    { repeat split; intros ->; apply Hnin; simpl; auto 10. }
    pose proof (lookup_lt_Some _ _ _ Hl). lookup. }
  assert (G0 : h12 !! pW0 L = Some (OParam (aW0 L) z0)) by lookup.
  assert (G1 : h12 !! pB0 L = Some (OParam (aB0 L) z1)) by lookup.
  assert (G2 : h12 !! pW2 L = Some (OParam (aW2 L) z2)) by lookup.
  assert (G3 : h12 !! pB2 L = Some (OParam (aB2 L) z3)) by lookup.
  assert (Z2 : h12 !! z2 = Some (ONd (t_gW2 T))) by lookup.
  assert (Z3 : h12 !! z3 = Some (ONd (t_gB2 T))) by lookup.
  assert (J0 : exists c, h12 !! fc0 L = Some (OFC (pW0 L) (pB0 L) c))
    by (eexists; lookup).
  assert (J1 : exists c, h12 !! relu1 L = Some (OReLU c)) by (eexists; lookup).
  assert (J2 : exists c, h12 !! fc2 L = Some (OFC (pW2 L) (pB2 L) c))
    by (eexists; lookup).
  split; [simpl; symmetry; exact Hloss |].
  split; [exists (aW0 L), z0; repeat split; first [assumption | lia] |].
  split; [exists (aB0 L), z1; repeat split; first [assumption | lia] |].
  split; [exists (aW2 L), z2; repeat split; first [assumption | lia] |].
  split; [exists (aB2 L), z3; repeat split; first [assumption | lia] |].
  assert (A0 : h12 !! aW0 L = Some (ONd (vW0 V))) by lookup.
  assert (A1 : h12 !! aB0 L = Some (ONd (vB0 V))) by lookup.
  assert (A2 : h12 !! aW2 L = Some (ONd (vW2 V))) by lookup.
  assert (A3 : h12 !! aB2 L = Some (ONd (vB2 V))) by lookup.
  assert (AX : h12 !! X = Some (ONd x)) by lookup.
  split; [| split; [exact AX | exact F]].
  destruct SW0 as (? & ? & ?), SB0 as (? & ? & ?), SW2 as (? & ? & ?),
    SB2 as (? & ? & ?).
  unfold net_in_heap, has_shape. repeat split; first [assumption | eauto].
Qed.

(** * The values a call computes exist *)

Lemma at2_nd_map (f : float -> float) (a : farray) r c i j :
  has_shape a r c -> i < r -> j < c -> at2 (nd_map f a) i j = f (at2 a i j).
Proof.
  intros Ha Hi Hj. destruct (has_shape_inv a r c Ha) as (rows & -> & <- & Hwf).
  cbn [nd_map at2]. rewrite (nth_map_lt _ _ _ [] _) by exact Hi.
  apply nth_map_lt. rewrite (wf_array_row c) by assumption. exact Hj.
Qed.

Lemma has_shape_nd_map (f : float -> float) (a : farray) r c :
  has_shape a r c -> has_shape (nd_map f a) r c.
Proof.
  intros Ha. destruct (has_shape_inv a r c Ha) as (rows & -> & <- & Hwf).
  unfold has_shape. cbn [nd_map ndim shape2]. rewrite length_map.
  repeat split. apply wf_map_rows; [intros; apply length_map | exact Hwf].
Qed.

Lemma l2_accumulate_shape (reg : float) (w : farray) r c :
  has_shape w r c ->
  exists acc,
    nd_ibinop fadd (nd_zeros_like w) (l2_grad reg w) = Some acc /\
    has_shape acc r c /\
    forall i j, i < r -> j < c ->
      at2 acc i j = fadd (Fin 0) (fmul (fmul (Fin 2) reg) (at2 w i j)).
Proof.
  intros Hw.
  pose proof (has_shape_nd_map (fun _ => Fin 0) w r c Hw) as Hz.
  pose proof (has_shape_nd_map (fmul (fmul (Fin 2) reg)) w r c Hw) as Hg.
  destruct (nd_binop_same_shape fadd _ _ r c Hz Hg) as (acc & Hop & Hsh & Hat).
  exists acc. split; [eapply nd_ibinop_keeps_shape; eassumption |].
  split; [exact Hsh |]. intros i j Hi Hj.
  rewrite Hat by assumption. unfold nd_zeros_like, l2_grad.
  rewrite !(at2_nd_map _ w r c) by assumption. reflexivity.
Qed.

Lemma relu_backward_nd_shape (x d : farray) r c :
  has_shape x r c -> has_shape d r c ->
  exists out, relu_backward_nd x d = Some out /\ has_shape out r c /\
              relu_gradient x d out.
Proof.
  intros (Hnx & Hsx & Hwx) (Hnd & Hsd & Hwd).
  destruct (setmask_lt_at2 d x (Fin 0) (Fin 0) Hwx Hwd) as
    (out & Hset & Hnd' & Hsh' & Hwf' & Hat); [congruence | congruence |].
  exists out. split; [exact Hset |]. split.
  - unfold has_shape. repeat split; congruence.
  - unfold relu_gradient. repeat split; try assumption.
    + intros Hlt. rewrite Hat by assumption.
      apply fltb_float_lt in Hlt. rewrite Hlt. reflexivity.
    + intros Hle. rewrite Hat by assumption.
      rewrite (float_le_not_lt _ _ Hle). reflexivity.
Qed.

Lemma swce_gradient_exists (out : farray) (y : list Z) batch n_out :
  has_shape out batch n_out -> 0 < n_out ->
  length y = batch -> Forall (fun k => (0 <= k < Z.of_nat n_out)%Z) y ->
  valid_targets out y /\
  exists g, swce_gradient (softmax_nd out) g y /\ has_shape g batch n_out.
Proof.
  intros Ho Hn Hlen Hy.
  destruct (has_shape_inv out batch n_out Ho) as (rows & -> & Hrows & Hwf).
  assert (Hv : valid_targets (Arr2 n_out rows) y) by (split; [lia | exact Hy]).
  split; [exact Hv |].
  destruct (softmax_with_cross_entropy_run [ONd (Arr2 n_out rows)] 0
              (Arr2 n_out rows) y eq_refl Hwf Hn Hv)
    as (d & g & h' & _ & _ & Hg & _).
  exists g. split; [exact Hg |].
  destruct Hg as (Hnd & Hsh & Hwg & _).
  destruct (softmax_nd_shape (Arr2 n_out rows)) as [Hnd' Hsh'].
  unfold has_shape. rewrite Hnd, Hnd', Hsh, Hsh'. simpl. rewrite Hrows. auto.
Qed.

Lemma net_outcome_exists (reg : float) (x : farray) (y : list Z)
    (V : net_values) (batch n_in hid n_out : nat) :
  has_shape x batch n_in ->
  has_shape (vW0 V) n_in hid -> has_shape (vB0 V) 1 hid ->
  has_shape (vW2 V) hid n_out -> has_shape (vB2 V) 1 n_out ->
  0 < n_out -> length y = batch ->
  Forall (fun k => (0 <= k < Z.of_nat n_out)%Z) y ->
  exists T,
    net_outcome reg x y V T /\
    has_shape (t_out T) batch n_out /\ valid_targets (t_out T) y /\
    net_gradients reg x V T batch n_in hid n_out.
Proof.
  intros Sx SW0 SB0 SW2 SB2 Hn Hlen Hy.
  destruct (fc_forward_nd_shape x _ _ batch n_in hid Sx SW0 SB0)
    as (a0 & Ha0 & Sa0 & _).
  pose proof (has_shape_nd_map (fmaximum (Fin 0)) a0 batch hid Sa0) as Sa1.
  destruct (fc_forward_nd_shape _ _ _ batch hid n_out Sa1 SW2 SB2)
    as (out & Hout & Sout & _).
  destruct (swce_gradient_exists out y batch n_out Sout Hn Hlen Hy)
    as (Hv & g & Hg & Sg).
  destruct (l2_accumulate_shape reg (vW2 V) hid n_out SW2)
    as (r2 & Hr2 & Sr2 & Ar2).
  destruct (fc_backward_dW_shape _ g r2 batch hid n_out Sa1 Sg Sr2)
    as (gW2 & HgW2 & SgW2 & AgW2).
  pose proof (has_shape_nd_map (fun _ => Fin 0) _ 1 n_out SB2) as SzB2.
  destruct (fc_backward_dB_shape g _ batch n_out Sg SzB2)
    as (gB2 & HgB2 & SgB2 & AgB2).
  destruct (fc_backward_dX_shape g (vW2 V) batch hid n_out Sg SW2)
    as (d1 & Hd1 & Sd1 & Ad1).
  destruct (relu_backward_nd_shape a0 d1 batch hid Sa0 Sd1)
    as (d0 & Hd0 & Sd0 & Rd0).
  destruct (l2_accumulate_shape reg (vW0 V) n_in hid SW0)
    as (r0 & Hr0 & Sr0 & Ar0).
  destruct (fc_backward_dW_shape x d0 r0 batch n_in hid Sx Sd0 Sr0)
    as (gW0 & HgW0 & SgW0 & AgW0).
  pose proof (has_shape_nd_map (fun _ => Fin 0) _ 1 hid SB0) as SzB0.
  destruct (fc_backward_dB_shape d0 _ batch hid Sd0 SzB0)
    as (gB0 & HgB0 & SgB0 & AgB0).
  destruct (fc_backward_dX_shape d0 (vW0 V) batch n_in hid Sd0 SW0)
    as (dx & Hdx & Sdx & _).
  exists {| t_a0 := a0; t_out := out; t_g := g; t_d1 := d1; t_d0 := d0;
            t_dx := dx;
            t_loss := fadd (fadd (ce_loss (softmax_nd out) y)
                                 (l2_loss reg (vW2 V)))
                           (l2_loss reg (vW0 V));
            t_gW0 := gW0; t_gB0 := gB0; t_gW2 := gW2; t_gB2 := gB2 |}.
  split; [| split; [exact Sout | split; [exact Hv |]]].
  - unfold net_outcome. cbn.
    exact (conj Ha0 (conj Hout (conj Hg (conj (ex_intro _ r2 (conj Hr2 HgW2))
            (conj HgB2 (conj Hd1 (conj Hd0 (conj (ex_intro _ r0 (conj Hr0 HgW0))
            (conj HgB0 (conj Hdx eq_refl)))))))))).
  - unfold net_gradients. cbn.
    split; [| split; [| split; [exact Ad1 | split; [exact Rd0 | split]]]].
    + intros i j Hi Hj. rewrite AgW2, Ar2 by assumption. reflexivity.
    + intros j Hj. rewrite AgB2 by assumption. unfold nd_zeros_like.
      rewrite (at2_nd_map _ _ 1 n_out) by (assumption || lia). reflexivity.
    + intros i j Hi Hj. rewrite AgW0, Ar0 by assumption. reflexivity.
    + intros j Hj. rewrite AgB0 by assumption. unfold nd_zeros_like.
      rewrite (at2_nd_map _ _ 1 hid) by (assumption || lia). reflexivity.
Qed.

(** * The two-layer network *)

Lemma grad_after_value (h0 h : heap) (p : loc) (g : farray) :
  grad_after h0 h p g -> param_grad_value h p = Some g.
Proof.
  intros (v & gl & Hp & Hg & _). unfold param_grad_value.
  rewrite Hp, Hg. reflexivity.
Qed.

(** One call, from any heap that holds the network: the call returns, and
    what it returns and leaves in the parameters is the trace of the
    values. *)
Lemma compute_loss_and_gradients_total (h : heap) (net : TwoLayerNet.t)
    (L : net_layout) (V : net_values) (n_in hid n_out : nat)
    (X : loc) (x : farray) (y : list Z) (T : net_trace) (batch : nat) :
  net_in_heap h net L V n_in hid n_out ->
  h !! X = Some (ONd x) ->
  net_outcome (TwoLayerNet.reg net) x y V T ->
  has_shape (t_out T) batch n_out -> valid_targets (t_out T) y -> 0 < n_out ->
  exists h',
    TwoLayerNet.compute_loss_and_gradients net X y h = Some (t_loss T, h') /\
    param_grad_value h' (pW0 L) = Some (t_gW0 T) /\
    param_grad_value h' (pB0 L) = Some (t_gB0 T) /\
    param_grad_value h' (pW2 L) = Some (t_gW2 T) /\
    param_grad_value h' (pB2 L) = Some (t_gB2 T) /\
    net_in_heap h' net L V n_in hid n_out /\ h' !! X = Some (ONd x).
Proof.
  intros Hnet HX Hout (Hnd & Hsh & Hwf) Hv Hpos.
  destruct (compute_loss_and_gradients_run h net L V n_in hid n_out X x y T)
    as (loss & h' & Hrun & -> & G0 & G1 & G2 & G3 & Hnet' & HX' & _);
    try assumption.
  { rewrite Hsh. exact Hpos. }
  exists h'. split; [exact Hrun |].
  repeat (split; [eapply grad_after_value; eassumption |]).
  split; assumption.
Qed.

(** C2: for every batch [x] of the input width and every label vector [y]
    with one class per row, [TwoLayerNet.compute_loss_and_gradients]
    returns; the loss is the cross-entropy loss that
    [softmax_with_cross_entropy] gives on the output of the forward pass
    ([x . W0 + B0], ReLU, [. W2 + B2]), plus [reg * sum (W2 ^ 2)], plus
    [reg * sum (W0 ^ 2)], added in the order of the reverse walk.  The
    gradient left in each weight parameter is the zeroed array, plus
    [2 * reg * W], plus what the layer's [backward] accumulates afterwards;
    the gradient left in each bias parameter is the zeroed array plus the
    column sums only, without a regularization term. *)
Theorem compute_loss_and_gradients_spec (h : heap) (net : TwoLayerNet.t)
    (L : net_layout) (V : net_values) (n_in hid n_out : nat)
    (X : loc) (x : farray) (y : list Z) (batch : nat) :
  net_in_heap h net L V n_in hid n_out ->
  h !! X = Some (ONd x) -> has_shape x batch n_in ->
  0 < n_out -> length y = batch ->
  Forall (fun k => (0 <= k < Z.of_nat n_out)%Z) y ->
  exists T loss h',
    TwoLayerNet.compute_loss_and_gradients net X y h = Some (loss, h') /\
    fc_forward_nd x (vW0 V) (vB0 V) = Some (t_a0 T) /\
    fc_forward_nd (relu_forward_nd (t_a0 T)) (vW2 V) (vB2 V) = Some (t_out T) /\
    (forall h0 o, h0 !! o = Some (ONd (t_out T)) ->
       exists d h1,
         softmax_with_cross_entropy o y h0 =
           Some ((ce_loss (softmax_nd (t_out T)) y, d), h1) /\
         h1 !! d = Some (ONd (t_g T))) /\
    loss = fadd (fadd (ce_loss (softmax_nd (t_out T)) y)
                      (l2_loss (TwoLayerNet.reg net) (vW2 V)))
                (l2_loss (TwoLayerNet.reg net) (vW0 V)) /\
    param_grad_value h' (pW0 L) = Some (t_gW0 T) /\
    param_grad_value h' (pB0 L) = Some (t_gB0 T) /\
    param_grad_value h' (pW2 L) = Some (t_gW2 T) /\
    param_grad_value h' (pB2 L) = Some (t_gB2 T) /\
    net_gradients (TwoLayerNet.reg net) x V T batch n_in hid n_out.
Proof.
  intros Hnet HX Hx Hpos Hlen Hy.
  pose proof Hnet as (_ & _ & _ & _ & _ & _ & _ & _ & _ & _ & _ & _ & _ & _ &
                      SW0 & SB0 & SW2 & SB2).
  destruct (net_outcome_exists (TwoLayerNet.reg net) x y V batch n_in hid n_out)
    as (T & Hout & Sout & Hv & Hgr); try assumption.
  destruct (compute_loss_and_gradients_total h net L V n_in hid n_out X x y T batch)
    as (h' & Hrun & G0 & G1 & G2 & G3 & _); try assumption.
  pose proof Hout as (Ha0 & Hfo & Hg & _ & _ & _ & _ & _ & _ & _ & Hloss).
  exists T, (t_loss T), h'.
  split; [exact Hrun |]. split; [exact Ha0 |]. split; [exact Hfo |].
  split.
  { intros h0 o Ho. destruct Sout as (_ & Hsh & Hwf).
    destruct (softmax_with_cross_entropy_run h0 o (t_out T) y Ho Hwf)
      as (d & g & h1 & Hr & Hd & Hg' & _); [rewrite Hsh; exact Hpos | exact Hv |].
    exists d, h1. split; [exact Hr |].
    rewrite Hd. do 2 f_equal. eapply swce_gradient_unique; eassumption. }
  split; [exact Hloss |].
  repeat (split; [assumption |]). exact Hgr.
Qed.

(** The first statement of [compute_loss_and_gradients], on its own: it
    leaves zeros of the shape of the value in the gradient of every
    parameter, and changes no other object. *)
Lemma zero_grads_run (h : heap) (net : TwoLayerNet.t) (L : net_layout)
    (V : net_values) (n_in hid n_out : nat) :
  net_in_heap h net L V n_in hid n_out ->
  exists h0,
    (ps <- TwoLayerNet.params net ;;
     for_each (dict_values ps) (fun param =>
       v <- Param_value param ;;
       z <- np.zeros_like v ;;
       Param_set_grad param z)) h = Some (tt, h0) /\
    Forall2 (fun p v => param_grad_value h0 p = Some (nd_zeros_like v))
      [pW0 L; pB0 L; pW2 L; pB2 L] [vW0 V; vB0 V; vW2 V; vB2 V] /\
    (forall l o, ~ In l [pW0 L; pB0 L; pW2 L; pB2 L] ->
       h !! l = Some o -> h0 !! l = Some o).
Proof.
  intros Hnet. unfold net_in_heap in Hnet.
  destruct Hnet as (Hlayers & Hl02 & Hnd & [X0 Hfc0] & [X1 Hrelu] & [X2 Hfc2]
    & [g0 HpW0] & [g1 HpB0] & [g2 HpW2] & [g3 HpB2]
    & HaW0 & HaB0 & HaW2 & HaB2 & _).
  assert (W : wp (ps <- TwoLayerNet.params net ;;
                  for_each (dict_values ps) (fun param =>
                    v <- Param_value param ;;
                    z <- np.zeros_like v ;;
                    Param_set_grad param z)) h
                (fun _ h0 =>
                   Forall2 (fun p v => param_grad_value h0 p = Some (nd_zeros_like v))
                     [pW0 L; pB0 L; pW2 L; pB2 L] [vW0 V; vB0 V; vW2 V; vB2 V] /\
                   (forall l o, ~ In l [pW0 L; pB0 L; pW2 L; pB2 L] ->
                      h !! l = Some o -> h0 !! l = Some o))).
  { wp_step. eapply wp_TwoLayerNet_params; try eassumption.
    cbn [dict_values map snd].
    eapply (wp_zero_grads h L V); try eassumption.
    intros h1 z0 z1 z2 z3 H1W0 H1B0 H1W2 H1B2 Hz0 Hz1 Hz2 Hz3 Fz0 Fz1 Fz2 Fz3 E1 K1.
    split.
    - unfold param_grad_value.
      repeat (constructor; [match goal with
                            | H : h1 !! ?p = Some (OParam _ ?z) |- context [h1 !! ?p] =>
                                rewrite H
                            end;
                            match goal with
                            | H : h1 !! ?z = Some (ONd _) |- context [h1 !! ?z] =>
                                rewrite H
                            end; reflexivity |]).
      constructor.
    - destruct E1 as [_ E1]. exact E1. }
  destruct W as ([] & h0 & Hrun & HQ). exists h0. split; [exact Hrun | exact HQ].
Qed.

(** C6: [TwoLayerNet.compute_loss_and_gradients] begins by setting the
    gradient of every parameter to zeros of the shape of its value, and
    has changed no other object by then.  So whatever the gradients held
    before, a call returns the loss of the trace [T] of the batch, the
    labels and the parameter values, and leaves in each parameter the
    gradient of that trace, which is the zeroed array plus the terms of
    this one call.  Two calls in a row on the same batch and labels return
    the same loss, and after the second every parameter's gradient holds
    what it held after the first. *)
Theorem compute_loss_and_gradients_zeroes_grads (h : heap)
    (net : TwoLayerNet.t) (L : net_layout) (V : net_values)
    (n_in hid n_out : nat) (X : loc) (x : farray) (y : list Z) (batch : nat) :
  net_in_heap h net L V n_in hid n_out ->
  h !! X = Some (ONd x) -> has_shape x batch n_in ->
  0 < n_out -> length y = batch ->
  Forall (fun k => (0 <= k < Z.of_nat n_out)%Z) y ->
  exists T h0 h1 h2,
    (ps <- TwoLayerNet.params net ;;
     for_each (dict_values ps) (fun param =>
       v <- Param_value param ;;
       z <- np.zeros_like v ;;
       Param_set_grad param z)) h = Some (tt, h0) /\
    Forall2 (fun p v => param_grad_value h0 p = Some (nd_zeros_like v))
      [pW0 L; pB0 L; pW2 L; pB2 L] [vW0 V; vB0 V; vW2 V; vB2 V] /\
    (forall l o, ~ In l [pW0 L; pB0 L; pW2 L; pB2 L] ->
       h !! l = Some o -> h0 !! l = Some o) /\
    net_outcome (TwoLayerNet.reg net) x y V T /\
    net_gradients (TwoLayerNet.reg net) x V T batch n_in hid n_out /\
    TwoLayerNet.compute_loss_and_gradients net X y h = Some (t_loss T, h1) /\
    TwoLayerNet.compute_loss_and_gradients net X y h1 = Some (t_loss T, h2) /\
    Forall2 (fun p g => param_grad_value h1 p = Some g /\
                        param_grad_value h2 p = Some g)
      [pW0 L; pB0 L; pW2 L; pB2 L] [t_gW0 T; t_gB0 T; t_gW2 T; t_gB2 T] /\
    (forall ha,
       net_in_heap ha net L V n_in hid n_out -> ha !! X = Some (ONd x) ->
       exists ha',
         TwoLayerNet.compute_loss_and_gradients net X y ha
           = Some (t_loss T, ha') /\
         Forall2 (fun p g => param_grad_value ha' p = Some g)
           [pW0 L; pB0 L; pW2 L; pB2 L]
           [t_gW0 T; t_gB0 T; t_gW2 T; t_gB2 T]).
Proof.
  intros Hnet HX Hx Hpos Hlen Hy.
  pose proof Hnet as (_ & _ & _ & _ & _ & _ & _ & _ & _ & _ & _ & _ & _ & _ &
                      SW0 & SB0 & SW2 & SB2).
  destruct (zero_grads_run h net L V n_in hid n_out Hnet) as (h0 & Hz & Hzero & Hkeep).
  destruct (net_outcome_exists (TwoLayerNet.reg net) x y V batch n_in hid n_out)
    as (T & Hout & Sout & Hv & Hgr); try assumption.
  destruct (compute_loss_and_gradients_total h net L V n_in hid n_out X x y T batch)
    as (h1 & Hrun1 & G0 & G1 & G2 & G3 & Hnet1 & HX1); try assumption.
  destruct (compute_loss_and_gradients_total h1 net L V n_in hid n_out X x y T batch)
    as (h2 & Hrun2 & K0 & K1 & K2 & K3 & _); try assumption.
  exists T, h0, h1, h2.
  split; [exact Hz |]. split; [exact Hzero |]. split; [exact Hkeep |].
  split; [exact Hout |]. split; [exact Hgr |].
  split; [exact Hrun1 |]. split; [exact Hrun2 |].
  split.
  { repeat (constructor; [split; assumption |]). constructor. }
  intros ha Hneta HXa.
  destruct (compute_loss_and_gradients_total ha net L V n_in hid n_out X x y T batch)
    as (ha' & Hruna & A0 & A1 & A2 & A3 & _); try assumption.
  exists ha'. split; [exact Hruna |].
  repeat (constructor; [assumption |]). constructor.
Qed.

Lemma example_net_in_heap :
  net_in_heap example_heap example_net example_layout example_values 1 1 2.
Proof.
  unfold net_in_heap, has_shape. cbn.
  repeat split; try reflexivity; try lia; eauto.
  repeat (constructor; [rewrite ?elem_of_cons, elem_of_nil; lia |]). constructor.
Defined.

Lemma compute_loss_and_gradients_spec_witness :
  exists T loss h',
    TwoLayerNet.compute_loss_and_gradients example_net 12 [0%Z] example_heap
      = Some (loss, h') /\
    fc_forward_nd (Arr2 1 [[Fin 1]]) (vW0 example_values) (vB0 example_values)
      = Some (t_a0 T) /\
    fc_forward_nd (relu_forward_nd (t_a0 T)) (vW2 example_values)
      (vB2 example_values) = Some (t_out T) /\
    (forall h0 o, h0 !! o = Some (ONd (t_out T)) ->
       exists d h1,
         softmax_with_cross_entropy o [0%Z] h0 =
           Some ((ce_loss (softmax_nd (t_out T)) [0%Z], d), h1) /\
         h1 !! d = Some (ONd (t_g T))) /\
    loss = fadd (fadd (ce_loss (softmax_nd (t_out T)) [0%Z])
                      (l2_loss (Fin 1) (vW2 example_values)))
                (l2_loss (Fin 1) (vW0 example_values)) /\
    param_grad_value h' 5 = Some (t_gW0 T) /\
    param_grad_value h' 6 = Some (t_gB0 T) /\
    param_grad_value h' 7 = Some (t_gW2 T) /\
    param_grad_value h' 8 = Some (t_gB2 T) /\
    net_gradients (Fin 1) (Arr2 1 [[Fin 1]]) example_values T 1 1 1 2.
Proof.
  apply (compute_loss_and_gradients_spec example_heap example_net
           example_layout example_values 1 1 2 12 (Arr2 1 [[Fin 1]]) [0%Z] 1).
  - exact example_net_in_heap.
  - reflexivity.
  - repeat split; reflexivity.
  - lia.
  - reflexivity.
  - repeat constructor; lia.
Defined.

Lemma compute_loss_and_gradients_zeroes_grads_witness :
  exists T h0 h1 h2,
    (ps <- TwoLayerNet.params example_net ;;
     for_each (dict_values ps) (fun param =>
       v <- Param_value param ;;
       z <- np.zeros_like v ;;
       Param_set_grad param z)) example_heap = Some (tt, h0) /\
    Forall2 (fun p v => param_grad_value h0 p = Some (nd_zeros_like v))
      [pW0 example_layout; pB0 example_layout; pW2 example_layout;
       pB2 example_layout]
      [vW0 example_values; vB0 example_values; vW2 example_values;
       vB2 example_values] /\
    (forall l o,
       ~ In l [pW0 example_layout; pB0 example_layout; pW2 example_layout;
               pB2 example_layout] ->
       example_heap !! l = Some o -> h0 !! l = Some o) /\
    net_outcome (TwoLayerNet.reg example_net) (Arr2 1 [[Fin 1]]) [0%Z]
      example_values T /\
    net_gradients (TwoLayerNet.reg example_net) (Arr2 1 [[Fin 1]])
      example_values T 1 1 1 2 /\
    TwoLayerNet.compute_loss_and_gradients example_net 12 [0%Z] example_heap
      = Some (t_loss T, h1) /\
    TwoLayerNet.compute_loss_and_gradients example_net 12 [0%Z] h1
      = Some (t_loss T, h2) /\
    Forall2 (fun p g => param_grad_value h1 p = Some g /\
                        param_grad_value h2 p = Some g)
      [pW0 example_layout; pB0 example_layout; pW2 example_layout;
       pB2 example_layout]
      [t_gW0 T; t_gB0 T; t_gW2 T; t_gB2 T] /\
    (forall ha,
       net_in_heap ha example_net example_layout example_values 1 1 2 ->
       ha !! 12 = Some (ONd (Arr2 1 [[Fin 1]])) ->
       exists ha',
         TwoLayerNet.compute_loss_and_gradients example_net 12 [0%Z] ha
           = Some (t_loss T, ha') /\
         Forall2 (fun p g => param_grad_value ha' p = Some g)
           [pW0 example_layout; pB0 example_layout; pW2 example_layout;
            pB2 example_layout]
           [t_gW0 T; t_gB0 T; t_gW2 T; t_gB2 T]).
Proof.
  apply (compute_loss_and_gradients_zeroes_grads example_heap example_net
           example_layout example_values 1 1 2 12 (Arr2 1 [[Fin 1]]) [0%Z] 1).
  - exact example_net_in_heap.
  - reflexivity.
  - repeat split; reflexivity.
  - lia.
  - reflexivity.
  - repeat constructor; lia.
Defined.

(** * Batches *)

Lemma slice_nat {A} (l : list A) (a b : nat) :
  a <= b -> b <= length l ->
  slice l (Z.of_nat a) (Z.of_nat b) = take (b - a) (drop a l).
Proof.
  intros Hab Hb. unfold slice.
  destruct (Z.ltb_spec (Z.of_nat a) 0); [lia |].
  destruct (Z.ltb_spec (Z.of_nat b) 0); [lia |].
  rewrite !Z.min_l by lia. rewrite !Nat2Z.id. reflexivity.
Qed.

Lemma zip_div_points (f : nat -> Z) (n : Z) (len s : nat) :
  zip (map f (seq s (S len)) ++ [n]) (map f (seq (S s) len) ++ [n]) =
  map (fun k => (f k, f (S k))) (seq s len) ++ [(f (s + len), n)].
Proof.
  revert s. induction len as [| len IH]; intros s.
  - cbn. rewrite Nat.add_0_r. reflexivity.
  - change (seq s (S (S len))) with (s :: seq (S s) (S len)).
    change (seq (S s) (S len)) with (S s :: seq (S (S s)) len) at 2.
    cbn [map app zip zip_with seq]. rewrite <- Nat.add_succ_comm.
    f_equal. apply (IH (S s)).
Qed.

Lemma arange3_sections (b n : nat) :
  0 < b -> 0 < n ->
  nd_arange3 (Z.of_nat b) (Z.of_nat n) (Z.of_nat b) =
    Some (map (fun k => Z.of_nat (k * b)) (seq 1 ((n - 1) / b))).
Proof.
  intros Hb Hn. unfold nd_arange3.
  destruct (Z.eqb_spec (Z.of_nat b) 0); [lia |].
  destruct (Z.ltb_spec 0 (Z.of_nat b)); [| lia].
  replace (Z.of_nat n - Z.of_nat b + Z.of_nat b - 1)%Z with (Z.of_nat (n - 1)) by lia.
  rewrite <- Nat2Z.inj_div, Nat2Z.id. f_equal.
  rewrite <- seq_shift, map_map. apply map_ext. intros k. lia.
Qed.

(** The batches in closed form: batch [k] is the [b] entries from position
    [k * b] on, and the last batch is what remains. *)
Lemma array_split_sections {A} (l : list A) (b : nat) :
  0 < b -> 0 < length l ->
  array_split l (map (fun k => Z.of_nat (k * b)) (seq 1 ((length l - 1) / b))) =
    map (fun k => take b (drop (k * b) l)) (seq 0 ((length l - 1) / b)) ++
    [drop ((length l - 1) / b * b) l].
Proof.
  intros Hb Hn. unfold array_split.
  set (len := (length l - 1) / b).
  assert (Hlen : len * b <= length l - 1)
    by (subst len; rewrite Nat.mul_comm; apply Nat.Div0.mul_div_le).
  change (0%Z :: map (fun k => Z.of_nat (k * b)) (seq 1 len))
    with (map (fun k => Z.of_nat (k * b)) (seq 0 (S len))).
  cbn [tail map seq app].
  pose proof (zip_div_points (fun k => Z.of_nat (k * b)) (Z.of_nat (length l)) len 0) as Hz.
  cbn [seq map app] in Hz. cbn [app]. rewrite Hz. clear Hz.
  rewrite map_app, map_map. cbn [map]. f_equal.
  - apply map_ext_in. intros k Hk. apply in_seq in Hk.
    rewrite slice_nat by nia. f_equal. nia.
  - f_equal. rewrite Nat.add_0_l. rewrite slice_nat by lia.
    apply take_ge. rewrite length_drop. lia.
Qed.

Lemma concat_chunks {A} (l : list A) (b len s : nat) :
  concat (map (fun k => take b (drop (k * b) l)) (seq s len) ++
          [drop ((s + len) * b) l]) = drop (s * b) l.
Proof.
  revert s. induction len as [| len IH]; intros s.
  - cbn. rewrite Nat.add_0_r, app_nil_r. reflexivity.
  - cbn [seq map app concat]. rewrite <- Nat.add_succ_comm, (IH (S s)).
    replace (S s * b) with (s * b + b) by lia.
    rewrite <- drop_drop. apply take_drop.
Qed.

(** * The linear classifier *)

Lemma getitem_rows_shape (x : farray) (idx : list Z) n F :
  has_shape x n F ->
  Forall (fun k => (0 <= k < Z.of_nat n)%Z) idx ->
  exists xb, getitem_rows x idx = Some xb /\ has_shape xb (length idx) F.
Proof.
  intros Hx Hidx. destruct (has_shape_inv _ _ _ Hx) as (rows & -> & Hn & Hwf).
  unfold getitem_rows. rewrite <- Hn in Hidx.
  rewrite (getitem1_in_range rows idx [] Hidx). cbn.
  eexists. split; [reflexivity |]. unfold has_shape. cbn [ndim shape2].
  rewrite length_map. repeat split.
  apply wf_array_intro. intros r Hr. apply in_map_iff in Hr as (k & <- & Hk).
  rewrite List.Forall_forall in Hidx. specialize (Hidx k Hk).
  apply (wf_array_row F rows); [exact Hwf | lia].
Qed.

Lemma getitem1_labels (y : list Z) (idx : list Z) (C : nat) :
  Forall (fun k => (0 <= k < Z.of_nat C)%Z) y ->
  Forall (fun k => (0 <= k < Z.of_nat (length y))%Z) idx ->
  exists yb, getitem1 y idx = Some yb /\ length yb = length idx /\
             Forall (fun k => (0 <= k < Z.of_nat C)%Z) yb.
Proof.
  intros Hy Hidx. rewrite (getitem1_in_range y idx 0%Z Hidx).
  eexists. split; [reflexivity |]. split; [apply length_map |].
  rewrite List.Forall_forall in *. intros k Hk.
  apply in_map_iff in Hk as (i & <- & Hi). specialize (Hidx i Hi).
  apply Hy, nth_In. lia.
Qed.

Lemma swce_gradient_shape (a g : farray) (t : list Z) r c :
  has_shape a r c -> swce_gradient (softmax_nd a) g t -> has_shape g r c.
Proof.
  intros (Hnd & Hsh & _) (Gnd & Gsh & Gwf & _).
  destruct (softmax_nd_shape a) as [Snd Ssh].
  unfold has_shape. rewrite Gnd, Gsh, Snd, Ssh. auto.
Qed.

Lemma wp_linear_softmax (h : heap) (X W : loc) (xb wv : farray)
    (t : list Z) (b F C : nat) Q :
  h !! X = Some (ONd xb) -> h !! W = Some (ONd wv) ->
  has_shape xb b F -> has_shape wv F C -> 0 < C ->
  length t = b -> Forall (fun k => (0 <= k < Z.of_nat C)%Z) t ->
  (forall pred g dW1 d h',
     nd_dot xb wv = Some pred ->
     swce_gradient (softmax_nd pred) g t ->
     nd_dot (nd_transpose xb) g = Some dW1 -> has_shape dW1 F C ->
     h' !! d = Some (ONd dW1) -> heap_le h h' -> length h <= d ->
     Q (ce_loss (softmax_nd pred) t, d) h') ->
  wp (linear_softmax X W t) h Q.
Proof.
  intros HX HW Sx Sw HC Ht Hy HQ.
  destruct (nd_dot_shape xb wv b F C Sx Sw) as (pred & Hpred & Sp & _).
  destruct (swce_gradient_exists pred t b C Sp HC Ht Hy) as (Hv & _).
  unfold linear_softmax. wp_step. wp_step; [exact Hpred |].
  wp_step. pose proof Sp as (Pnd & Psh & Pwf).
  eapply wp_softmax_with_cross_entropy;
    [lookup | exact Pwf | rewrite Psh; exact HC | exact Hv |].
  intros d g h1 Hd Hg Hle1 Hfr1. cbv beta iota.
  pose proof (swce_gradient_shape _ _ _ _ _ Sp Hg) as Sg.
  destruct (has_shape_transpose xb b F Sx) as (St & _).
  destruct (nd_dot_shape (nd_transpose xb) g F b C St Sg) as (dW1 & HdW1 & SdW1 & _).
  note_lengths. wp_go. eapply HQ; try eassumption.
  - lookup.
  - eapply heap_le_trans; [| apply heap_le_alloc].
    eapply heap_le_trans; [| apply heap_le_alloc].
    eapply heap_le_trans; [apply heap_le_alloc | exact Hle1].
  - heap_lengths.
Qed.

Lemma wp_fit_batch (h : heap) (self X w : loc) (x wv : farray) (y : list Z)
    (learning_rate reg loss : float) (cnt : nat) (idx : list Z)
    (n F C : nat) Q :
  h !! self = Some (OLinear (Some w)) -> h !! w = Some (ONd wv) ->
  h !! X = Some (ONd x) -> w <> X ->
  has_shape x n F -> has_shape wv F C -> 0 < C -> length y = n ->
  Forall (fun k => (0 <= k < Z.of_nat C)%Z) y ->
  Forall (fun k => (0 <= k < Z.of_nat n)%Z) idx ->
  (forall l wv' h',
     batch_update x y learning_rate reg idx wv l wv' -> has_shape wv' F C ->
     h' !! self = Some (OLinear (Some w)) -> h' !! w = Some (ONd wv') ->
     h' !! X = Some (ONd x) ->
     Q (fadd loss l, S cnt) h') ->
  wp (LinearSoftmaxClassifier.fit_batch self X y learning_rate reg (loss, cnt) idx) h Q.
Proof.
  intros Hself Hw HX Hne Sx Sw HC Hy Hlab Hidx HQ.
  destruct (getitem_rows_shape x idx n F Sx Hidx) as (xb & Hxb & Sxb).
  rewrite <- Hy in Hidx.
  destruct (getitem1_labels y idx C Hlab Hidx) as (yb & Hyb & Lyb & Fyb).
  unfold LinearSoftmaxClassifier.fit_batch, LinearSoftmaxClassifier.the_W,
    LinearSoftmaxClassifier.get_W, LinearSoftmaxClassifier.set_W, np.getitem.
  note_lengths. wp_step. wp_step; [exact Hxb |]. wp_step. wp_step; [exact Hyb |].
  wp_go.
  eapply (wp_linear_softmax _ _ _ xb wv yb (length idx) F C);
    [lookup | lookup | assumption .. |].
  intros pred g dW1 d h1 Hpred Hg HdW1 SdW1 Hd Hle1 Hfr1. cbv beta iota.
  note_lengths. wp_go.
  eapply wp_l2_regularization; [lookup |].
  intros q h2 Hq Hfr2 Hle2. cbv beta iota. note_lengths.
  pose proof (has_shape_nd_map (fmul (fmul (Fin 2) reg)) wv F C Sw) as Sl2.
  destruct (nd_binop_same_shape fadd dW1 (l2_grad reg wv) F C SdW1 Sl2)
    as (dW & HdW & SdW & _).
  pose proof (has_shape_nd_map (fmul learning_rate) dW F C SdW) as Sstep.
  destruct (nd_binop_same_shape fsub wv (nd_map (fmul learning_rate) dW) F C Sw Sstep)
    as (wv' & Hwv' & Swv' & _).
  pose proof (nd_ibinop_keeps_shape fsub _ _ _ F C Sw Hwv' Swv') as Hi.
  wp_step. wp_step; [exact HdW |]. wp_go.
  apply (HQ _ wv').
  - exists xb, yb, pred, g, dW1, dW. auto 10.
  - exact Swv'.
  - lookup.
  - lookup.
  - lookup.
Qed.

Lemma wp_fit_batches (self X w : loc) (x : farray) (y : list Z)
    (learning_rate reg : float) (n F C : nat) (batches : list (list Z)) :
  w <> X -> has_shape x n F -> 0 < C -> length y = n ->
  Forall (fun k => (0 <= k < Z.of_nat C)%Z) y ->
  Forall (Forall (fun k => (0 <= k < Z.of_nat n)%Z)) batches ->
  forall (h : heap) (wv : farray) (loss : float) (cnt : nat) Q,
  h !! self = Some (OLinear (Some w)) -> h !! w = Some (ONd wv) ->
  h !! X = Some (ONd x) -> has_shape wv F C ->
  (forall losses wv' h',
     epoch_updates x y learning_rate reg batches wv losses wv' ->
     has_shape wv' F C ->
     h' !! self = Some (OLinear (Some w)) -> h' !! w = Some (ONd wv') ->
     h' !! X = Some (ONd x) ->
     Q (fold_left fadd losses loss, cnt + length losses) h') ->
  wp (fold_each batches (loss, cnt)
        (LinearSoftmaxClassifier.fit_batch self X y learning_rate reg)) h Q.
Proof.
  intros Hne Sx HC Hy Hlab Hb.
  induction Hb as [| idx rest Hidx Hrest IH]; intros h wv loss cnt Q Hself Hw HX Sw HQ.
  - cbn [fold_each]. apply wp_ret.
    specialize (HQ [] wv h). cbn in HQ. rewrite Nat.add_0_r in HQ.
    apply HQ; try assumption. constructor.
  - cbn [fold_each]. apply wp_bind.
    eapply (wp_fit_batch h self X w x wv y); try eassumption.
    intros l wv1 h1 Hup Sw1 Hself1 Hw1 HX1.
    eapply (IH h1 wv1); try eassumption.
    intros losses wv' h' Hups Sw' Hself' Hw' HX'.
    specialize (HQ (l :: losses) wv' h'). cbn [fold_left length] in HQ.
    rewrite Nat.add_succ_r in HQ. apply HQ; try assumption.
    econstructor; eassumption.
Qed.

Lemma wp_fit_epoch (rng : RandomState) (self X w : loc) (x : farray)
    (y : list Z) (batch_size : Z) (learning_rate reg : float) (n F C : nat)
    (k : nat) (batches : list (list Z)) (h : heap) (wv : farray)
    (loss_history : list float) Q :
  w <> X -> has_shape x n F -> 0 < C -> length y = n ->
  Forall (fun k => (0 <= k < Z.of_nat C)%Z) y ->
  epoch_batches rng n batch_size k = Some batches -> batches <> [] ->
  Forall (Forall (fun k => (0 <= k < Z.of_nat n)%Z)) batches ->
  h !! self = Some (OLinear (Some w)) -> h !! w = Some (ONd wv) ->
  h !! X = Some (ONd x) -> has_shape wv F C ->
  (forall losses wv' h',
     epoch_updates x y learning_rate reg batches wv losses wv' ->
     has_shape wv' F C ->
     h' !! self = Some (OLinear (Some w)) -> h' !! w = Some (ONd wv') ->
     h' !! X = Some (ONd x) ->
     Q (loss_history ++ [fdiv (fsum losses) (of_nat (length losses))]) h') ->
  wp (LinearSoftmaxClassifier.fit_epoch rng self X y batch_size learning_rate
        reg n loss_history k) h Q.
Proof.
  intros Hne Sx HC Hy Hlab Hb Hnil Hidx Hself Hw HX Sw HQ.
  unfold LinearSoftmaxClassifier.fit_epoch. unfold epoch_batches in Hb.
  destruct (nd_arange3 batch_size (Z.of_nat n) batch_size) as [sections |];
    [| discriminate].
  cbv [mbind option_bind] in Hb. injection Hb as Hb.
  wp_step. wp_step; [reflexivity |]. rewrite Hb. wp_step.
  eapply (wp_fit_batches self X w x y learning_rate reg n F C batches);
    try eassumption.
  intros losses wv' h' Hups Sw' Hself' Hw' HX'. cbv beta iota.
  assert (Hlen : length losses = length batches).
  { clear -Hups. induction Hups; cbn; congruence. }
  destruct (Nat.eqb_spec (0 + length losses) 0) as [E |].
  { destruct batches; [congruence | cbn in Hlen; lia]. }
  apply wp_ret. cbn [Nat.add]. eapply HQ; eassumption.
Qed.

Lemma wp_fit_epochs (rng : RandomState) (self X w : loc) (x : farray)
    (y : list Z) (batch_size : Z) (learning_rate reg : float) (n F C : nat)
    (ks : list nat) :
  w <> X -> has_shape x n F -> 0 < C -> length y = n ->
  Forall (fun k => (0 <= k < Z.of_nat C)%Z) y ->
  (forall k, exists batches,
     epoch_batches rng n batch_size k = Some batches /\ batches <> [] /\
     Forall (Forall (fun k => (0 <= k < Z.of_nat n)%Z)) batches) ->
  forall (h : heap) (wv : farray) (loss_history : list float) Q,
  h !! self = Some (OLinear (Some w)) -> h !! w = Some (ONd wv) ->
  h !! X = Some (ONd x) -> has_shape wv F C ->
  (forall history wv' h',
     fit_epochs rng x y batch_size learning_rate reg ks wv history wv' ->
     length history = length ks ->
     h' !! self = Some (OLinear (Some w)) -> h' !! w = Some (ONd wv') ->
     h' !! X = Some (ONd x) ->
     Q (loss_history ++ history) h') ->
  wp (fold_each ks loss_history
        (LinearSoftmaxClassifier.fit_epoch rng self X y batch_size
           learning_rate reg n)) h Q.
Proof.
  intros Hne Sx HC Hy Hlab Hb.
  induction ks as [| k ks IH]; intros h wv loss_history Q Hself Hw HX Sw HQ.
  - cbn [fold_each]. apply wp_ret.
    specialize (HQ [] wv h). rewrite app_nil_r in HQ.
    apply HQ; try assumption; [constructor | reflexivity].
  - cbn [fold_each]. apply wp_bind.
    destruct (Hb k) as (batches & Hbk & Hnil & Hidx).
    eapply (wp_fit_epoch rng self X w x y batch_size learning_rate reg n F C k batches);
      try eassumption.
    intros losses wv1 h1 Hups Sw1 Hself1 Hw1 HX1.
    eapply (IH h1 wv1); try eassumption.
    intros history wv' h' Hfit Hlen Hself' Hw' HX'.
    specialize (HQ (fdiv (fsum losses) (of_nat (length losses)) :: history) wv' h').
    rewrite <- app_assoc. cbn [app]. apply HQ; try assumption.
    + econstructor; try eassumption.
      destruct Sx as (_ & -> & _). exact Hbk.
    + cbn. congruence.
Qed.

Lemma nd_arange_in_range (n : nat) :
  Forall (fun k => (0 <= k < Z.of_nat n)%Z) (nd_arange n).
Proof.
  apply List.Forall_forall. intros k Hk. unfold nd_arange in Hk.
  apply in_map_iff in Hk as (i & <- & Hi). apply in_seq in Hi. lia.
Qed.

Lemma length_nd_arange (n : nat) : length (nd_arange n) = n.
Proof. unfold nd_arange. rewrite length_map. apply length_seq. Qed.

Lemma arange3_negative_step (b n : Z) :
  (b < 0)%Z -> (0 <= n)%Z -> nd_arange3 b n b = Some [].
Proof.
  intros Hb Hn. unfold nd_arange3.
  destruct (Z.eqb_spec b 0); [lia |].
  destruct (Z.ltb_spec 0 b); [lia |].
  assert ((b - n - b - 1) / - b < 0)%Z
    by (apply Z.div_lt_upper_bound; lia).
  replace (Z.to_nat ((b - n - b - 1) / - b)) with 0 by lia. reflexivity.
Qed.

Lemma array_split_whole {A} (l : list A) : array_split l [] = [l].
Proof.
  unfold array_split. cbn [app tail zip zip_with map]. f_equal.
  change 0%Z with (Z.of_nat 0).
  rewrite (slice_nat l 0 (length l)) by lia.
  rewrite Nat.sub_0_r. apply firstn_all.
Qed.

(** The batches of an epoch cut the shuffled indices into consecutive
    pieces of [batch_size] entries, the last piece being what remains. *)
Lemma epoch_batches_spec (rng : RandomState) (n : nat) (batch_size : Z)
    (k : nat) :
  0 < n -> batch_size <> 0%Z ->
  Permutation (shuffle rng k (nd_arange n)) (nd_arange n) ->
  exists batches,
    epoch_batches rng n batch_size k = Some batches /\
    batches <> [] /\
    concat batches = shuffle rng k (nd_arange n) /\
    (forall i, S i < length batches ->
       Z.of_nat (length (nth i batches [])) = batch_size) /\
    0 < length (List.last batches []) /\
    ((0 < batch_size)%Z ->
     (Z.of_nat (length (List.last batches [])) <= batch_size)%Z).
Proof.
  intros Hn Hbs Hperm. unfold epoch_batches.
  set (l := shuffle rng k (nd_arange n)) in *.
  assert (Hl : length l = n)
    by (rewrite (Permutation_length Hperm); apply length_nd_arange).
  destruct (Z.lt_total batch_size 0) as [Hneg | [? | Hpos]]; [| lia |].
  - rewrite arange3_negative_step by lia. cbv [mbind option_bind].
    rewrite array_split_whole. eexists. split; [reflexivity |].
    split; [discriminate |]. split; [cbn; apply app_nil_r |].
    split; [cbn; lia |]. split; [cbn; lia | lia].
  - set (b := Z.to_nat batch_size).
    assert (Hb : 0 < b) by lia.
    replace batch_size with (Z.of_nat b) by lia.
    rewrite arange3_sections by lia. cbv [mbind option_bind].
    rewrite <- Hl. rewrite array_split_sections by lia.
    set (len := (length l - 1) / b).
    assert (Hlen : len * b <= length l - 1)
      by (subst len; rewrite Nat.mul_comm; apply Nat.Div0.mul_div_le).
    assert (Hlen' : length l - 1 < (len + 1) * b).
    { subst len. pose proof (Nat.mul_succ_div_gt (length l - 1) b). lia. }
    eexists. split; [reflexivity |].
    split; [intros E; apply app_eq_nil in E as [_ E]; discriminate |].
    split; [apply (concat_chunks l b len 0) |].
    split; [| split].
    + intros i Hi. rewrite length_app, length_map, length_seq in Hi. cbn in Hi.
      rewrite app_nth1 by (rewrite length_map, length_seq; lia).
      rewrite (nth_indep _ [] (take b (drop (0 * b) l)))
        by (rewrite length_map, length_seq; lia).
      rewrite (map_nth (fun k => take b (drop (k * b) l))), seq_nth by lia.
      rewrite length_take, length_drop. nia.
    + rewrite List.last_last, length_drop. lia.
    + intros _. rewrite List.last_last, length_drop. nia.
Qed.

Lemma epoch_batches_in_range (rng : RandomState) (n : nat) (k : nat)
    (batches : list (list Z)) :
  Permutation (shuffle rng k (nd_arange n)) (nd_arange n) ->
  concat batches = shuffle rng k (nd_arange n) ->
  Forall (Forall (fun k => (0 <= k < Z.of_nat n)%Z)) batches.
Proof.
  intros Hperm Hc. apply List.Forall_concat. rewrite Hc.
  eapply Permutation_Forall; [symmetry; exact Hperm |].
  apply nd_arange_in_range.
Qed.

(** The relations determine the losses and the weights. *)
Lemma batch_update_functional (x : farray) (y : list Z)
    (learning_rate reg : float) (idx : list Z) (w : farray)
    (l1 l2 : float) (w1 w2 : farray) :
  batch_update x y learning_rate reg idx w l1 w1 ->
  batch_update x y learning_rate reg idx w l2 w2 -> l1 = l2 /\ w1 = w2.
Proof.
  intros (xb & yb & p & g & d1 & d & Hxb & Hyb & Hp & Hg & Hd1 & Hd & Hw & ->)
         (xb' & yb' & p' & g' & d1' & d' & Hxb' & Hyb' & Hp' & Hg' & Hd1' & Hd' & Hw' & ->).
  assert (xb' = xb) as -> by congruence.
  assert (yb' = yb) as -> by congruence.
  assert (p' = p) as -> by congruence.
  assert (g' = g) as -> by (eapply swce_gradient_unique; eassumption).
  assert (d1' = d1) as -> by congruence.
  assert (d' = d) as -> by congruence.
  split; congruence.
Qed.

Lemma epoch_updates_functional (x : farray) (y : list Z)
    (learning_rate reg : float) (batches : list (list Z)) (w : farray)
    (ls1 ls2 : list float) (w1 w2 : farray) :
  epoch_updates x y learning_rate reg batches w ls1 w1 ->
  epoch_updates x y learning_rate reg batches w ls2 w2 -> ls1 = ls2 /\ w1 = w2.
Proof.
  intros H1. revert ls2 w2.
  induction H1 as [w | idx rest w l wa ls w' Hb _ IH]; intros ls2 w2 H2;
    inversion H2; subst.
  - split; reflexivity.
  - match goal with
    | Hb' : batch_update _ _ _ _ idx w _ _ |- _ =>
        destruct (batch_update_functional _ _ _ _ _ _ _ _ _ _ Hb Hb') as [<- <-]
    end.
    match goal with
    | He : epoch_updates _ _ _ _ rest wa _ _ |- _ =>
        destruct (IH _ _ He) as [<- <-]
    end.
    split; reflexivity.
Qed.

Lemma fit_epochs_functional (rng : RandomState) (x : farray) (y : list Z)
    (batch_size : Z) (learning_rate reg : float) (ks : list nat) (w : farray)
    (hs1 hs2 : list float) (w1 w2 : farray) :
  fit_epochs rng x y batch_size learning_rate reg ks w hs1 w1 ->
  fit_epochs rng x y batch_size learning_rate reg ks w hs2 w2 ->
  hs1 = hs2 /\ w1 = w2.
Proof.
  intros H1. revert hs2 w2.
  induction H1 as [w | k ks w bs ls wa hs w' Hb Hu _ IH]; intros hs2 w2 H2;
    inversion H2; subst.
  - split; reflexivity.
  - match goal with
    | Hb' : epoch_batches _ _ _ k = Some ?bs' |- _ =>
        assert (bs' = bs) as -> by congruence
    end.
    match goal with
    | Hu' : epoch_updates _ _ _ _ bs w _ _ |- _ =>
        destruct (epoch_updates_functional _ _ _ _ _ _ _ _ _ _ Hu Hu') as [<- <-]
    end.
    match goal with
    | He : fit_epochs _ _ _ _ _ _ ks wa _ _ |- _ =>
        destruct (IH _ _ He) as [<- <-]
    end.
    split; reflexivity.
Qed.

Lemma fit_run (rng : RandomState) (h : heap) (self X : loc)
    (W0 : option loc) (x : farray) (y : list Z) (batch_size : Z)
    (learning_rate reg : float) (epochs : Z) (n F C : nat) (w0 : farray) :
  h !! self = Some (OLinear W0) -> h !! X = Some (ONd x) -> W0 <> Some X ->
  has_shape x n F -> 0 < n -> length y = n ->
  initial_weights rng h W0 F y = Some w0 -> has_shape w0 F C -> 0 < C ->
  Forall (fun k => (0 <= k < Z.of_nat C)%Z) y ->
  batch_size <> 0%Z ->
  (forall k, Permutation (shuffle rng k (nd_arange n)) (nd_arange n)) ->
  exists history h' w wv',
    LinearSoftmaxClassifier.fit rng self X y batch_size learning_rate reg
      epochs h = Some (history, h') /\
    length history = Z.to_nat epochs /\
    fit_epochs rng x y batch_size learning_rate reg
      (seq 0 (Z.to_nat epochs)) w0 history wv' /\
    h' !! self = Some (OLinear (Some w)) /\ h' !! w = Some (ONd wv') /\
    h' !! X = Some (ONd x).
Proof.
  intros Hself HX Hne Sx Hn Hy Hw0 Sw0 HC Hlab Hbs Hperm.
  assert (Hb : forall k, exists batches,
             epoch_batches rng n batch_size k = Some batches /\ batches <> [] /\
             Forall (Forall (fun k => (0 <= k < Z.of_nat n)%Z)) batches).
  { intros k.
    destruct (epoch_batches_spec rng n batch_size k Hn Hbs (Hperm k))
      as (batches & Hb & Hnil & Hc & _).
    exists batches. split; [exact Hb |]. split; [exact Hnil |].
    exact (epoch_batches_in_range rng n k batches (Hperm k) Hc). }
  cut (wp (LinearSoftmaxClassifier.fit rng self X y batch_size learning_rate
             reg epochs) h
         (fun history h' => exists w wv',
            length history = Z.to_nat epochs /\
            fit_epochs rng x y batch_size learning_rate reg
              (seq 0 (Z.to_nat epochs)) w0 history wv' /\
            h' !! self = Some (OLinear (Some w)) /\ h' !! w = Some (ONd wv') /\
            h' !! X = Some (ONd x))).
  { intros (history & h' & Hrun & w & wv' & H). exists history, h', w, wv'.
    split; [exact Hrun | exact H]. }
  destruct (has_shape_inv _ _ _ Sx) as (rows & -> & Hrows & Hwf).
  unfold LinearSoftmaxClassifier.fit, LinearSoftmaxClassifier.get_W,
    LinearSoftmaxClassifier.set_W.
  destruct y as [| y0 y']; [cbn in Hy; lia |].
  note_lengths. wp_step. wp_step. wp_step. wp_step; [reflexivity |].
  wp_step. wp_step. wp_step. rewrite Hrows.
  destruct W0 as [w |]; cbn [initial_weights] in Hw0.
  - destruct (h !! w) as [[a | | | |] |] eqn:Hw; try discriminate.
    injection Hw0 as ->.
    wp_step. wp_step. wp_step.
    eapply (wp_fit_epochs rng self X w _ _ batch_size learning_rate reg n F C);
      try eassumption.
    { congruence. }
    intros history wv' h' Hfit Hlen Hself' Hw' HX'.
    exists w, wv'. rewrite length_seq in Hlen. auto.
  - cbn [LinearSoftmaxClassifier.max_int] in Hw0. cbv [mbind option_bind] in Hw0.
    destruct (Z.ltb_spec (fold_left Z.max y' y0 + 1) 0); [discriminate |].
    injection Hw0 as <-.
    wp_go.
    set (w := length (h ++ [ONd (randn rng F (Z.to_nat (fold_left Z.max y' y0 + 1)))])).
    assert (Hw : w = S (length h)) by (subst w; rewrite length_app; cbn; lia).
    eapply (wp_fit_epochs rng self X w _ _ batch_size learning_rate reg n F C);
      try eassumption.
    { lia. }
    { lookup. }
    { clear Hw. subst w. lookup. }
    { lookup. }
    intros history wv' h' Hfit Hlen Hself' Hw' HX'.
    exists w, wv'. rewrite length_seq in Hlen. auto.
Qed.

(** C7: a call of [LinearSoftmaxClassifier.fit] with at least one sample,
    a batch size other than zero, labels that are class numbers and
    weights of the fitting shape returns.  In every epoch the batches are
    consecutive pieces of the shuffled indices: put one after the other
    they give the shuffled indices back, so every sample index is in
    exactly one batch; every batch but the last has exactly [batch_size]
    entries, and the last has at least one and, for a positive
    [batch_size], at most [batch_size].  The batches are worked through in
    order, each one replacing the weights [w] by
    [w - learning_rate * (dW1 + dW2)] where [dW1] is the gradient of the
    classification loss on the batch and [dW2] the gradient of the L2 term;
    the history returned has one entry per epoch, the sum of the losses
    [loss1 + loss2] of the epoch's batches divided by their number. *)
Theorem fit_spec (rng : RandomState) (h : heap) (self X : loc)
    (W0 : option loc) (x : farray) (y : list Z) (batch_size : Z)
    (learning_rate reg : float) (epochs : Z) (n F C : nat) (w0 : farray) :
  h !! self = Some (OLinear W0) -> h !! X = Some (ONd x) -> W0 <> Some X ->
  has_shape x n F -> 0 < n -> length y = n ->
  initial_weights rng h W0 F y = Some w0 -> has_shape w0 F C -> 0 < C ->
  Forall (fun k => (0 <= k < Z.of_nat C)%Z) y ->
  batch_size <> 0%Z ->
  (forall k, Permutation (shuffle rng k (nd_arange n)) (nd_arange n)) ->
  exists history h' w wv',
    LinearSoftmaxClassifier.fit rng self X y batch_size learning_rate reg
      epochs h = Some (history, h') /\
    length history = Z.to_nat epochs /\
    fit_epochs rng x y batch_size learning_rate reg
      (seq 0 (Z.to_nat epochs)) w0 history wv' /\
    h' !! self = Some (OLinear (Some w)) /\ h' !! w = Some (ONd wv') /\
    forall k, exists batches,
      epoch_batches rng n batch_size k = Some batches /\
      concat batches = shuffle rng k (nd_arange n) /\
      Permutation (concat batches) (nd_arange n) /\
      (forall i, S i < length batches ->
         Z.of_nat (length (nth i batches [])) = batch_size) /\
      0 < length (List.last batches []) /\
      ((0 < batch_size)%Z ->
       (Z.of_nat (length (List.last batches [])) <= batch_size)%Z).
Proof.
  intros Hself HX Hne Sx Hn Hy Hw0 Sw0 HC Hlab Hbs Hperm.
  destruct (fit_run rng h self X W0 x y batch_size learning_rate reg epochs
              n F C w0) as (history & h' & w & wv' & Hrun & Hlen & Hfit & Hs & Hw & _);
    try assumption.
  exists history, h', w, wv'.
  repeat (split; [assumption |]).
  intros k.
  destruct (epoch_batches_spec rng n batch_size k Hn Hbs (Hperm k))
    as (batches & Hb & _ & Hc & Hfull & Hlast & Hlast').
  exists batches. rewrite Hc. auto 10.
Qed.

Lemma fit_spec_witness :
  exists history h' w wv',
    LinearSoftmaxClassifier.fit example_rng 0 1 [0; 1; 0]%Z 2 (Fin 1) (Fin 0)
      2 example_fit_heap = Some (history, h') /\
    length history = Z.to_nat 2 /\
    fit_epochs example_rng (Arr2 1 [[Fin 1]; [Fin 2]; [Fin 3]]) [0; 1; 0]%Z
      2 (Fin 1) (Fin 0) (seq 0 (Z.to_nat 2))
      (nd_map (fmul (Fin (1 / 1000))) (Arr2 2 [[Fin 1; Fin 1]])) history wv' /\
    h' !! 0 = Some (OLinear (Some w)) /\ h' !! w = Some (ONd wv') /\
    forall k, exists batches,
      epoch_batches example_rng 3 2 k = Some batches /\
      concat batches = shuffle example_rng k (nd_arange 3) /\
      Permutation (concat batches) (nd_arange 3) /\
      (forall i, S i < length batches ->
         Z.of_nat (length (nth i batches [])) = 2%Z) /\
      0 < length (List.last batches []) /\
      ((0 < 2)%Z -> (Z.of_nat (length (List.last batches [])) <= 2)%Z).
Proof.
  apply (fit_spec example_rng example_fit_heap 0 1 None
           (Arr2 1 [[Fin 1]; [Fin 2]; [Fin 3]]) [0; 1; 0]%Z 2 (Fin 1) (Fin 0)
           2 3 1 2 (nd_map (fmul (Fin (1 / 1000))) (Arr2 2 [[Fin 1; Fin 1]]))).
  - reflexivity.
  - reflexivity.
  - discriminate.
  - repeat split; reflexivity.
  - lia.
  - reflexivity.
  - reflexivity.
  - repeat split; reflexivity.
  - lia.
  - repeat constructor; lia.
  - lia.
  - intros k. apply Permutation_refl.
Defined.

(* ================================================================== *)
(** * Further properties of the code *)

(** * The order of the floats *)

Lemma fleb_float_le x y : fleb x y = true <-> float_le x y.
Proof.
  destruct x as [a | | |], y as [b | | |]; simpl; try tauto;
    try (split; [discriminate | tauto]).
  destruct (Rlt_dec b a); simpl; split; intros H; try lra; try discriminate.
Qed.

Lemma fleb_false_lt x y :
  is_nan x = false -> is_nan y = false -> fleb x y = false -> float_lt y x.
Proof.
  destruct x as [a | | |], y as [b | | |]; simpl; try discriminate; try tauto.
  destruct (Rlt_dec b a); simpl; [tauto | discriminate].
Qed.

Lemma float_le_refl x : is_nan x = false -> float_le x x.
Proof. destruct x; simpl; try discriminate; try tauto. intros _. lra. Qed.

Lemma float_le_lt_trans x y z : float_le x y -> float_lt y z -> float_lt x z.
Proof.
  destruct x as [a | | |], y as [b | | |], z as [c | | |]; simpl; try tauto.
  lra.
Qed.

Lemma float_lt_le x y : float_lt x y -> float_le x y.
Proof.
  destruct x as [a | | |], y as [b | | |]; simpl; try tauto. lra.
Qed.

Lemma float_le_not_nan x y : float_le x y -> is_nan x = false /\ is_nan y = false.
Proof. destruct x, y; simpl; tauto. Qed.

(** * np.argmax *)

Lemma argmax_from_spec (l p : list float) (mi : nat) :
  is_argmax p mi ->
  is_argmax (p ++ l) (argmax_from (nth mi p NaN) mi (length p) l).
Proof.
  revert p mi. induction l as [| x l IH]; intros p mi Hp.
  - rewrite app_nil_r. exact Hp.
  - destruct Hp as (Hlt & Hnan & Hmax). cbn [argmax_from].
    destruct (is_nan (nth mi p NaN)) eqn:Emp.
    + split; [rewrite length_app; lia |]. split.
      * intros j Hj. rewrite app_nth1 by lia. apply Hnan, Hj.
      * rewrite app_nth1 by lia. congruence.
    + destruct (Hmax eq_refl) as (Hle & Hstrict).
      assert (Hpx : (p ++ x :: l) = (p ++ [x]) ++ l)
        by (rewrite <- app_assoc; reflexivity).
      assert (Hlen : S (length p) = length (p ++ [x]))
        by (rewrite length_app; cbn; lia).
      destruct (fleb x (nth mi p NaN)) eqn:Ex.
      * rewrite Hpx, Hlen.
        replace (nth mi p NaN) with (nth mi (p ++ [x]) NaN)
          by (apply app_nth1; lia).
        apply IH. split; [rewrite length_app; lia |]. split.
        -- intros j Hj. rewrite app_nth1 by lia. apply Hnan, Hj.
        -- intros _. rewrite (app_nth1 p [x] NaN Hlt). split.
           ++ intros j Hj. rewrite length_app in Hj. cbn in Hj.
              destruct (Nat.eq_dec j (length p)) as [-> | Hne].
              ** rewrite app_nth2, Nat.sub_diag by lia. cbn.
                 apply fleb_float_le, Ex.
              ** rewrite app_nth1 by lia. apply Hle. lia.
           ++ intros j Hj. rewrite app_nth1 by lia. apply Hstrict, Hj.
      * assert (Hx : nth (length p) (p ++ [x]) NaN = x)
          by (rewrite app_nth2, Nat.sub_diag by lia; reflexivity).
        rewrite Hpx.
        replace (argmax_from x (length p) (S (length p)) l)
          with (argmax_from (nth (length p) (p ++ [x]) NaN) (length p)
                  (length (p ++ [x])) l)
          by (rewrite Hx, <- Hlen; reflexivity).
        apply IH. split; [rewrite length_app; cbn; lia |]. split.
        -- intros j Hj. rewrite app_nth1 by lia.
           apply (float_le_not_nan _ _ (Hle j Hj)).
        -- rewrite Hx. intros Enx.
           pose proof (fleb_false_lt _ _ Enx Emp Ex) as Hgt. split.
           ++ intros j Hj. rewrite length_app in Hj. cbn in Hj.
              destruct (Nat.eq_dec j (length p)) as [-> | Hne].
              ** rewrite Hx. apply float_le_refl, Enx.
              ** rewrite app_nth1 by lia.
                 apply float_lt_le. eapply float_le_lt_trans; [| exact Hgt].
                 apply Hle. lia.
           ++ intros j Hj. rewrite app_nth1 by lia.
              eapply float_le_lt_trans; [| exact Hgt]. apply Hle, Hj.
Qed.

Lemma argmax_list_spec (row : list float) :
  row <> [] -> exists k, argmax_list row = Some k /\ is_argmax row k.
Proof.
  destruct row as [| x l]; [congruence |]. intros _.
  exists (argmax_from x 0 1 l). split; [reflexivity |].
  apply (argmax_from_spec l [x] 0). split; [cbn; lia |]. split.
  - intros j Hj. lia.
  - cbn. intros Hx. split.
    + intros j Hj. assert (j = 0) as -> by lia. apply float_le_refl, Hx.
    + intros j Hj. lia.
Qed.

(** The position is the only one with the property. *)
Lemma is_argmax_unique (row : list float) (k k' : nat) :
  is_argmax row k -> is_argmax row k' -> k = k'.
Proof.
  intros (Hk & Hn & Hm) (Hk' & Hn' & Hm').
  destruct (is_nan (nth k row NaN)) eqn:E, (is_nan (nth k' row NaN)) eqn:E'.
  - destruct (Nat.lt_trichotomy k k') as [H | [H | H]]; [| exact H |].
    + rewrite (Hn' k H) in E. discriminate.
    + rewrite (Hn k' H) in E'. discriminate.
  - destruct (Hm' eq_refl) as (Hle & _).
    destruct (float_le_not_nan _ _ (Hle k Hk)). congruence.
  - destruct (Hm eq_refl) as (Hle & _).
    destruct (float_le_not_nan _ _ (Hle k' Hk')). congruence.
  - destruct (Hm eq_refl) as (Hle & Hst), (Hm' eq_refl) as (Hle' & Hst').
    destruct (Nat.lt_trichotomy k k') as [H | [H | H]]; [| exact H |].
    + pose proof (Hst' k H) as Hlt. pose proof (Hle k' Hk') as Hge.
      exfalso. clear -Hlt Hge.
      destruct (nth k row NaN), (nth k' row NaN); simpl in *; try tauto; lra.
    + pose proof (Hst k' H) as Hlt. pose proof (Hle' k Hk) as Hge.
      exfalso. clear -Hlt Hge.
      destruct (nth k row NaN), (nth k' row NaN); simpl in *; try tauto; lra.
Qed.

Lemma mapM_argmax_list (rows : list (list float)) :
  Forall (fun r => r <> []) rows ->
  exists ks, mapM argmax_list rows = Some ks /\ Forall2 is_argmax rows ks.
Proof.
  induction 1 as [| r rows Hr _ (ks & Hks & Hall)].
  - exists []. split; [reflexivity | constructor].
  - destruct (argmax_list_spec r Hr) as (k & Hk & Hak).
    exists (k :: ks). split; [| constructor; assumption].
    apply mapM_Some. constructor; [exact Hk |]. apply mapM_Some, Hks.
Qed.

Lemma nd_argmax_axis1_spec (a : farray) (r c : nat) :
  has_shape a r c -> 0 < c ->
  exists ks,
    nd_argmax_axis1 a = Some (map Z.of_nat ks) /\ length ks = r /\
    forall i, i < r -> is_argmax (nd_row a i) (nth i ks 0).
Proof.
  intros Ha Hc. destruct (has_shape_inv _ _ _ Ha) as (rows & -> & Hr & Hwf).
  destruct (mapM_argmax_list rows) as (ks & Hks & Hall).
  { apply List.Forall_forall. intros row Hrow Hnil.
    apply (In_nth _ _ []) in Hrow as (i & Hi & Hrow).
    pose proof (wf_array_row c rows i Hwf Hi) as Hlen.
    rewrite Hrow, Hnil in Hlen. cbn in Hlen. lia. }
  exists ks. cbn [nd_argmax_axis1]. destruct (Nat.eqb_spec c 0); [lia |].
  rewrite Hks. split; [reflexivity |].
  pose proof (Forall2_length _ _ _ Hall) as Hlen. split; [lia |].
  intros i Hi. cbn [nd_row].
  eapply (Forall2_lookup_lr _ rows ks i); [exact Hall | |].
  - apply lookup_nth. lia.
  - apply lookup_nth. lia.
Qed.

Lemma wp_argmax_axis1 (h : heap) (l : loc) (a : farray) (r c : nat) Q :
  h !! l = Some (ONd a) -> has_shape a r c -> 0 < c ->
  (forall ks, length ks = r ->
              (forall i, i < r -> is_argmax (nd_row a i) (nth i ks 0)) ->
              Q (map Z.of_nat ks) h) ->
  wp (np.argmax_axis1 l) h Q.
Proof.
  intros Hl Ha Hc HQ.
  destruct (nd_argmax_axis1_spec a r c Ha Hc) as (ks & Hks & Hlen & Hall).
  unfold np.argmax_axis1. wp_step. wp_step. wp_step; [exact Hks |].
  apply HQ; assumption.
Qed.

Lemma is_argmax_lt (a : farray) (r c i k : nat) :
  has_shape a r c -> i < r -> is_argmax (nd_row a i) k -> k < c.
Proof.
  intros Ha Hi (Hk & _). destruct (has_shape_inv _ _ _ Ha) as (rows & -> & Hr & Hwf).
  cbn [nd_row] in Hk. rewrite (wf_array_row c rows i Hwf) in Hk by lia. exact Hk.
Qed.

(** X1: on a batch of the input width, [TwoLayerNet.predict] returns one
    class per row: the position [np.argmax] gives in the row of the output
    of the forward pass ([x . W0 + B0], ReLU, [. W2 + B2]), which is the
    first position of the largest score (of the first NaN, if there is
    one), and a class number below [n_output].  The call changes no
    object but the layers, which keep their inputs: parameter values and
    gradients are as before. *)
Theorem TwoLayerNet_predict_spec (h : heap) (net : TwoLayerNet.t)
    (L : net_layout) (V : net_values) (n_in hid n_out : nat)
    (X : loc) (x : farray) (batch : nat) :
  net_in_heap h net L V n_in hid n_out ->
  h !! X = Some (ONd x) -> has_shape x batch n_in -> 0 < n_out ->
  exists a0 out ks h',
    TwoLayerNet.predict net X h = Some (map Z.of_nat ks, h') /\
    fc_forward_nd x (vW0 V) (vB0 V) = Some a0 /\
    fc_forward_nd (relu_forward_nd a0) (vW2 V) (vB2 V) = Some out /\
    length ks = batch /\
    (forall i, i < batch ->
       nth i ks 0 < n_out /\ is_argmax (nd_row out i) (nth i ks 0)) /\
    heap_le_kind is_layer h h' /\
    net_in_heap h' net L V n_in hid n_out.
Proof.
  intros Hnet HX Sx Hpos.
  destruct Hnet as (Hlayers & Hfc & Hnd & (X0 & H0) & (X1 & H1) & (X2 & H2) &
                    (g0 & P0) & (g1 & P1) & (g2 & P2) & (g3 & P3) &
                    A0 & A1 & A2 & A3 & SW0 & SB0 & SW2 & SB2).
  destruct (fc_forward_nd_shape x (vW0 V) (vB0 V) batch n_in hid Sx SW0 SB0)
    as (a0 & Ha0 & Sa0 & _).
  pose proof (has_shape_nd_map (fmaximum (Fin 0)) a0 batch hid Sa0) as Sr.
  destruct (fc_forward_nd_shape (relu_forward_nd a0) (vW2 V) (vB2 V)
              batch hid n_out Sr SW2 SB2) as (out & Hout & Sout & _).
  cut (wp (TwoLayerNet.predict net X) h (fun ys h' =>
         exists ks, ys = map Z.of_nat ks /\ length ks = batch /\
           (forall i, i < batch ->
              nth i ks 0 < n_out /\ is_argmax (nd_row out i) (nth i ks 0)) /\
           heap_le_kind is_layer h h' /\
           net_in_heap h' net L V n_in hid n_out)).
  { intros (ys & h' & Hrun & ks & -> & Hlen & Hall & Hk & Hnet').
    exists a0, out, ks, h'. auto 10. }
  unfold TwoLayerNet.predict. note_lengths.
  do 2 wp_step. { reflexivity. }
  rewrite Hlayers. cbn [fold_each]. do 2 wp_step.
  eapply wp_Layer_forward_fc; [lookup | lookup | lookup | lookup | lookup | lookup | exact Ha0 |].
  intros c0 h2 Hc0 Fc0 Hs0 E2 K2. note_lengths. wp_step.
  eapply wp_Layer_forward_relu; [lookup | lookup |].
  intros c1 h3 Hc1 Fc1 Hs1 E3 K3. note_lengths. wp_step.
  eapply wp_Layer_forward_fc; [lookup | lookup | lookup | lookup | lookup | lookup | exact Hout |].
  intros c2 h4 Hc2 Fc2 Hs2 E4 K4. note_lengths. wp_step. wp_step.
  eapply wp_argmax_axis1; [lookup | exact Sout | exact Hpos |].
  intros ks Hlen Hall. apply wp_ret. exists ks.
  split; [reflexivity |]. split; [exact Hlen |]. split.
  { intros i Hi. split; [| apply Hall, Hi].
    eapply is_argmax_lt; [exact Sout | exact Hi | apply Hall, Hi]. }
  assert (K : heap_le_kind is_layer h h4).
  { eapply heap_le_kind_trans; [apply heap_le_kind_of_le, heap_le_alloc |].
    eapply heap_le_kind_trans; [exact K2 |].
    eapply heap_le_kind_trans; [exact K3 | exact K4]. }
  split; [exact K |].
  unfold net_in_heap.
  split; [exact Hlayers |]. split; [exact Hfc |]. split; [exact Hnd |].
  split; [eexists; lookup |]. split; [eexists; lookup |]. split; [eexists; lookup |].
  split; [exists g0; apply K; [intros [] | exact P0] |].
  split; [exists g1; apply K; [intros [] | exact P1] |].
  split; [exists g2; apply K; [intros [] | exact P2] |].
  split; [exists g3; apply K; [intros [] | exact P3] |].
  split; [apply K; [intros [] | exact A0] |].
  split; [apply K; [intros [] | exact A1] |].
  split; [apply K; [intros [] | exact A2] |].
  split; [apply K; [intros [] | exact A3] |].
  auto.
Qed.

Lemma TwoLayerNet_predict_spec_witness :
  exists a0 out ks h',
    TwoLayerNet.predict example_net 12 example_heap
      = Some (map Z.of_nat ks, h') /\
    fc_forward_nd (Arr2 1 [[Fin 1]]) (vW0 example_values) (vB0 example_values)
      = Some a0 /\
    fc_forward_nd (relu_forward_nd a0) (vW2 example_values)
      (vB2 example_values) = Some out /\
    length ks = 1 /\
    (forall i, i < 1 ->
       nth i ks 0 < 2 /\ is_argmax (nd_row out i) (nth i ks 0)) /\
    heap_le_kind is_layer example_heap h' /\
    net_in_heap h' example_net example_layout example_values 1 1 2.
Proof.
  apply (TwoLayerNet_predict_spec example_heap example_net example_layout
           example_values 1 1 2 12 (Arr2 1 [[Fin 1]]) 1).
  - exact example_net_in_heap.
  - reflexivity.
  - repeat split; reflexivity.
  - lia.
Defined.

(** * The constructors *)

Lemma wp_FullyConnectedLayer_init (h : heap) (n_input n_output : nat)
    (randn_W randn_B : nat -> nat -> farray) Q :
  (forall self W B wv wg bv bg h',
     h' !! self = Some (OFC W B None) ->
     h' !! W = Some (OParam wv wg) -> h' !! B = Some (OParam bv bg) ->
     h' !! wv = Some (ONd (nd_map (fmul (Fin (1 / 1000))) (randn_W n_input n_output))) ->
     h' !! wg = Some (ONd (nd_zeros_like
                        (nd_map (fmul (Fin (1 / 1000))) (randn_W n_input n_output)))) ->
     h' !! bv = Some (ONd (nd_map (fmul (Fin (1 / 1000))) (randn_B 1 n_output))) ->
     h' !! bg = Some (ONd (nd_zeros_like
                        (nd_map (fmul (Fin (1 / 1000))) (randn_B 1 n_output)))) ->
     length h <= W -> W < B -> B < self -> self < length h' ->
     heap_le h h' ->
     Q self h') ->
  wp (FullyConnectedLayer.init n_input n_output randn_W randn_B) h Q.
Proof.
  intros HQ. unfold FullyConnectedLayer.init, Param_init. wp_go.
  eapply HQ; try lookup; try heap_lengths.
  repeat (eapply heap_le_trans; [| apply heap_le_alloc]). apply heap_le_refl.
Qed.

(** X2: [TwoLayerNet.__init__] builds, from any heap and without changing
    what is in it, a network of a fully connected layer, a ReLU and a
    fully connected layer whose four parameters are distinct objects: the
    weights have the shapes (n_input, hidden) and (hidden, n_output), the
    biases (1, hidden) and (1, n_output), the values are the arrays of
    [np.random.randn] scaled by 0.001, and every gradient is the array of
    zeros of the shape of its value. *)
Theorem TwoLayerNet_init_spec (h : heap)
    (n_input n_output hidden_layer_size : nat) (reg : float)
    (randn : nat -> nat -> nat -> farray) :
  has_shape (randn 0 n_input hidden_layer_size) n_input hidden_layer_size ->
  has_shape (randn 1 1 hidden_layer_size) 1 hidden_layer_size ->
  has_shape (randn 2 hidden_layer_size n_output) hidden_layer_size n_output ->
  has_shape (randn 3 1 n_output) 1 n_output ->
  exists net L h',
    TwoLayerNet.init n_input n_output hidden_layer_size reg randn h
      = Some (net, h') /\
    TwoLayerNet.reg net = reg /\
    net_in_heap h' net L
      (init_values n_input n_output hidden_layer_size randn)
      n_input hidden_layer_size n_output /\
    param_grad_value h' (pW0 L) =
      Some (nd_zeros_like (vW0 (init_values n_input n_output hidden_layer_size randn))) /\
    param_grad_value h' (pB0 L) =
      Some (nd_zeros_like (vB0 (init_values n_input n_output hidden_layer_size randn))) /\
    param_grad_value h' (pW2 L) =
      Some (nd_zeros_like (vW2 (init_values n_input n_output hidden_layer_size randn))) /\
    param_grad_value h' (pB2 L) =
      Some (nd_zeros_like (vB2 (init_values n_input n_output hidden_layer_size randn))) /\
    heap_le h h'.
Proof.
  intros S0 S1 S2 S3.
  set (V := init_values n_input n_output hidden_layer_size randn).
  cut (wp (TwoLayerNet.init n_input n_output hidden_layer_size reg randn) h
         (fun net h' => exists L,
            TwoLayerNet.reg net = reg /\
            net_in_heap h' net L V n_input hidden_layer_size n_output /\
            param_grad_value h' (pW0 L) = Some (nd_zeros_like (vW0 V)) /\
            param_grad_value h' (pB0 L) = Some (nd_zeros_like (vB0 V)) /\
            param_grad_value h' (pW2 L) = Some (nd_zeros_like (vW2 V)) /\
            param_grad_value h' (pB2 L) = Some (nd_zeros_like (vB2 V)) /\
            heap_le h h')).
  { intros (net & h' & Hrun & L & H). exists net, L, h'. split; [exact Hrun | exact H]. }
  unfold TwoLayerNet.init. wp_step.
  apply wp_FullyConnectedLayer_init.
  intros l0 W0 B0 wv0 wg0 bv0 bg0 h1 Hl0 HW0 HB0 Hwv0 Hwg0 Hbv0 Hbg0 F0 O0 O0' T0 Le1.
  note_lengths. wp_step. unfold ReLULayer.init. wp_step. wp_step.
  apply wp_FullyConnectedLayer_init.
  intros l2 W2 B2 wv2 wg2 bv2 bg2 h3 Hl2 HW2 HB2 Hwv2 Hwg2 Hbv2 Hbg2 F2 O2 O2' T2 Le3.
  note_lengths. apply wp_ret.
  assert (Le13 : heap_le h1 h3).
  { eapply heap_le_trans; [apply heap_le_alloc | exact Le3]. }
  exists {| fc0 := l0; relu1 := length h1; fc2 := l2;
            pW0 := W0; pB0 := B0; pW2 := W2; pB2 := B2;
            aW0 := wv0; aB0 := bv0; aW2 := wv2; aB2 := bv2 |}.
  split; [reflexivity |].
  assert (Q0 : h3 !! W0 = Some (OParam wv0 wg0)) by (apply Le13, HW0).
  assert (Q1 : h3 !! B0 = Some (OParam bv0 bg0)) by (apply Le13, HB0).
  split; [| split; [| split; [| split; [| split]]]].
  - unfold net_in_heap. cbn [fc0 relu1 fc2 pW0 pB0 pW2 pB2 aW0 aB0 aW2 aB2
                            TwoLayerNet.layers app].
    rewrite length_app in F2. cbn [length] in F2.
    split; [reflexivity |]. split; [lia |].
    split.
    { repeat (apply NoDup_cons; split;
              [rewrite ?elem_of_cons, elem_of_nil; lia |]).
      apply NoDup_nil. exact I. }
    split; [exists None; apply Le13, Hl0 |].
    split; [exists None; apply Le3, lookup_alloc_new |].
    split; [exists None; exact Hl2 |].
    split; [exists wg0; exact Q0 |]. split; [exists bg0; exact Q1 |].
    split; [exists wg2; exact HW2 |]. split; [exists bg2; exact HB2 |].
    split; [apply Le13, Hwv0 |]. split; [apply Le13, Hbv0 |].
    split; [exact Hwv2 |]. split; [exact Hbv2 |].
    subst V. cbn [init_values vW0 vB0 vW2 vB2].
    split; [| split; [| split]]; apply has_shape_nd_map; assumption.
  - unfold param_grad_value. cbn [pW0]. rewrite Q0, (Le13 _ _ Hwg0). reflexivity.
  - unfold param_grad_value. cbn [pB0]. rewrite Q1, (Le13 _ _ Hbg0). reflexivity.
  - unfold param_grad_value. cbn [pW2]. rewrite HW2, Hwg2. reflexivity.
  - unfold param_grad_value. cbn [pB2]. rewrite HB2, Hbg2. reflexivity.
  - eapply heap_le_trans; [exact Le1 | exact Le13].
Qed.

(** * Calls that raise *)

Lemma bind_None_l {A B} (m : M A) (k : A -> M B) h :
  m h = None -> bind m k h = None.
Proof. unfold bind. intros ->. reflexivity. Qed.

Lemma bind_None_r {A B} (m : M A) (k : A -> M B) h :
  wp m h (fun a h1 => k a h1 = None) -> bind m k h = None.
Proof. intros (a & h1 & Hm & Hk). unfold bind. rewrite Hm. exact Hk. Qed.

Lemma bind_None_always {A B} (m : M A) (k : A -> M B) h :
  (forall a h1, m h = Some (a, h1) -> k a h1 = None) -> bind m k h = None.
Proof.
  intros H. unfold bind. destruct (m h) as [[a h1] |]; [| reflexivity].
  apply H. reflexivity.
Qed.

(** * The forward passes of the layers *)

Lemma at2_nd_map_wf (f : float -> float) (a : farray) (i j : nat) :
  wf_array a = true -> i < fst (shape2 a) -> j < snd (shape2 a) ->
  at2 (nd_map f a) i j = f (at2 a i j).
Proof.
  destruct a as [v | nc rows]; cbn [shape2 fst snd]; intros Hwf Hi Hj.
  - cbn [nd_map at2]. apply nth_map_lt, Hj.
  - cbn [nd_map at2].
    rewrite (nth_indep _ [] (map f [])) by (rewrite length_map; exact Hi).
    rewrite (map_nth (map f)). apply nth_map_lt.
    rewrite (wf_array_row nc rows i Hwf Hi). exact Hj.
Qed.

Lemma nd_map_shape {A B} (f : A -> B) (a : ndarray A) :
  ndim (nd_map f a) = ndim a /\ shape2 (nd_map f a) = shape2 a.
Proof.
  destruct a as [v | nc rows]; cbn; rewrite length_map; auto.
Qed.

Lemma fmaximum_zero (x : float) :
  (float_lt x (Fin 0) -> fmaximum (Fin 0) x = Fin 0) /\
  (float_le (Fin 0) x -> fmaximum (Fin 0) x = x).
Proof.
  destruct x as [a | | |]; cbn; try tauto.
  destruct (Rlt_dec 0 a); split; intros H; try reflexivity; try lra.
  f_equal. lra.
Qed.

(** X3: [ReLULayer.forward(X)] returns a new array of the shape of [X]
    that is 0 where [X] is negative and the entry of [X] where it is 0 or
    more; the layer keeps [X] itself (not a copy), and no object but the
    layer is changed, [X] included. *)
Theorem ReLULayer_forward_spec (h : heap) (self X : loc) X0 (x : farray) :
  h !! self = Some (OReLU X0) -> h !! X = Some (ONd x) ->
  wf_array x = true ->
  exists res out h',
    ReLULayer.forward self X h = Some (res, h') /\
    h' !! res = Some (ONd out) /\ length h <= res /\
    ndim out = ndim x /\ shape2 out = shape2 x /\
    (forall i j, i < fst (shape2 x) -> j < snd (shape2 x) ->
       (float_lt (at2 x i j) (Fin 0) -> at2 out i j = Fin 0) /\
       (float_le (Fin 0) (at2 x i j) -> at2 out i j = at2 x i j)) /\
    h' !! self = Some (OReLU (Some X)) /\
    h' !! X = Some (ONd x) /\
    heap_le_except [self] h h'.
Proof.
  intros Hself HX Hwf.
  assert (Hrun : wp (ReLULayer.forward self X) h (fun res h' =>
            h' !! res = Some (ONd (relu_forward_nd x)) /\ length h <= res /\
            h' !! self = Some (OReLU (Some X)) /\ h' !! X = Some (ONd x) /\
            heap_le_except [self] h h')).
  { unfold ReLULayer.forward. note_lengths. wp_go.
    split; [lookup |]. split; [heap_lengths |]. split; [lookup |].
    split; [lookup |].
    split; [heap_lengths |]. intros l o Hnin Hl.
    assert (l <> self) by (intros ->; apply Hnin; simpl; auto).
    lookup. }
  destruct Hrun as (res & h' & Hrun & Hres & Hfr & Hs & Hx & Hex).
  destruct (nd_map_shape (fmaximum (Fin 0)) x) as [Hnd Hsh].
  exists res, (relu_forward_nd x), h'.
  repeat (split; [assumption |]).
  split; [| auto].
  intros i j Hi Hj. unfold relu_forward_nd.
  rewrite at2_nd_map_wf by assumption. apply fmaximum_zero.
Qed.

Lemma Layer_forward_fc_run (h : heap) (self X W B : loc) X0 :
  h !! self = Some (OFC W B X0) ->
  Layer.forward self X h = FullyConnectedLayer.forward self X h.
Proof.
  intros Hself. unfold Layer.forward, bind. rewrite (load_run _ _ _ Hself).
  reflexivity.
Qed.

(** X4: [FullyConnectedLayer.forward(X)] on a batch of [n_input] columns
    returns a new array of shape (batch, n_output) with the entries of
    [X . W + B], the bias row added to every row; the layer keeps [X]
    itself, and no object but the layer is changed. *)
Theorem FullyConnectedLayer_forward_spec (h : heap)
    (self W B X wv wg bv bg : loc) X0 (x w b : farray)
    (batch n_input n_output : nat) :
  h !! self = Some (OFC W B X0) ->
  h !! W = Some (OParam wv wg) -> h !! B = Some (OParam bv bg) ->
  h !! X = Some (ONd x) -> h !! wv = Some (ONd w) -> h !! bv = Some (ONd b) ->
  has_shape x batch n_input -> has_shape w n_input n_output ->
  has_shape b 1 n_output ->
  exists res out h',
    FullyConnectedLayer.forward self X h = Some (res, h') /\
    h' !! res = Some (ONd out) /\ length h <= res /\
    has_shape out batch n_output /\
    (forall i j, i < batch -> j < n_output ->
       at2 out i j =
         fadd (fsum (tabulate n_input (fun k => fmul (at2 x i k) (at2 w k j))))
              (at2 b 0 j)) /\
    h' !! self = Some (OFC W B (Some X)) /\
    heap_le_except [self] h h'.
Proof.
  intros Hself HW HB HX Hwv Hbv Sx Sw Sb.
  destruct (fc_forward_nd_shape x w b batch n_input n_output Sx Sw Sb)
    as (out & Hout & Sout & Hat).
  assert (Hrun : wp (Layer.forward self X) h (fun res h' =>
            h' !! res = Some (ONd out) /\ length h <= res /\
            h' !! self = Some (OFC W B (Some X)) /\
            heap_le_except [self] h h')).
  { eapply wp_Layer_forward_fc; try eassumption. intros. auto. }
  destruct Hrun as (res & h' & Hrun & Hres & Hfr & Hs & Hex).
  rewrite (Layer_forward_fc_run h self X W B X0 Hself) in Hrun.
  exists res, out, h'. auto 10.
Qed.

(** X5: [FullyConnectedLayer.forward(X)] raises when the number of
    columns of the batch is not the number of rows of the weights. *)
Theorem FullyConnectedLayer_forward_shape_mismatch (h : heap)
    (self W B X wv wg : loc) X0 (x w : farray) (batch m n_input n_output : nat) :
  h !! self = Some (OFC W B X0) -> h !! W = Some (OParam wv wg) ->
  h !! X = Some (ONd x) -> h !! wv = Some (ONd w) ->
  has_shape x batch m -> has_shape w n_input n_output -> m <> n_input ->
  FullyConnectedLayer.forward self X h = None.
Proof.
  intros Hself HW HX Hwv Sx Sw Hne.
  destruct (has_shape_inv _ _ _ Sx) as (rx & -> & Hrx & _).
  destruct (has_shape_inv _ _ _ Sw) as (rw & -> & Hrw & _).
  assert (Hdot : nd_dot (Arr2 m rx) (Arr2 n_output rw) = None).
  { cbn [nd_dot]. rewrite Hrw. destruct (Nat.eqb_spec m n_input); [lia | reflexivity]. }
  unfold FullyConnectedLayer.forward, Param_value. note_lengths.
  apply bind_None_r. wp_step. cbv beta iota.
  apply bind_None_r. wp_step.
  apply bind_None_r. wp_go.
  apply bind_None_l. unfold np.dot, np.binary.
  apply bind_None_r. wp_step.
  apply bind_None_r. wp_step.
  apply bind_None_l. rewrite Hdot. reflexivity.
Qed.

(** X6: [backward] on a layer that has seen no [forward] raises, for both
    kinds of layers. *)
Theorem backward_before_forward_raises (h : heap) (self d_out : loc) :
  (h !! self = Some (OReLU None) -> ReLULayer.backward self d_out h = None) /\
  (forall W B, h !! self = Some (OFC W B None) ->
               FullyConnectedLayer.backward self d_out h = None).
Proof.
  split.
  - intros Hself. unfold ReLULayer.backward.
    apply bind_None_always. intros r h1 Hcopy.
    apply unary_Some in Hcopy as (x & y & Hd & _ & [= -> ->]).
    apply bind_None_l. unfold ReLULayer.get_X.
    apply bind_None_r. wp_step. reflexivity.
  - intros W B Hself. unfold FullyConnectedLayer.backward.
    unfold FullyConnectedLayer.get_W at 1. note_lengths.
    apply bind_None_r. wp_go.
    apply bind_None_always. intros g h1 Hg. unfold Param_grad in Hg.
    apply bind_Some in Hg as (o & h2 & Hl & Hk).
    apply load_Some in Hl as [_ Hh]. cbn in Hh. subst h2.
    assert (h1 = h) as ->.
    { destruct o; cbn in Hk; try discriminate. injection Hk as _ <-. reflexivity. }
    apply bind_None_l. unfold FullyConnectedLayer.get_X.
    apply bind_None_r. wp_step. reflexivity.
Qed.

(** X7: [TwoLayerNet.compute_loss_and_gradients] changes no object of the
    heap but the three layers and the four parameter objects: the input
    batch, the parameter values and also the arrays that held the
    gradients before the call are as they were, and the network keeps its
    layout and its values. *)
Theorem compute_loss_and_gradients_frame (h : heap) (net : TwoLayerNet.t)
    (L : net_layout) (V : net_values) (n_in hid n_out : nat)
    (X : loc) (x : farray) (y : list Z) (batch : nat) :
  net_in_heap h net L V n_in hid n_out ->
  h !! X = Some (ONd x) -> has_shape x batch n_in ->
  0 < n_out -> length y = batch ->
  Forall (fun k => (0 <= k < Z.of_nat n_out)%Z) y ->
  exists loss h',
    TwoLayerNet.compute_loss_and_gradients net X y h = Some (loss, h') /\
    (forall l o,
       ~ In l [fc0 L; relu1 L; fc2 L; pW0 L; pB0 L; pW2 L; pB2 L] ->
       h !! l = Some o -> h' !! l = Some o) /\
    h' !! X = Some (ONd x) /\
    net_in_heap h' net L V n_in hid n_out.
Proof.
  intros Hnet HX Hx Hpos Hlen Hy.
  pose proof Hnet as (_ & _ & _ & _ & _ & _ & _ & _ & _ & _ & _ & _ & _ & _ &
                      SW0 & SB0 & SW2 & SB2).
  destruct (net_outcome_exists (TwoLayerNet.reg net) x y V batch n_in hid n_out)
    as (T & Hout & (Ond & Osh & Owf) & Hv & _); try assumption.
  destruct (compute_loss_and_gradients_run h net L V n_in hid n_out X x y T)
    as (loss & h' & Hrun & _ & _ & _ & _ & _ & Hnet' & HX' & Hex);
    try assumption.
  { rewrite Osh. exact Hpos. }
  exists loss, h'. split; [exact Hrun |]. split; [apply Hex |]. auto.
Qed.

(** X8: [linear_softmax(X, W, target_index)] returns the cross-entropy
    loss of the predictions [X . W] and a new array [dW] of the shape of
    [W] with the entries of [X^T . dprediction], where [dprediction] is
    the gradient of [softmax_with_cross_entropy]; it changes neither [X]
    nor [W] nor any other object. *)
Theorem linear_softmax_spec (h : heap) (X W : loc) (x w : farray)
    (target_index : list Z) (batch F C : nat) :
  h !! X = Some (ONd x) -> h !! W = Some (ONd w) ->
  has_shape x batch F -> has_shape w F C -> 0 < C ->
  length target_index = batch ->
  Forall (fun k => (0 <= k < Z.of_nat C)%Z) target_index ->
  exists predictions dprediction dW dw h',
    linear_softmax X W target_index h =
      Some ((ce_loss (softmax_nd predictions) target_index, dW), h') /\
    nd_dot x w = Some predictions /\
    swce_gradient (softmax_nd predictions) dprediction target_index /\
    h' !! dW = Some (ONd dw) /\ length h <= dW /\ has_shape dw F C /\
    (forall i j, i < F -> j < C ->
       at2 dw i j = dot_cols batch x dprediction i j) /\
    heap_le h h'.
Proof.
  intros HX HW Sx Sw HC Hlen Hlab.
  assert (Hrun : wp (linear_softmax X W target_index) h (fun r h' =>
            exists pred g dw,
              r = (ce_loss (softmax_nd pred) target_index, snd r) /\
              nd_dot x w = Some pred /\
              swce_gradient (softmax_nd pred) g target_index /\
              nd_dot (nd_transpose x) g = Some dw /\
              h' !! snd r = Some (ONd dw) /\ length h <= snd r /\
              heap_le h h')).
  { eapply wp_linear_softmax; try eassumption.
    intros pred g dW1 d h' Hp Hg Hd _ Hl Hle Hfr.
    exists pred, g, dW1. cbn [snd]. auto 10. }
  destruct Hrun as ([loss d] & h' & Hrun & pred & g & dw & Hr & Hp & Hg & Hd & Hl & Hfr & Hle).
  cbn [snd] in *. injection Hr as ->.
  destruct (nd_dot_shape x w batch F C Sx Sw) as (pred' & Hp' & Sp & _).
  assert (pred' = pred) as -> by congruence.
  pose proof (swce_gradient_shape _ _ _ _ _ Sp Hg) as Sg.
  destruct (has_shape_transpose x batch F Sx) as (St & Hat).
  destruct (nd_dot_shape (nd_transpose x) g F batch C St Sg) as (dw' & Hd' & Sdw & Hdw).
  assert (dw' = dw) as -> by congruence.
  exists pred, g, d, dw, h'. repeat (split; [assumption |]).
  split; [| exact Hle].
  intros i j Hi Hj. rewrite Hdw by assumption. unfold dot_cols.
  f_equal. unfold tabulate. apply map_ext_in. intros k Hk.
  apply in_seq in Hk. rewrite Hat by lia. reflexivity.
Qed.

(** * Predictions of the linear classifier *)

Lemma LinearSoftmaxClassifier_predict_run (h : heap) (self X w : loc)
    (x wv : farray) (n F C : nat) :
  h !! self = Some (OLinear (Some w)) -> h !! w = Some (ONd wv) ->
  h !! X = Some (ONd x) -> has_shape x n F -> has_shape wv F C -> 0 < C ->
  exists y ks h',
    LinearSoftmaxClassifier.predict self X h = Some (map Z.of_nat ks, h') /\
    nd_dot x wv = Some y /\ length ks = n /\
    (forall i, i < n ->
       nth i ks 0 < C /\ is_argmax (nd_row y i) (nth i ks 0)) /\
    heap_le h h'.
Proof.
  intros Hself Hw HX Sx Sw HC.
  destruct (nd_dot_shape x wv n F C Sx Sw) as (y & Hy & Sy & _).
  cut (wp (LinearSoftmaxClassifier.predict self X) h (fun ys h' =>
         exists ks, ys = map Z.of_nat ks /\ length ks = n /\
           (forall i, i < n ->
              nth i ks 0 < C /\ is_argmax (nd_row y i) (nth i ks 0)) /\
           heap_le h h')).
  { intros (ys & h' & Hrun & ks & -> & H). exists y, ks, h'. auto. }
  unfold LinearSoftmaxClassifier.predict, LinearSoftmaxClassifier.get_W.
  note_lengths. wp_go.
  eapply wp_argmax_axis1; [lookup | exact Sy | exact HC |].
  intros ks Hlen Hall. apply wp_ret. exists ks.
  split; [reflexivity |]. split; [exact Hlen |]. split; [| apply heap_le_alloc].
  intros i Hi. split; [| apply Hall, Hi].
  eapply is_argmax_lt; [exact Sy | exact Hi | apply Hall, Hi].
Qed.

(** X9: once the classifier has weights of shape (num_features, C),
    [LinearSoftmaxClassifier.predict(X)] returns one class per row of
    [X]: the position [np.argmax] gives in the row of [X . W], the first
    position of the largest score, a class number below [C]; no object of
    the heap is changed. *)
Theorem LinearSoftmaxClassifier_predict_spec (h : heap) (self X w : loc)
    (x wv : farray) (n F C : nat) :
  h !! self = Some (OLinear (Some w)) -> h !! w = Some (ONd wv) ->
  h !! X = Some (ONd x) -> has_shape x n F -> has_shape wv F C -> 0 < C ->
  exists y ks h',
    LinearSoftmaxClassifier.predict self X h = Some (map Z.of_nat ks, h') /\
    nd_dot x wv = Some y /\ length ks = n /\
    (forall i, i < n ->
       nth i ks 0 < C /\ is_argmax (nd_row y i) (nth i ks 0)) /\
    heap_le h h'.
Proof. apply LinearSoftmaxClassifier_predict_run. Qed.

(** X10: [LinearSoftmaxClassifier.predict] on a classifier that was never
    fitted raises, for every array [X] that has an entry. *)
Theorem predict_before_fit_raises (h : heap) (self X : loc) (x : farray) :
  h !! self = Some (OLinear None) -> h !! X = Some (ONd x) ->
  0 < nd_size x ->
  LinearSoftmaxClassifier.predict self X h = None.
Proof.
  intros Hself HX Hsize.
  unfold LinearSoftmaxClassifier.predict, LinearSoftmaxClassifier.get_W.
  apply bind_None_r. wp_go.
  apply bind_None_r. wp_step.
  destruct (Nat.eqb_spec (nd_size x) 0); [lia | reflexivity].
Qed.

(** X11: [LinearSoftmaxClassifier.fit] raises on an empty label vector
    ([np.max] of no entries), and, when there is an epoch to run, on a
    batch size of 0 ([np.arange] with step 0). *)
Theorem fit_raises (rng : RandomState) (h : heap) (self X : loc)
    (y : list Z) (batch_size : Z) (learning_rate reg : float) (epochs : Z) :
  LinearSoftmaxClassifier.fit rng self X [] batch_size learning_rate reg
    epochs h = None /\
  ((0 < epochs)%Z ->
   LinearSoftmaxClassifier.fit rng self X y 0 learning_rate reg epochs h
     = None).
Proof.
  split.
  - unfold LinearSoftmaxClassifier.fit.
    apply bind_None_always. intros x h1 _. destruct x; [reflexivity |].
    apply bind_None_l. reflexivity.
  - intros He. unfold LinearSoftmaxClassifier.fit.
    apply bind_None_always. intros x h1 _. destruct x as [v | F rows]; [reflexivity |].
    apply bind_None_always. intros m h2 _.
    apply bind_None_always. intros W h3 _.
    apply bind_None_always. intros u h4 _.
    destruct (Z.to_nat epochs) as [| k] eqn:E; [lia |].
    cbn [seq fold_each]. apply bind_None_l.
    unfold LinearSoftmaxClassifier.fit_epoch. apply bind_None_l.
    reflexivity.
Qed.

(** * The weights keep their shape *)

Lemma nd_binop_wf f (a b r : farray) :
  nd_binop f a b = Some r -> wf_array r = true.
Proof.
  unfold nd_binop. destruct (shape2 a) as [ra ca], (shape2 b) as [rb cb].
  destruct (bdim ra rb) as [rr |]; [| discriminate].
  destruct (bdim ca cb) as [cc |]; [| discriminate].
  intros [= <-]. destruct a, b; try reflexivity;
    apply (has_shape_tabulate2 rr cc).
Qed.

Lemma nd_ibinop_shape f (a b r : farray) (n c : nat) :
  has_shape a n c -> nd_ibinop f a b = Some r -> has_shape r n c.
Proof.
  intros (Hnd & Hsh & _) H. unfold nd_ibinop in H.
  destruct (nd_binop f a b) as [r' |] eqn:E; [| discriminate].
  destruct ((ndim r' =? ndim a) && (fst (shape2 r') =? fst (shape2 a))
            && (snd (shape2 r') =? snd (shape2 a))) eqn:Eb; [| discriminate].
  injection H as <-.
  apply andb_prop in Eb as [Eb E3]. apply andb_prop in Eb as [E1 E2].
  apply Nat.eqb_eq in E1, E2, E3. rewrite Hsh in E2, E3. cbn in E2, E3.
  split; [congruence |]. split; [| eapply nd_binop_wf; exact E].
  destruct (shape2 r'). cbn in *. congruence.
Qed.

Lemma batch_update_shape (x : farray) (y : list Z) (lr reg : float)
    (idx : list Z) (w : farray) (l : float) (w' : farray) (F C : nat) :
  batch_update x y lr reg idx w l w' -> has_shape w F C -> has_shape w' F C.
Proof.
  intros (xb & yb & p & g & d1 & d & _ & _ & _ & _ & _ & _ & Hw & _) Sw.
  eapply nd_ibinop_shape; eassumption.
Qed.

Lemma epoch_updates_shape (x : farray) (y : list Z) (lr reg : float)
    (batches : list (list Z)) (w : farray) (ls : list float) (w' : farray)
    (F C : nat) :
  epoch_updates x y lr reg batches w ls w' -> has_shape w F C ->
  has_shape w' F C.
Proof.
  induction 1 as [w | idx rest w l w1 ls w' Hb _ IH]; intros Sw; [exact Sw |].
  apply IH. eapply batch_update_shape; eassumption.
Qed.

Lemma fit_epochs_shape (rng : RandomState) (x : farray) (y : list Z)
    (bs : Z) (lr reg : float) (ks : list nat) (w : farray)
    (hs : list float) (w' : farray) (F C : nat) :
  fit_epochs rng x y bs lr reg ks w hs w' -> has_shape w F C ->
  has_shape w' F C.
Proof.
  induction 1 as [w | k ks w bt ls w1 hs w' _ Hu _ IH]; intros Sw; [exact Sw |].
  apply IH. eapply epoch_updates_shape; eassumption.
Qed.

(** One call of [fit], with what later calls need. *)
Lemma fit_run_full (rng : RandomState) (h : heap) (self X : loc)
    (W0 : option loc) (x : farray) (y : list Z) (batch_size : Z)
    (learning_rate reg : float) (epochs : Z) (n F C : nat) (w0 : farray) :
  h !! self = Some (OLinear W0) -> h !! X = Some (ONd x) -> W0 <> Some X ->
  has_shape x n F -> 0 < n -> length y = n ->
  initial_weights rng h W0 F y = Some w0 -> has_shape w0 F C -> 0 < C ->
  Forall (fun k => (0 <= k < Z.of_nat C)%Z) y ->
  batch_size <> 0%Z ->
  (forall k, Permutation (shuffle rng k (nd_arange n)) (nd_arange n)) ->
  exists history h' w wv',
    LinearSoftmaxClassifier.fit rng self X y batch_size learning_rate reg
      epochs h = Some (history, h') /\
    length history = Z.to_nat epochs /\
    fit_epochs rng x y batch_size learning_rate reg
      (seq 0 (Z.to_nat epochs)) w0 history wv' /\
    h' !! self = Some (OLinear (Some w)) /\ h' !! w = Some (ONd wv') /\
    h' !! X = Some (ONd x) /\ w <> X /\ has_shape wv' F C /\
    (forall w1, W0 = Some w1 -> w = w1).
Proof.
  intros Hself HX Hne Sx Hn Hy Hw0 Sw0 HC Hlab Hbs Hperm.
  assert (Hb : forall k, exists batches,
             epoch_batches rng n batch_size k = Some batches /\ batches <> [] /\
             Forall (Forall (fun k => (0 <= k < Z.of_nat n)%Z)) batches).
  { intros k.
    destruct (epoch_batches_spec rng n batch_size k Hn Hbs (Hperm k))
      as (batches & Hb & Hnil & Hc & _).
    exists batches. split; [exact Hb |]. split; [exact Hnil |].
    exact (epoch_batches_in_range rng n k batches (Hperm k) Hc). }
  cut (wp (LinearSoftmaxClassifier.fit rng self X y batch_size learning_rate
             reg epochs) h
         (fun history h' => exists w wv',
            length history = Z.to_nat epochs /\
            fit_epochs rng x y batch_size learning_rate reg
              (seq 0 (Z.to_nat epochs)) w0 history wv' /\
            h' !! self = Some (OLinear (Some w)) /\ h' !! w = Some (ONd wv') /\
            h' !! X = Some (ONd x) /\ w <> X /\
            (forall w1, W0 = Some w1 -> w = w1))).
  { intros (history & h' & Hrun & w & wv' & Hl & Hfit & Hs & Hw & Hx & Hwx & Hsame).
    exists history, h', w, wv'. repeat (split; [assumption |]).
    split; [| exact Hsame]. eapply fit_epochs_shape; eassumption. }
  destruct (has_shape_inv _ _ _ Sx) as (rows & -> & Hrows & Hwf).
  unfold LinearSoftmaxClassifier.fit, LinearSoftmaxClassifier.get_W,
    LinearSoftmaxClassifier.set_W.
  destruct y as [| y0 y']; [cbn in Hy; lia |].
  note_lengths. wp_step. wp_step. wp_step. wp_step; [reflexivity |].
  wp_step. wp_step. wp_step. rewrite Hrows.
  destruct W0 as [w |]; cbn [initial_weights] in Hw0.
  - destruct (h !! w) as [[a | | | |] |] eqn:Hw; try discriminate.
    injection Hw0 as ->.
    wp_step. wp_step. wp_step.
    assert (Hwx : w <> X) by congruence.
    eapply (wp_fit_epochs rng self X w _ _ batch_size learning_rate reg n F C);
      try eassumption.
    intros history wv' h' Hfit Hlen Hself' Hw' HX'.
    exists w, wv'. rewrite length_seq in Hlen.
    repeat (split; [assumption |]). intros w1 [= ->]. reflexivity.
  - cbn [LinearSoftmaxClassifier.max_int] in Hw0. cbv [mbind option_bind] in Hw0.
    destruct (Z.ltb_spec (fold_left Z.max y' y0 + 1) 0); [discriminate |].
    injection Hw0 as <-.
    wp_go.
    set (w := length (h ++ [ONd (randn rng F (Z.to_nat (fold_left Z.max y' y0 + 1)))])).
    assert (Hw : w = S (length h)) by (subst w; rewrite length_app; cbn; lia).
    assert (Hwx : w <> X) by lia.
    eapply (wp_fit_epochs rng self X w _ _ batch_size learning_rate reg n F C);
      try eassumption.
    { lookup. }
    { clear Hw Hwx. subst w. lookup. }
    { lookup. }
    intros history wv' h' Hfit Hlen Hself' Hw' HX'.
    exists w, wv'. rewrite length_seq in Hlen.
    repeat (split; [assumption |]). intros w1 [=].
Qed.

Lemma fold_max_bound (l : list Z) (a : Z) :
  (a <= fold_left Z.max l a)%Z /\
  Forall (fun k => (k <= fold_left Z.max l a)%Z) l.
Proof.
  revert a. induction l as [| x l IH]; intros a; cbn [fold_left].
  - split; [lia | constructor].
  - destruct (IH (Z.max a x)) as [H1 H2]. split; [lia |].
    constructor; [lia | exact H2].
Qed.

Lemma max_int_bound (y : list Z) (m : Z) :
  LinearSoftmaxClassifier.max_int y = Some m -> Forall (fun k => (k <= m)%Z) y.
Proof.
  destruct y as [| x l]; [discriminate |]. intros [= <-].
  destruct (fold_max_bound l x) as [H1 H2]. constructor; assumption.
Qed.

(** X12: the first [fit] of a classifier without weights, on labels that
    are not negative, creates the weights from [np.random.randn] scaled
    by 0.001 with one row per feature and [max(y) + 1] columns, trains
    them and returns; the classifier then holds an array of that shape,
    allocated during the call, and with no epoch to run it holds the
    scaled random array itself. *)
Theorem fit_creates_weights (rng : RandomState) (h : heap) (self X : loc)
    (x : farray) (y : list Z) (batch_size : Z) (learning_rate reg : float)
    (epochs : Z) (n F : nat) (m : Z) :
  h !! self = Some (OLinear None) -> h !! X = Some (ONd x) ->
  has_shape x n F -> 0 < n -> length y = n ->
  Forall (fun k => (0 <= k)%Z) y ->
  LinearSoftmaxClassifier.max_int y = Some m ->
  has_shape (randn rng F (Z.to_nat (m + 1))) F (Z.to_nat (m + 1)) ->
  batch_size <> 0%Z ->
  (forall k, Permutation (shuffle rng k (nd_arange n)) (nd_arange n)) ->
  exists history h' w wv',
    LinearSoftmaxClassifier.fit rng self X y batch_size learning_rate reg
      epochs h = Some (history, h') /\
    length history = Z.to_nat epochs /\
    fit_epochs rng x y batch_size learning_rate reg (seq 0 (Z.to_nat epochs))
      (nd_map (fmul (Fin (1 / 1000))) (randn rng F (Z.to_nat (m + 1))))
      history wv' /\
    h' !! self = Some (OLinear (Some w)) /\ h' !! w = Some (ONd wv') /\
    has_shape wv' F (Z.to_nat (m + 1)) /\
    ((epochs <= 0)%Z ->
     wv' = nd_map (fmul (Fin (1 / 1000))) (randn rng F (Z.to_nat (m + 1)))).
Proof.
  intros Hself HX Sx Hn Hy Hpos Hm Sr Hbs Hperm.
  pose proof (max_int_bound y m Hm) as Hle.
  assert (Hm0 : (0 <= m)%Z).
  { destruct y as [| y0 y']; [discriminate |].
    apply Forall_cons_1 in Hpos as [Hy0 _]. apply Forall_cons_1 in Hle as [Hy0' _]. lia. }
  destruct (fit_run_full rng h self X None x y batch_size learning_rate reg
              epochs n F (Z.to_nat (m + 1))
              (nd_map (fmul (Fin (1 / 1000))) (randn rng F (Z.to_nat (m + 1)))))
    as (history & h' & w & wv' & Hrun & Hlen & Hfit & Hs & Hw & _ & _ & Sw & _);
    try assumption.
  - discriminate.
  - cbn [initial_weights]. rewrite Hm. cbv [mbind option_bind].
    destruct (Z.ltb_spec (m + 1) 0); [lia | reflexivity].
  - apply has_shape_nd_map, Sr.
  - lia.
  - apply List.Forall_forall. intros k Hk.
    rewrite List.Forall_forall in Hpos, Hle.
    specialize (Hpos k Hk). specialize (Hle k Hk). lia.
  - exists history, h', w, wv'. repeat (split; [assumption |]).
    intros He. replace (Z.to_nat epochs) with 0 in Hfit by lia.
    cbn [seq] in Hfit. inversion Hfit. reflexivity.
Qed.

(** X13: a second [fit] does not reset the weights: it trains the array
    the first call left in the classifier, starting from the values the
    first call ended with, whatever generator, batch size, rates and
    number of epochs it is given. *)
Theorem fit_continues_from_weights (rng rng2 : RandomState) (h : heap)
    (self X : loc) (W0 : option loc) (x : farray) (y : list Z)
    (batch_size batch_size2 : Z) (learning_rate reg learning_rate2 reg2 : float)
    (epochs epochs2 : Z) (n F C : nat) (w0 : farray) :
  h !! self = Some (OLinear W0) -> h !! X = Some (ONd x) -> W0 <> Some X ->
  has_shape x n F -> 0 < n -> length y = n ->
  initial_weights rng h W0 F y = Some w0 -> has_shape w0 F C -> 0 < C ->
  Forall (fun k => (0 <= k < Z.of_nat C)%Z) y ->
  batch_size <> 0%Z -> batch_size2 <> 0%Z ->
  (forall k, Permutation (shuffle rng k (nd_arange n)) (nd_arange n)) ->
  (forall k, Permutation (shuffle rng2 k (nd_arange n)) (nd_arange n)) ->
  exists history1 h1 w wv1 history2 h2 wv2,
    LinearSoftmaxClassifier.fit rng self X y batch_size learning_rate reg
      epochs h = Some (history1, h1) /\
    h1 !! self = Some (OLinear (Some w)) /\ h1 !! w = Some (ONd wv1) /\
    LinearSoftmaxClassifier.fit rng2 self X y batch_size2 learning_rate2 reg2
      epochs2 h1 = Some (history2, h2) /\
    fit_epochs rng2 x y batch_size2 learning_rate2 reg2
      (seq 0 (Z.to_nat epochs2)) wv1 history2 wv2 /\
    h2 !! self = Some (OLinear (Some w)) /\ h2 !! w = Some (ONd wv2).
Proof.
  intros Hself HX Hne Sx Hn Hy Hw0 Sw0 HC Hlab Hbs Hbs2 Hperm Hperm2.
  destruct (fit_run_full rng h self X W0 x y batch_size learning_rate reg
              epochs n F C w0)
    as (hist1 & h1 & w & wv1 & Hrun1 & _ & _ & Hs1 & Hw1 & HX1 & Hwx & Sw1 & _);
    try assumption.
  destruct (fit_run_full rng2 h1 self X (Some w) x y batch_size2 learning_rate2
              reg2 epochs2 n F C wv1)
    as (hist2 & h2 & w' & wv2 & Hrun2 & _ & Hfit2 & Hs2 & Hw2 & _ & _ & _ & Hsame);
    try assumption.
  - congruence.
  - cbn [initial_weights]. rewrite Hw1. reflexivity.
  - rewrite (Hsame w eq_refl) in *.
    exists hist1, h1, w, wv1, hist2, h2, wv2. auto 10.
Qed.

(** X14: after [fit], [predict] on the training batch returns one class
    per sample, each a class number below the number of columns of the
    weights: the first position of the largest entry in the row of
    [X . W] for the weights [W] that [fit] ended with. *)
Theorem fit_then_predict (rng : RandomState) (h : heap) (self X : loc)
    (W0 : option loc) (x : farray) (y : list Z) (batch_size : Z)
    (learning_rate reg : float) (epochs : Z) (n F C : nat) (w0 : farray) :
  h !! self = Some (OLinear W0) -> h !! X = Some (ONd x) -> W0 <> Some X ->
  has_shape x n F -> 0 < n -> length y = n ->
  initial_weights rng h W0 F y = Some w0 -> has_shape w0 F C -> 0 < C ->
  Forall (fun k => (0 <= k < Z.of_nat C)%Z) y ->
  batch_size <> 0%Z ->
  (forall k, Permutation (shuffle rng k (nd_arange n)) (nd_arange n)) ->
  exists history h1 wv scores ks h2,
    LinearSoftmaxClassifier.fit rng self X y batch_size learning_rate reg
      epochs h = Some (history, h1) /\
    fit_epochs rng x y batch_size learning_rate reg
      (seq 0 (Z.to_nat epochs)) w0 history wv /\
    LinearSoftmaxClassifier.predict self X h1 = Some (map Z.of_nat ks, h2) /\
    nd_dot x wv = Some scores /\ length ks = n /\
    forall i, i < n ->
      nth i ks 0 < C /\ is_argmax (nd_row scores i) (nth i ks 0).
Proof.
  intros Hself HX Hne Sx Hn Hy Hw0 Sw0 HC Hlab Hbs Hperm.
  destruct (fit_run_full rng h self X W0 x y batch_size learning_rate reg
              epochs n F C w0)
    as (hist & h1 & w & wv & Hrun & _ & Hfit & Hs1 & Hw1 & HX1 & _ & Sw1 & _);
    try assumption.
  destruct (LinearSoftmaxClassifier_predict_run h1 self X w x wv n F C)
    as (scores & ks & h2 & Hp & Hd & Hlen & Hall & _); try assumption.
  exists hist, h1, wv, scores, ks, h2. auto 10.
Qed.

(** X15: for a positive batch size an epoch has
    [ceil(num_train / batch_size)] batches; a negative batch size is no
    error: the whole shuffled training set is then the only batch. *)
Theorem epoch_batches_count (rng : RandomState) (n : nat) (batch_size : Z)
    (k : nat) :
  0 < n ->
  Permutation (shuffle rng k (nd_arange n)) (nd_arange n) ->
  ((0 < batch_size)%Z ->
   exists batches,
     epoch_batches rng n batch_size k = Some batches /\
     length batches = S ((n - 1) / Z.to_nat batch_size)) /\
  ((batch_size < 0)%Z ->
   epoch_batches rng n batch_size k = Some [shuffle rng k (nd_arange n)]).
Proof.
  intros Hn Hperm. unfold epoch_batches.
  set (l := shuffle rng k (nd_arange n)) in *.
  assert (Hl : length l = n)
    by (rewrite (Permutation_length Hperm); apply length_nd_arange).
  split.
  - intros Hpos. set (b := Z.to_nat batch_size).
    replace batch_size with (Z.of_nat b) by lia.
    rewrite arange3_sections by lia. cbv [mbind option_bind].
    rewrite <- Hl. rewrite array_split_sections by lia.
    eexists. split; [reflexivity |].
    rewrite length_app, length_map, length_seq. cbn. lia.
  - intros Hneg. rewrite arange3_negative_step by lia. cbv [mbind option_bind].
    rewrite array_split_whole. reflexivity.
Qed.

(** * Softmax at the edges *)

(** X16: [softmax] raises on a vector without entries and on a batch
    without columns ([np.max] has nothing to reduce); on a batch without
    rows, but with columns, it returns a new batch without rows. *)
Theorem softmax_empty (h : heap) (p : loc) :
  (h !! p = Some (ONd (Arr1 [])) -> softmax p h = None) /\
  (forall rows, h !! p = Some (ONd (Arr2 0 rows)) -> softmax p h = None) /\
  (forall nc, 0 < nc -> h !! p = Some (ONd (Arr2 nc [])) ->
     exists probs h',
       softmax p h = Some (probs, h') /\
       h' !! probs = Some (ONd (Arr2 nc [])) /\ length h <= probs /\
       heap_le h h').
Proof.
  split; [| split].
  - intros Hp. unfold softmax. apply bind_None_r. wp_step. cbn [ndim Nat.eqb].
    apply bind_None_l. apply bind_None_l.
    unfold np.max, bind. rewrite (load_nd_run _ _ _ Hp). reflexivity.
  - intros rows Hp. unfold softmax. apply bind_None_r. wp_step.
    cbn [ndim Nat.eqb]. apply bind_None_l. apply bind_None_l.
    unfold np.max_axis1, np.unary, bind. rewrite (load_nd_run _ _ _ Hp).
    reflexivity.
  - intros nc Hnc Hp.
    destruct (softmax_run h p (Arr2 nc []) Hp eq_refl Hnc)
      as (probs & h' & Hrun & Hprobs & Hle & Hfr).
    exists probs, h'. auto.
Qed.

(** * Softmax gives probabilities *)

Lemma Rsum_ge_member (l : list R) (x : R) :
  Forall (fun y => (0 < y)%R) l -> In x l -> (x <= Rsum l)%R.
Proof.
  intros Hall. induction Hall as [| y l Hy Hall IH]; intros Hin; [contradiction |].
  rewrite Rsum_cons. destruct Hin as [-> | Hin].
  - destruct l as [| z l]; [unfold Rsum; simpl; lra |].
    assert (0 < Rsum (z :: l))%R by (apply Rsum_pos; [congruence | exact Hall]).
    lra.
  - specialize (IH Hin). lra.
Qed.

Lemma softmax_row_probabilities (xs : list R) :
  xs <> [] -> Forall is_probability (softmax_row (map Fin xs)).
Proof.
  intros Hne. destruct (softmax_row_Fin xs Hne) as (m & _ & ->).
  set (es := map (fun x => exp (x - m))%R xs).
  assert (Hpos : Forall (fun y => (0 < y)%R) es).
  { subst es. apply List.Forall_forall. intros y Hy.
    apply in_map_iff in Hy as (x & <- & _). apply exp_pos. }
  assert (Hs : (0 < Rsum es)%R).
  { apply Rsum_pos; [| exact Hpos]. subst es. destruct xs; [congruence | discriminate]. }
  apply List.Forall_forall. intros q Hq.
  apply in_map_iff in Hq as (r & <- & Hr).
  apply in_map_iff in Hr as (e & <- & He).
  pose proof (Rsum_ge_member es e Hpos He) as Hle.
  rewrite List.Forall_forall in Hpos. specialize (Hpos e He).
  unfold is_probability. cbn [float_le]. split.
  - apply Rlt_le, Rdiv_lt_0_compat; assumption.
  - apply (Rmult_le_reg_r (Rsum es)); [exact Hs |].
    unfold Rdiv. rewrite Rmult_assoc, Rinv_l by lra. lra.
Qed.

(** X17: on finite scores with at least one class, every entry of the
    array [softmax] returns is a probability: a real number from 0 to
    1. *)
Theorem softmax_gives_probabilities (h : heap) (p : loc) (a : farray) :
  h !! p = Some (ONd a) -> wf_array a = true -> 0 < snd (shape2 a) ->
  all_finite a = true ->
  exists probs sm h',
    softmax p h = Some (probs, h') /\ h' !! probs = Some (ONd sm) /\
    Forall is_probability (ravel sm).
Proof.
  intros Hp Hwf Hnc Hfin.
  destruct (softmax_run h p a Hp Hwf Hnc) as (probs & h' & Hrun & Hprobs & _).
  exists probs, (softmax_nd a), h'. split; [exact Hrun |]. split; [exact Hprobs |].
  unfold all_finite in Hfin.
  destruct a as [v | nc rows]; cbn [ravel softmax_nd shape2 snd] in *.
  - destruct (finite_list v Hfin) as (xs & ->).
    apply softmax_row_probabilities. destruct xs; [cbn in Hnc; lia | discriminate].
  - apply List.Forall_concat. apply List.Forall_forall. intros r Hr.
    apply in_map_iff in Hr as (row & <- & Hrow).
    pose proof (forallb_concat _ _ Hfin row Hrow) as Hf.
    destruct (finite_list row Hf) as (xs & ->).
    apply softmax_row_probabilities.
    assert (Hlen : length (map Fin xs) = nc).
    { cbn [wf_array] in Hwf. rewrite forallb_forall in Hwf.
      apply Nat.eqb_eq, Hwf, Hrow. }
    destruct xs; [cbn in Hlen; lia | discriminate].
Qed.

(** * Negative class indices *)

Lemma norm_index_wrap (C : nat) (k : Z) :
  (- Z.of_nat C <= k)%Z -> norm_index C (wrap_index C k) = norm_index C k.
Proof.
  intros Hk. unfold wrap_index.
  destruct (k <? 0)%Z eqn:E; [apply Z.ltb_lt in E | reflexivity].
  unfold norm_index.
  destruct (Z.leb_spec 0 (k + Z.of_nat C)), (Z.ltb_spec (k + Z.of_nat C) (Z.of_nat C)),
    (Z.leb_spec 0 k), (Z.ltb_spec k (Z.of_nat C)), (Z.leb_spec (- Z.of_nat C) k),
    (Z.ltb_spec k 0); cbn; try lia; reflexivity.
Qed.

Lemma norm_index_out_of_range (C : nat) (k : Z) :
  (k < - Z.of_nat C \/ Z.of_nat C <= k)%Z -> norm_index C k = None.
Proof.
  intros Hk. unfold norm_index.
  destruct (Z.leb_spec 0 k), (Z.ltb_spec k (Z.of_nat C)),
    (Z.leb_spec (- Z.of_nat C) k), (Z.ltb_spec k 0); cbn; try lia; reflexivity.
Qed.

Lemma mapM_ext_Forall {A B} (f g : A -> option B) (P : A -> Prop) (l : list A) :
  (forall x, P x -> f x = g x) -> Forall P l -> mapM f l = mapM g l.
Proof.
  intros Hfg Hall. induction Hall as [| x l Hx _ IH]; [reflexivity |].
  cbn [mapM]. rewrite (Hfg x Hx), IH. reflexivity.
Qed.

Lemma mapM_None_Exists {A B} (f : A -> option B) (l : list A) :
  Exists (fun x => f x = None) l -> mapM f l = None.
Proof.
  induction 1 as [x l Hx | x l _ IH]; cbn [mapM].
  - rewrite Hx. reflexivity.
  - rewrite IH. destruct (f x); reflexivity.
Qed.

Lemma getitem1_wrap (v : list float) (t : list Z) :
  Forall (fun k => (- Z.of_nat (length v) <= k)%Z) t ->
  getitem1 v (map (wrap_index (length v)) t) = getitem1 v t.
Proof.
  intros Ht. unfold getitem1. induction Ht as [| k t Hk _ IH]; [reflexivity |].
  cbn [map mapM]. rewrite (norm_index_wrap _ _ Hk), IH. reflexivity.
Qed.

Lemma zip_cons {A B} (a : A) (b : B) (l : list A) (l' : list B) :
  zip (a :: l) (b :: l') = (a, b) :: zip l l'.
Proof. reflexivity. Qed.

Lemma getitem2_wrap (nc : nat) (rows : list (list float)) (ri t : list Z) :
  Forall (fun k => (- Z.of_nat nc <= k)%Z) t ->
  getitem2 (Arr2 nc rows) ri (map (wrap_index nc) t) =
  getitem2 (Arr2 nc rows) ri t.
Proof.
  intros Ht. cbn [getitem2]. rewrite length_map.
  destruct (length ri =? length t); [| reflexivity].
  f_equal. revert ri. induction Ht as [| k t Hk _ IH]; intros ri.
  - destruct ri; reflexivity.
  - destruct ri as [| i ri]; [reflexivity |].
    cbn [map]. rewrite !zip_cons. cbn [mapM].
    rewrite (norm_index_wrap _ _ Hk), (IH ri). reflexivity.
Qed.

Lemma setitem1_list_wrap (t : list Z) (C : nat) :
  Forall (fun k => (- Z.of_nat C <= k)%Z) t ->
  forall (v vals : list float), length v = C ->
  setitem1_list v (map (wrap_index C) t) vals = setitem1_list v t vals.
Proof.
  induction 1 as [| k t Hk _ IH]; intros v vals Hv; [reflexivity |].
  cbn [map setitem1_list]. destruct vals as [| x vals]; [reflexivity |].
  rewrite Hv, (norm_index_wrap _ _ Hk).
  destruct (norm_index C k) as [j |]; [| reflexivity]. cbn.
  apply IH. rewrite length_insert. exact Hv.
Qed.

Lemma setitem2_list_wrap (nc : nat) (t : list Z) :
  Forall (fun k => (- Z.of_nat nc <= k)%Z) t ->
  forall (rows : list (list float)) (ri : list Z) (vals : list float),
  setitem2_list nc rows (zip ri (map (wrap_index nc) t)) vals =
  setitem2_list nc rows (zip ri t) vals.
Proof.
  induction 1 as [| k t Hk _ IH]; intros rows ri vals.
  - destruct ri; reflexivity.
  - destruct ri as [| i ri]; [reflexivity |].
    cbn [map]. rewrite !zip_cons. cbn [setitem2_list].
    destruct vals as [| x vals]; [reflexivity |].
    rewrite (norm_index_wrap _ _ Hk).
    destruct (norm_index (length rows) i) as [r |]; [| reflexivity].
    destruct (norm_index nc k) as [c |]; [| reflexivity]. cbn.
    destruct (rows !! r) as [row |]; [| reflexivity]. cbn.
    apply IH.
Qed.

Lemma bind_ext {A B} (m m' : M A) (k k' : A -> M B) h :
  m h = m' h ->
  (forall a h1, m' h = Some (a, h1) -> k a h1 = k' a h1) ->
  bind m k h = bind m' k' h.
Proof.
  intros Hm Hk. unfold bind. rewrite Hm.
  destruct (m' h) as [[a h1] |]; [| reflexivity]. apply Hk. reflexivity.
Qed.

Lemma unary_ext (f g : farray -> option farray) (l : loc) h :
  (forall x, h !! l = Some (ONd x) -> f x = g x) ->
  np.unary f l h = np.unary g l h.
Proof.
  intros H. unfold np.unary. apply bind_ext; [reflexivity |].
  intros x h1 Hl. apply load_nd_Some in Hl as [Hl Hh]. cbn in Hl, Hh. subst h1.
  apply bind_ext; [| reflexivity]. unfold lift. rewrite (H x Hl). reflexivity.
Qed.

Lemma inplace2_ext (f g : farray -> farray -> option farray) (l1 l2 : loc) h :
  (forall x y, h !! l1 = Some (ONd x) -> h !! l2 = Some (ONd y) -> f x y = g x y) ->
  np.inplace2 f l1 l2 h = np.inplace2 g l1 l2 h.
Proof.
  intros H. unfold np.inplace2. apply bind_ext; [reflexivity |].
  intros x h1 Hl. apply load_nd_Some in Hl as [Hl Hh]. cbn in Hl, Hh. subst h1.
  apply bind_ext; [reflexivity |].
  intros y h1 Hl2. apply load_nd_Some in Hl2 as [Hl2 Hh]. cbn in Hl2, Hh. subst h1.
  apply bind_ext; [| reflexivity]. unfold lift. rewrite (H x y Hl Hl2). reflexivity.
Qed.

Lemma cross_entropy_loss_wrap (h : heap) (probs : loc) (sm : farray) (t : list Z) :
  h !! probs = Some (ONd sm) ->
  Forall (fun k => (- Z.of_nat (snd (shape2 sm)) <= k)%Z) t ->
  cross_entropy_loss probs (map (wrap_index (snd (shape2 sm))) t) h =
  cross_entropy_loss probs t h.
Proof.
  intros Hp Ht. unfold cross_entropy_loss.
  apply bind_ext; [reflexivity |]. intros d h1 Hd.
  unfold np.ndim in Hd. apply bind_Some in Hd as (x & h2 & Hl & Hr).
  apply load_nd_Some in Hl as [Hl Hh]. cbn in Hl, Hh. subst h2.
  injection Hr as <- <-. assert (x = sm) as -> by congruence.
  apply bind_ext; [| reflexivity]. rewrite length_map.
  destruct sm as [v | nc rows]; cbn [ndim Nat.eqb shape2 snd] in *.
  - unfold np.getitem. apply unary_ext. intros x Hx.
    assert (x = Arr1 v) as -> by congruence.
    cbn [getitem_rows]. rewrite getitem1_wrap by exact Ht. reflexivity.
  - unfold np.getitem_pair. apply unary_ext. intros x Hx.
    assert (x = Arr2 nc rows) as -> by congruence.
    apply getitem2_wrap, Ht.
Qed.

Lemma isub_item_wrap (h : heap) (a : loc) (v : list float) (t : list Z) (c : float) :
  h !! a = Some (ONd (Arr1 v)) ->
  Forall (fun k => (- Z.of_nat (length v) <= k)%Z) t ->
  np.isub_item a (map (wrap_index (length v)) t) c h = np.isub_item a t c h.
Proof.
  intros Ha Ht. unfold np.isub_item.
  apply bind_ext.
  { unfold np.getitem. apply unary_ext. intros x Hx.
    assert (x = Arr1 v) as -> by congruence.
    cbn [getitem_rows]. rewrite getitem1_wrap by exact Ht. reflexivity. }
  intros tmp h1 Hg. apply unary_Some in Hg as (x & r & _ & _ & [= -> ->]).
  apply bind_ext; [reflexivity |]. intros [] h2 Hs.
  apply inplace_Some in Hs as (x' & r' & Hx' & _ & [= ->]).
  pose proof (lookup_lt_Some _ _ _ Ha) as Hlt.
  unfold np.setitem. apply inplace2_ext. intros x1 y1 Hx1 _.
  assert (Hx2 : <[length h := ONd r']> (h ++ [ONd r]) !! a = Some (ONd (Arr1 v))).
  { rewrite list_lookup_insert_ne by lia. apply lookup_alloc_old, Ha. }
  assert (x1 = Arr1 v) as -> by congruence.
  destruct y1 as [xs | ? ?]; [| reflexivity]. cbn [setitem1].
  rewrite (setitem1_list_wrap t (length v) Ht v xs eq_refl). reflexivity.
Qed.

Lemma isub_item_pair_wrap (h : heap) (a : loc) (nc : nat)
    (rows : list (list float)) (ri t : list Z) (c : float) :
  h !! a = Some (ONd (Arr2 nc rows)) ->
  Forall (fun k => (- Z.of_nat nc <= k)%Z) t ->
  np.isub_item_pair a ri (map (wrap_index nc) t) c h =
  np.isub_item_pair a ri t c h.
Proof.
  intros Ha Ht. unfold np.isub_item_pair.
  apply bind_ext.
  { unfold np.getitem_pair. apply unary_ext. intros x Hx.
    assert (x = Arr2 nc rows) as -> by congruence.
    apply getitem2_wrap, Ht. }
  intros tmp h1 Hg. apply unary_Some in Hg as (x & r & _ & _ & [= -> ->]).
  apply bind_ext; [reflexivity |]. intros [] h2 Hs.
  apply inplace_Some in Hs as (x' & r' & Hx' & _ & [= ->]).
  pose proof (lookup_lt_Some _ _ _ Ha) as Hlt.
  unfold np.setitem_pair. apply inplace2_ext. intros x1 y1 Hx1 _.
  assert (Hx2 : <[length h := ONd r']> (h ++ [ONd r]) !! a = Some (ONd (Arr2 nc rows))).
  { rewrite list_lookup_insert_ne by lia. apply lookup_alloc_old, Ha. }
  assert (x1 = Arr2 nc rows) as -> by congruence.
  destruct y1 as [xs | ? ?]; [| reflexivity]. cbn [setitem2].
  rewrite length_map.
  destruct (length ri =? length t); [| reflexivity].
  rewrite (setitem2_list_wrap nc t Ht rows ri xs). reflexivity.
Qed.

Lemma softmax_with_cross_entropy_wrap (h : heap) (p : loc) (a : farray)
    (t : list Z) :
  h !! p = Some (ONd a) -> wf_array a = true -> 0 < snd (shape2 a) ->
  Forall (fun k => (- Z.of_nat (snd (shape2 a)) <= k)%Z) t ->
  softmax_with_cross_entropy p (map (wrap_index (snd (shape2 a))) t) h =
  softmax_with_cross_entropy p t h.
Proof.
  intros Hp Hwf Hnc Ht.
  destruct (softmax_run h p a Hp Hwf Hnc) as (probs & h1 & Hrun & Hprobs & _ & _).
  destruct (softmax_nd_shape a) as [Snd Ssh].
  unfold softmax_with_cross_entropy.
  apply bind_ext; [reflexivity |]. intros probs' h1' Hs.
  rewrite Hrun in Hs. injection Hs as <- <-.
  rewrite <- Ssh in *.
  apply bind_ext; [apply (cross_entropy_loss_wrap h1 probs _ t Hprobs Ht) |].
  intros loss h2 Hce.
  assert (Hp2 : h2 !! probs = Some (ONd (softmax_nd a))).
  { eapply (cross_entropy_loss_preserves h1 probs t h1 loss h2);
      [apply heap_le_refl | exact Hce | exact Hprobs]. }
  apply bind_ext; [reflexivity |]. intros d h3 Hd.
  unfold np.ndim in Hd. apply bind_Some in Hd as (x & h4 & Hl & Hr).
  apply load_nd_Some in Hl as [Hl Hh]. cbn in Hl, Hh. subst h4.
  injection Hr as <- <-. assert (x = softmax_nd a) as -> by congruence.
  apply bind_ext; [| reflexivity]. rewrite length_map.
  destruct (softmax_nd a) as [v | nc rows] eqn:Esm; cbn [ndim Nat.eqb shape2 snd] in *.
  - apply (isub_item_wrap h2 probs v t (Fin 1) Hp2 Ht).
  - apply bind_ext; [| reflexivity].
    apply (isub_item_pair_wrap h2 probs nc rows _ t (Fin 1) Hp2 Ht).
Qed.

Lemma wrap_index_in_range (C : nat) (k : Z) :
  (- Z.of_nat C <= k < Z.of_nat C)%Z ->
  (0 <= wrap_index C k < Z.of_nat C)%Z.
Proof. intros Hk. unfold wrap_index. destruct (Z.ltb_spec k 0); lia. Qed.

(** X18: [softmax_with_cross_entropy] takes a true-class index [k] from
    [-num_classes] up to [-1] without an error, as numpy counts it from
    the end: the loss and the gradient are those of the class
    [k + num_classes]. *)
Theorem softmax_with_cross_entropy_negative_index (h : heap) (p : loc)
    (a : farray) (t : list Z) :
  h !! p = Some (ONd a) -> wf_array a = true -> 0 < snd (shape2 a) ->
  Forall (fun k => (- Z.of_nat (snd (shape2 a)) <= k < Z.of_nat (snd (shape2 a)))%Z) t ->
  (ndim a = 2 -> length t = fst (shape2 a)) ->
  exists dprediction h',
    softmax_with_cross_entropy p t h =
      Some ((ce_loss (softmax_nd a) (map (wrap_index (snd (shape2 a))) t),
             dprediction), h') /\
    softmax_with_cross_entropy p (map (wrap_index (snd (shape2 a))) t) h =
      softmax_with_cross_entropy p t h.
Proof.
  intros Hp Hwf Hnc Ht Hlen.
  assert (Ht' : Forall (fun k => (- Z.of_nat (snd (shape2 a)) <= k)%Z) t).
  { eapply Forall_impl; [exact Ht |]. cbv beta. intros k Hk. lia. }
  pose proof (softmax_with_cross_entropy_wrap h p a t Hp Hwf Hnc Ht') as Heq.
  assert (Hv : valid_targets a (map (wrap_index (snd (shape2 a))) t)).
  { assert (Hin : Forall (fun k => (0 <= k < Z.of_nat (snd (shape2 a)))%Z)
                    (map (wrap_index (snd (shape2 a))) t)).
    { apply List.Forall_forall. intros k Hk.
      apply in_map_iff in Hk as (k0 & <- & Hk0).
      rewrite List.Forall_forall in Ht. apply wrap_index_in_range, Ht, Hk0. }
    destruct a as [v | nc rows]; cbn [valid_targets shape2 snd fst ndim] in *.
    - exact Hin.
    - split; [rewrite length_map; apply Hlen; reflexivity | exact Hin]. }
  destruct (softmax_with_cross_entropy_run h p a _ Hp Hwf Hnc Hv)
    as (d & g & h' & Hrun & _).
  exists d, h'. split; [| exact Heq]. rewrite <- Heq. exact Hrun.
Qed.

Lemma Exists_zip_r {A B} (P : B -> Prop) (l : list A) (t : list B) :
  length l = length t -> Exists P t -> Exists (fun '(_, j) => P j) (zip l t).
Proof.
  intros Hlen Hex. revert l Hlen.
  induction Hex as [k t Hk | k t _ IH]; intros [| i l] Hlen; try discriminate.
  - rewrite zip_cons. apply Exists_cons_hd. exact Hk.
  - rewrite zip_cons. apply Exists_cons_tl. apply IH. cbn in Hlen. lia.
Qed.

(** X19: [softmax_with_cross_entropy] raises when a true-class index is
    [num_classes] or more, or below [-num_classes]. *)
Theorem softmax_with_cross_entropy_index_out_of_range (h : heap) (p : loc)
    (a : farray) (t : list Z) :
  h !! p = Some (ONd a) -> wf_array a = true -> 0 < snd (shape2 a) ->
  Exists (fun k => (k < - Z.of_nat (snd (shape2 a)) \/
                    Z.of_nat (snd (shape2 a)) <= k)%Z) t ->
  softmax_with_cross_entropy p t h = None.
Proof.
  intros Hp Hwf Hnc Hex.
  destruct (softmax_run h p a Hp Hwf Hnc) as (probs & h1 & Hrun & Hprobs & _ & _).
  destruct (softmax_nd_shape a) as [Snd Ssh].
  unfold softmax_with_cross_entropy, bind at 1. rewrite Hrun.
  apply bind_None_l. unfold cross_entropy_loss.
  apply bind_None_r. unfold np.ndim. wp_step. wp_step. wp_step.
  apply bind_None_l. rewrite <- Ssh in Hex.
  destruct (softmax_nd a) as [v | nc rows]; cbn [ndim Nat.eqb shape2 snd] in *.
  - unfold np.getitem, np.unary. apply bind_None_r. wp_step.
    apply bind_None_l. cbn [getitem_rows]. unfold getitem1.
    rewrite mapM_None_Exists; [reflexivity |].
    eapply Exists_impl; [exact Hex |]. cbv beta. intros k Hk.
    rewrite (norm_index_out_of_range _ _ Hk). reflexivity.
  - unfold np.getitem_pair, np.unary. apply bind_None_r. wp_step.
    apply bind_None_l. cbn [getitem2].
    destruct (Nat.eqb_spec (length (nd_arange (length t))) (length t)) as [E |];
      [| reflexivity].
    rewrite mapM_None_Exists; [reflexivity |].
    eapply Exists_impl; [apply (Exists_zip_r _ _ _ E Hex) |]. cbv beta.
    intros [i k] Hk. rewrite (norm_index_out_of_range _ _ Hk).
    destruct (norm_index (length rows) i); reflexivity.
Qed.

(** * The names of the parameters *)

Lemma to_uint_nonnil (n : nat) : Nat.to_uint n <> Decimal.Nil.
Proof.
  intros E. pose proof (Unsigned.of_to n) as H. rewrite E in H. cbn in H.
  subst n. discriminate E.
Qed.

Lemma str_inj (n m : nat) : str n = str m -> n = m.
Proof.
  intros E. unfold str in E.
  pose proof (NilZero.usu _ (to_uint_nonnil n)) as Hn.
  pose proof (NilZero.usu _ (to_uint_nonnil m)) as Hm.
  rewrite E, Hm in Hn. injection Hn as Hn.
  symmetry. apply Unsigned.to_uint_inj, Hn.
Qed.

Lemma dict_set_fresh {V} (k : string) (v : V) (d : dict V) :
  (forall k' v', In (k', v') d -> k' <> k) -> dict_set k v d = d ++ [(k, v)].
Proof.
  induction d as [| [k' v'] d IH]; intros Hd; [reflexivity |].
  cbn [dict_set app]. destruct (String.eqb_spec k k') as [-> | _].
  - exfalso. apply (Hd k' v'); [left; reflexivity | reflexivity].
  - f_equal. apply IH. intros k2 v2 Hin. apply (Hd k2 v2). right. exact Hin.
Qed.

Lemma keys_below_fresh (k : nat) (d : dict loc) :
  keys_below k d ->
  forall key v, In (key, v) d ->
    key <> ("W" ++ "_" ++ str k)%string /\ key <> ("B" ++ "_" ++ str k)%string.
Proof.
  intros Hd key v Hin. destruct (Hd key v Hin) as (j & Hj & [-> | ->]);
    split; intros E; cbn in E; try discriminate;
    injection E as E; apply str_inj in E; lia.
Qed.

Lemma keys_below_mono (k k' : nat) (d : dict loc) :
  k <= k' -> keys_below k d -> keys_below k' d.
Proof.
  intros Hle Hd key v Hin. destruct (Hd key v Hin) as (j & Hj & H).
  exists j. split; [lia | exact H].
Qed.

Lemma wp_Layer_params (h : heap) (i : nat) (layer : loc) (o : obj)
    (d : dict loc) Q :
  h !! layer = Some o -> is_layer o -> keys_below i d ->
  Q (d ++ layer_entries h i layer) h ->
  wp (ps <- Layer.params layer ;;
      ret (fold_left (fun result '(param_name, param) =>
             dict_set (param_name ++ "_" ++ str i)%string param result)
           ps d)) h Q.
Proof.
  intros Hl Ho Hd HQ. unfold layer_entries in HQ. rewrite Hl in HQ.
  unfold Layer.params. wp_step. wp_step.
  destruct o as [| | X | W B X |]; try contradiction.
  - unfold ReLULayer.params. wp_go. cbn [fold_left].
    rewrite app_nil_r in HQ. exact HQ.
  - unfold FullyConnectedLayer.params, FullyConnectedLayer.get_W,
      FullyConnectedLayer.get_B. wp_go.
    cbn [dict_set String.eqb Ascii.eqb Bool.eqb fold_left].
    rewrite (dict_set_fresh ("W" ++ "_" ++ str i)%string W d).
    2:{ intros k' v' Hin. apply (keys_below_fresh i d Hd k' v' Hin). }
    rewrite (dict_set_fresh ("B" ++ "_" ++ str i)%string B).
    2:{ intros k' v' Hin. apply in_app_or in Hin as [Hin | [[= <- <-] | []]].
        - apply (keys_below_fresh i d Hd k' v' Hin).
        - cbn. discriminate. }
    rewrite <- app_assoc. exact HQ.
Qed.

Lemma keys_below_entries (h : heap) (k : nat) (layer : loc) (d : dict loc) :
  keys_below k d -> keys_below (S k) (d ++ layer_entries h k layer).
Proof.
  intros Hd key v Hin. apply in_app_or in Hin as [Hin | Hin].
  - destruct (Hd key v Hin) as (j & Hj & H). exists j. split; [lia | exact H].
  - unfold layer_entries in Hin.
    destruct (h !! layer) as [[| | | W B X |] |]; try contradiction.
    destruct Hin as [[= <- <-] | [[= <- <-] | []]]; exists k; split; auto.
Qed.

Lemma params_fold (h : heap) (ls : list loc) :
  Forall (fun l => exists o, h !! l = Some o /\ is_layer o) ls ->
  forall (k : nat) (d : dict loc), keys_below k d ->
  fold_each (imap (fun i l => (k + i, l)) ls) d
    (fun result '(layer_num, layer) =>
       ps <- Layer.params layer ;;
       ret (fold_left (fun result '(param_name, param) =>
              dict_set (param_name ++ "_" ++ str layer_num)%string param result)
            ps result)) h =
  Some (d ++ concat (imap (fun i => layer_entries h (k + i)) ls), h).
Proof.
  induction 1 as [| l ls (o & Hl & Ho) _ IH]; intros k d Hd.
  - cbn. rewrite app_nil_r. reflexivity.
  - rewrite !imap_cons. cbn [fold_each concat]. rewrite Nat.add_0_r.
    unfold bind at 1.
    destruct (wp_Layer_params h k l o d
                (fun r h' => r = d ++ layer_entries h k l /\ h' = h) Hl Ho Hd)
      as (r & h' & Hrun & -> & ->); [auto |].
    rewrite Hrun.
    rewrite (imap_ext _ (fun i l => (S k + i, l)) ls)
      by (intros i x _; cbn; f_equal; lia).
    rewrite (imap_ext (_ ∘ S) (fun i => layer_entries h (S k + i)) ls)
      by (intros i x _; cbn; f_equal; lia).
    rewrite (IH (S k) _ (keys_below_entries h k l d Hd)).
    rewrite <- app_assoc. reflexivity.
Qed.

(** X20: [TwoLayerNet.params], for any list of layers, returns the
    parameters of the layers in the order of the layers, the weights of
    layer number [i] under the key [W_i] followed by its bias under
    [B_i], a ReLU layer giving no entry; no entry replaces another, and
    the heap is not changed. *)
Theorem TwoLayerNet_params_spec (h : heap) (net : TwoLayerNet.t) :
  Forall (fun l => exists o, h !! l = Some o /\ is_layer o)
    (TwoLayerNet.layers net) ->
  TwoLayerNet.params net h =
    Some (concat (imap (layer_entries h) (TwoLayerNet.layers net)), h).
Proof.
  intros Hls. unfold TwoLayerNet.params.
  assert (Hd : keys_below 0 []) by (intros key v []).
  exact (params_fold h _ Hls 0 [] Hd).
Qed.

(** * A confident prediction *)

Lemma fold_fadd_log_ones (l : list float) :
  Forall (fun q => q = Fin 1) l -> fold_left fadd (map flog l) (Fin 0) = Fin 0.
Proof.
  induction 1 as [| q l -> _ IH]; [reflexivity |].
  cbn [map fold_left flog]. destruct (Rlt_dec 0 1); [| lra].
  cbn [fadd]. rewrite ln_1, Rplus_0_l. exact IH.
Qed.

(** X21: when the probability of the true class is exactly 1 for every
    sample, [cross_entropy_loss] returns 0. *)
Theorem cross_entropy_loss_confident (h : heap) (probs : loc) (a : farray)
    (target_index : list Z) :
  h !! probs = Some (ONd a) -> wf_array a = true ->
  valid_targets a target_index -> target_index <> [] ->
  Forall (fun q => q = Fin 1) (target_probs a target_index) ->
  exists h', cross_entropy_loss probs target_index h = Some (Fin 0, h').
Proof.
  intros Hp Hwf Hv Hne Hone.
  destruct (cross_entropy_loss_run h probs a target_index Hp Hwf Hv)
    as (h' & Hrun & _).
  exists h'. rewrite Hrun. do 2 f_equal.
  unfold fsum. rewrite (fold_fadd_log_ones _ Hone).
  pose proof (INR_pos_length target_index Hne) as Hn.
  unfold of_nat. cbn [fdiv].
  destruct (Req_dec_T (INR (length target_index)) 0); [lra |].
  cbn [fneg]. f_equal. field. lra.
Qed.

Lemma cross_entropy_loss_confident_witness :
  exists h',
    cross_entropy_loss 0 [1; 0]%Z
      [ONd (Arr2 2 [[Fin 0; Fin 1]; [Fin 1; Fin 0]])] = Some (Fin 0, h').
Proof.
  apply (cross_entropy_loss_confident
           [ONd (Arr2 2 [[Fin 0; Fin 1]; [Fin 1; Fin 0]])] 0
           (Arr2 2 [[Fin 0; Fin 1]; [Fin 1; Fin 0]]) [1; 0]%Z).
  - reflexivity.
  - reflexivity.
  - split; [reflexivity | repeat constructor; lia].
  - discriminate.
  - repeat constructor.
Defined.

Lemma TwoLayerNet_init_spec_witness :
  exists net L h',
    TwoLayerNet.init 1 2 1 (Fin 0) example_randn [] = Some (net, h') /\
    TwoLayerNet.reg net = Fin 0 /\
    net_in_heap h' net L (init_values 1 2 1 example_randn) 1 1 2 /\
    param_grad_value h' (pW0 L) =
      Some (nd_zeros_like (vW0 (init_values 1 2 1 example_randn))) /\
    param_grad_value h' (pB0 L) =
      Some (nd_zeros_like (vB0 (init_values 1 2 1 example_randn))) /\
    param_grad_value h' (pW2 L) =
      Some (nd_zeros_like (vW2 (init_values 1 2 1 example_randn))) /\
    param_grad_value h' (pB2 L) =
      Some (nd_zeros_like (vB2 (init_values 1 2 1 example_randn))) /\
    heap_le [] h'.
Proof.
  apply (TwoLayerNet_init_spec [] 1 2 1 (Fin 0) example_randn);
    repeat split; reflexivity.
Defined.

Lemma ReLULayer_forward_spec_witness :
  exists res out h',
    ReLULayer.forward 0 1 [OReLU None; ONd (Arr1 [Fin (-1); Fin 0; Fin 2])]
      = Some (res, h') /\
    h' !! res = Some (ONd out) /\
    length [OReLU None; ONd (Arr1 [Fin (-1); Fin 0; Fin 2])] <= res /\
    ndim out = ndim (Arr1 [Fin (-1); Fin 0; Fin 2]) /\
    shape2 out = shape2 (Arr1 [Fin (-1); Fin 0; Fin 2]) /\
    (forall i j, i < fst (shape2 (Arr1 [Fin (-1); Fin 0; Fin 2])) ->
                 j < snd (shape2 (Arr1 [Fin (-1); Fin 0; Fin 2])) ->
       (float_lt (at2 (Arr1 [Fin (-1); Fin 0; Fin 2]) i j) (Fin 0) ->
        at2 out i j = Fin 0) /\
       (float_le (Fin 0) (at2 (Arr1 [Fin (-1); Fin 0; Fin 2]) i j) ->
        at2 out i j = at2 (Arr1 [Fin (-1); Fin 0; Fin 2]) i j)) /\
    h' !! 0 = Some (OReLU (Some 1)) /\
    h' !! 1 = Some (ONd (Arr1 [Fin (-1); Fin 0; Fin 2])) /\
    heap_le_except [0] [OReLU None; ONd (Arr1 [Fin (-1); Fin 0; Fin 2])] h'.
Proof.
  apply (ReLULayer_forward_spec
           [OReLU None; ONd (Arr1 [Fin (-1); Fin 0; Fin 2])] 0 1 None
           (Arr1 [Fin (-1); Fin 0; Fin 2])); reflexivity.
Defined.

Lemma FullyConnectedLayer_forward_spec_witness :
  exists res out h',
    FullyConnectedLayer.forward 0 3 example_layer_heap = Some (res, h') /\
    h' !! res = Some (ONd out) /\ length example_layer_heap <= res /\
    has_shape out 1 1 /\
    (forall i j, i < 1 -> j < 1 ->
       at2 out i j =
         fadd (fsum (tabulate 2 (fun k =>
                 fmul (at2 (Arr2 2 [[Fin 1; Fin 2]]) i k)
                      (at2 (Arr2 1 [[Fin 3]; [Fin 4]]) k j))))
              (at2 (Arr2 1 [[Fin 5]]) 0 j)) /\
    h' !! 0 = Some (OFC 1 2 (Some 3)) /\
    heap_le_except [0] example_layer_heap h'.
Proof.
  apply (FullyConnectedLayer_forward_spec example_layer_heap 0 1 2 3 4 5 6 7
           (Some 3) (Arr2 2 [[Fin 1; Fin 2]]) (Arr2 1 [[Fin 3]; [Fin 4]])
           (Arr2 1 [[Fin 5]]) 1 2 1);
    first [ reflexivity | (repeat split; reflexivity) ].
Defined.

Lemma FullyConnectedLayer_forward_shape_mismatch_witness :
  FullyConnectedLayer.forward 0 8 example_layer_heap = None.
Proof.
  apply (FullyConnectedLayer_forward_shape_mismatch example_layer_heap
           0 1 2 8 4 5 (Some 3) (Arr2 1 [[Fin 7]]) (Arr2 1 [[Fin 3]; [Fin 4]])
           1 1 2 1);
    first [ reflexivity | lia | (repeat split; reflexivity) ].
Defined.

Lemma backward_before_forward_raises_witness :
  ReLULayer.backward 0 1 [OReLU None; ONd (Arr1 [Fin 1])] = None /\
  FullyConnectedLayer.backward 0 1 [OFC 2 3 None; ONd (Arr2 1 [[Fin 1]])]
    = None.
Proof.
  split.
  - apply (proj1 (backward_before_forward_raises
                    [OReLU None; ONd (Arr1 [Fin 1])] 0 1)). reflexivity.
  - apply (proj2 (backward_before_forward_raises
                    [OFC 2 3 None; ONd (Arr2 1 [[Fin 1]])] 0 1) 2 3).
    reflexivity.
Defined.

Lemma compute_loss_and_gradients_frame_witness :
  exists loss h',
    TwoLayerNet.compute_loss_and_gradients example_net 12 [0%Z] example_heap
      = Some (loss, h') /\
    (forall l o,
       ~ In l [fc0 example_layout; relu1 example_layout; fc2 example_layout;
               pW0 example_layout; pB0 example_layout; pW2 example_layout;
               pB2 example_layout] ->
       example_heap !! l = Some o -> h' !! l = Some o) /\
    h' !! 12 = Some (ONd (Arr2 1 [[Fin 1]])) /\
    net_in_heap h' example_net example_layout example_values 1 1 2.
Proof.
  apply (compute_loss_and_gradients_frame example_heap example_net
           example_layout example_values 1 1 2 12 (Arr2 1 [[Fin 1]]) [0%Z] 1).
  - exact example_net_in_heap.
  - reflexivity.
  - repeat split; reflexivity.
  - lia.
  - reflexivity.
  - repeat constructor; lia.
Defined.

Lemma linear_softmax_spec_witness :
  exists predictions dprediction dW dw h',
    linear_softmax 2 1 [0; 1]%Z example_classifier_heap =
      Some ((ce_loss (softmax_nd predictions) [0; 1]%Z, dW), h') /\
    nd_dot (Arr2 1 [[Fin 1]; [Fin 2]]) (Arr2 2 [[Fin 1; Fin 0]])
      = Some predictions /\
    swce_gradient (softmax_nd predictions) dprediction [0; 1]%Z /\
    h' !! dW = Some (ONd dw) /\ length example_classifier_heap <= dW /\
    has_shape dw 1 2 /\
    (forall i j, i < 1 -> j < 2 ->
       at2 dw i j = dot_cols 2 (Arr2 1 [[Fin 1]; [Fin 2]]) dprediction i j) /\
    heap_le example_classifier_heap h'.
Proof.
  apply (linear_softmax_spec example_classifier_heap 2 1
           (Arr2 1 [[Fin 1]; [Fin 2]]) (Arr2 2 [[Fin 1; Fin 0]]) [0; 1]%Z 2 1 2);
    first [ reflexivity | lia | (repeat split; reflexivity)
          | (repeat constructor; lia) ].
Defined.

Lemma LinearSoftmaxClassifier_predict_spec_witness :
  exists y ks h',
    LinearSoftmaxClassifier.predict 0 2 example_classifier_heap
      = Some (map Z.of_nat ks, h') /\
    nd_dot (Arr2 1 [[Fin 1]; [Fin 2]]) (Arr2 2 [[Fin 1; Fin 0]]) = Some y /\
    length ks = 2 /\
    (forall i, i < 2 ->
       nth i ks 0 < 2 /\ is_argmax (nd_row y i) (nth i ks 0)) /\
    heap_le example_classifier_heap h'.
Proof.
  apply (LinearSoftmaxClassifier_predict_spec example_classifier_heap 0 2 1
           (Arr2 1 [[Fin 1]; [Fin 2]]) (Arr2 2 [[Fin 1; Fin 0]]) 2 1 2);
    first [ reflexivity | lia | (repeat split; reflexivity) ].
Defined.

Lemma predict_before_fit_raises_witness :
  LinearSoftmaxClassifier.predict 0 1 example_fit_heap = None.
Proof.
  apply (predict_before_fit_raises example_fit_heap 0 1
           (Arr2 1 [[Fin 1]; [Fin 2]; [Fin 3]]));
    first [ reflexivity | (cbn; lia) ].
Defined.

Lemma fit_raises_witness :
  LinearSoftmaxClassifier.fit example_rng 0 1 [] 2 (Fin 1) (Fin 0) 1
    example_fit_heap = None /\
  LinearSoftmaxClassifier.fit example_rng 0 1 [0; 1; 0]%Z 0 (Fin 1) (Fin 0) 1
    example_fit_heap = None.
Proof.
  split.
  - apply (proj1 (fit_raises example_rng example_fit_heap 0 1 [] 2
                    (Fin 1) (Fin 0) 1)).
  - apply (proj2 (fit_raises example_rng example_fit_heap 0 1 [0; 1; 0]%Z 2
                    (Fin 1) (Fin 0) 1)). lia.
Defined.

Lemma fit_creates_weights_witness :
  exists history h' w wv',
    LinearSoftmaxClassifier.fit example_rng 0 1 [0; 1; 0]%Z 2 (Fin 1) (Fin 0)
      2 example_fit_heap = Some (history, h') /\
    length history = Z.to_nat 2 /\
    fit_epochs example_rng (Arr2 1 [[Fin 1]; [Fin 2]; [Fin 3]]) [0; 1; 0]%Z
      2 (Fin 1) (Fin 0) (seq 0 (Z.to_nat 2))
      (nd_map (fmul (Fin (1 / 1000))) (randn example_rng 1 (Z.to_nat (1 + 1))))
      history wv' /\
    h' !! 0 = Some (OLinear (Some w)) /\ h' !! w = Some (ONd wv') /\
    has_shape wv' 1 (Z.to_nat (1 + 1)) /\
    ((2 <= 0)%Z ->
     wv' = nd_map (fmul (Fin (1 / 1000)))
             (randn example_rng 1 (Z.to_nat (1 + 1)))).
Proof.
  apply (fit_creates_weights example_rng example_fit_heap 0 1
           (Arr2 1 [[Fin 1]; [Fin 2]; [Fin 3]]) [0; 1; 0]%Z 2 (Fin 1) (Fin 0)
           2 3 1 1%Z).
  - reflexivity.
  - reflexivity.
  - repeat split; reflexivity.
  - lia.
  - reflexivity.
  - repeat constructor; lia.
  - reflexivity.
  - repeat split; reflexivity.
  - lia.
  - intros k. apply Permutation_refl.
Defined.

Lemma fit_continues_from_weights_witness :
  exists history1 h1 w wv1 history2 h2 wv2,
    LinearSoftmaxClassifier.fit example_rng 0 1 [0; 1; 0]%Z 2 (Fin 1) (Fin 0)
      2 example_fit_heap = Some (history1, h1) /\
    h1 !! 0 = Some (OLinear (Some w)) /\ h1 !! w = Some (ONd wv1) /\
    LinearSoftmaxClassifier.fit example_rng 0 1 [0; 1; 0]%Z 1 (Fin 2) (Fin 1)
      3 h1 = Some (history2, h2) /\
    fit_epochs example_rng (Arr2 1 [[Fin 1]; [Fin 2]; [Fin 3]]) [0; 1; 0]%Z
      1 (Fin 2) (Fin 1) (seq 0 (Z.to_nat 3)) wv1 history2 wv2 /\
    h2 !! 0 = Some (OLinear (Some w)) /\ h2 !! w = Some (ONd wv2).
Proof.
  apply (fit_continues_from_weights example_rng example_rng example_fit_heap
           0 1 None (Arr2 1 [[Fin 1]; [Fin 2]; [Fin 3]]) [0; 1; 0]%Z 2 1
           (Fin 1) (Fin 0) (Fin 2) (Fin 1) 2 3 3 1 2
           (nd_map (fmul (Fin (1 / 1000))) (Arr2 2 [[Fin 1; Fin 1]]))).
  - reflexivity.
  - reflexivity.
  - discriminate.
  - repeat split; reflexivity.
  - lia.
  - reflexivity.
  - reflexivity.
  - repeat split; reflexivity.
  - lia.
  - repeat constructor; lia.
  - lia.
  - lia.
  - intros k. apply Permutation_refl.
  - intros k. apply Permutation_refl.
Defined.

Lemma fit_then_predict_witness :
  exists history h1 wv scores ks h2,
    LinearSoftmaxClassifier.fit example_rng 0 1 [0; 1; 0]%Z 2 (Fin 1) (Fin 0)
      2 example_fit_heap = Some (history, h1) /\
    fit_epochs example_rng (Arr2 1 [[Fin 1]; [Fin 2]; [Fin 3]]) [0; 1; 0]%Z
      2 (Fin 1) (Fin 0) (seq 0 (Z.to_nat 2))
      (nd_map (fmul (Fin (1 / 1000))) (Arr2 2 [[Fin 1; Fin 1]])) history wv /\
    LinearSoftmaxClassifier.predict 0 1 h1 = Some (map Z.of_nat ks, h2) /\
    nd_dot (Arr2 1 [[Fin 1]; [Fin 2]; [Fin 3]]) wv = Some scores /\
    length ks = 3 /\
    forall i, i < 3 ->
      nth i ks 0 < 2 /\ is_argmax (nd_row scores i) (nth i ks 0).
Proof.
  apply (fit_then_predict example_rng example_fit_heap 0 1 None
           (Arr2 1 [[Fin 1]; [Fin 2]; [Fin 3]]) [0; 1; 0]%Z 2 (Fin 1) (Fin 0)
           2 3 1 2 (nd_map (fmul (Fin (1 / 1000))) (Arr2 2 [[Fin 1; Fin 1]]))).
  - reflexivity.
  - reflexivity.
  - discriminate.
  - repeat split; reflexivity.
  - lia.
  - reflexivity.
  - reflexivity.
  - repeat split; reflexivity.
  - lia.
  - repeat constructor; lia.
  - lia.
  - intros k. apply Permutation_refl.
Defined.

Lemma epoch_batches_count_witness :
  (exists batches,
     epoch_batches example_rng 3 2 0 = Some batches /\
     length batches = S ((3 - 1) / Z.to_nat 2)) /\
  epoch_batches example_rng 3 (-1) 0
    = Some [shuffle example_rng 0 (nd_arange 3)].
Proof.
  split.
  - apply (proj1 (epoch_batches_count example_rng 3 2 0
                    ltac:(lia) (Permutation_refl _))). lia.
  - apply (proj2 (epoch_batches_count example_rng 3 (-1) 0
                    ltac:(lia) (Permutation_refl _))). lia.
Defined.

Lemma softmax_empty_witness :
  softmax 0 [ONd (Arr1 [])] = None /\
  softmax 0 [ONd (Arr2 0 [[]; []])] = None /\
  exists probs h',
    softmax 0 [ONd (Arr2 3 [])] = Some (probs, h') /\
    h' !! probs = Some (ONd (Arr2 3 [])) /\
    length [ONd (Arr2 3 [])] <= probs /\
    heap_le [ONd (Arr2 3 [])] h'.
Proof.
  split; [| split].
  - apply (proj1 (softmax_empty [ONd (Arr1 [])] 0)). reflexivity.
  - apply (proj1 (proj2 (softmax_empty [ONd (Arr2 0 [[]; []])] 0)) [[]; []]).
    reflexivity.
  - apply (proj2 (proj2 (softmax_empty [ONd (Arr2 3 [])] 0)) 3);
      [lia | reflexivity].
Defined.

Lemma softmax_gives_probabilities_witness :
  exists probs sm h',
    softmax 0 [ONd (Arr1 [Fin 0; Fin 1])] = Some (probs, h') /\
    h' !! probs = Some (ONd sm) /\
    Forall is_probability (ravel sm).
Proof.
  apply (softmax_gives_probabilities [ONd (Arr1 [Fin 0; Fin 1])] 0
           (Arr1 [Fin 0; Fin 1]));
    first [ reflexivity | (cbn; lia) ].
Defined.

Lemma softmax_with_cross_entropy_negative_index_witness :
  exists dprediction h',
    softmax_with_cross_entropy 0 [(-1)%Z] [ONd (Arr1 [Fin 0; Fin 1])] =
      Some ((ce_loss (softmax_nd (Arr1 [Fin 0; Fin 1]))
               (map (wrap_index (snd (shape2 (Arr1 [Fin 0; Fin 1])))) [(-1)%Z]),
             dprediction), h') /\
    softmax_with_cross_entropy 0
      (map (wrap_index (snd (shape2 (Arr1 [Fin 0; Fin 1])))) [(-1)%Z])
      [ONd (Arr1 [Fin 0; Fin 1])] =
    softmax_with_cross_entropy 0 [(-1)%Z] [ONd (Arr1 [Fin 0; Fin 1])].
Proof.
  apply (softmax_with_cross_entropy_negative_index
           [ONd (Arr1 [Fin 0; Fin 1])] 0 (Arr1 [Fin 0; Fin 1]) [(-1)%Z]).
  - reflexivity.
  - reflexivity.
  - cbn. lia.
  - repeat constructor; cbn; lia.
  - discriminate.
Defined.

Lemma softmax_with_cross_entropy_index_out_of_range_witness :
  softmax_with_cross_entropy 0 [2%Z] [ONd (Arr1 [Fin 0; Fin 1])] = None.
Proof.
  apply (softmax_with_cross_entropy_index_out_of_range
           [ONd (Arr1 [Fin 0; Fin 1])] 0 (Arr1 [Fin 0; Fin 1]) [2%Z]).
  - reflexivity.
  - reflexivity.
  - cbn. lia.
  - constructor. cbn. lia.
Defined.

Lemma TwoLayerNet_params_spec_witness :
  TwoLayerNet.params example_net example_heap =
    Some (concat (imap (layer_entries example_heap)
                    (TwoLayerNet.layers example_net)), example_heap).
Proof.
  apply (TwoLayerNet_params_spec example_heap example_net).
  repeat constructor; eexists; (split; [reflexivity | exact I]).
Defined.
